(** * krlparser: the recursive-descent parser of [krlparser/parser.py]

    A shallow embedding of the [Parser] class and a verification of the
    properties its specification states about it.  The parser object is a
    record, its methods are computations in a state-and-exception monad
    that also counts the token comparisons they perform, and Python's
    [while] loops are bounded by the number of tokens not yet consumed. *)

From Stdlib Require Import List String Ascii ZArith Lia Bool Arith.
Import ListNotations.
Open Scope string_scope.
Open Scope list_scope.

(* ################################################################## *)
(** * Part I: the model and the vocabulary of the properties *)

(* ================================================================== *)
(** ** Tokens *)

(** Modelled from the spec: [krlparser/token.py] is not among the sources.
    [TOKENS] and [KEYWORDS] are the closed vocabulary of token kinds the
    parser compares with [==]; they are taken to be pairwise distinct. *)
Inductive TokenType : Type :=
| NEWLINE | LEFT_BRACE | RIGHT_BRACE | COLON | COMMA | NAME
| FILE_ATTRIBUTE | END_OF_FILE
| GLOBAL | DEF | DEFFCT | END | ENDFCT | DEFDAT | ENDDAT | PUBLIC
| IN | OUT.

Definition TokenType_eq_dec (a b : TokenType) : {a = b} + {a <> b}.
Proof. decide equality. Defined.

Definition TokenType_eqb (a b : TokenType) : bool :=
  if TokenType_eq_dec a b then true else false.

(** Modelled from the spec: the printed form of a token kind, used only
    inside the generic "expected, found" message, is taken to be its name. *)
Definition token_repr (k : TokenType) : string :=
  match k with
  | NEWLINE => "NEWLINE" | LEFT_BRACE => "LEFT_BRACE"
  | RIGHT_BRACE => "RIGHT_BRACE" | COLON => "COLON" | COMMA => "COMMA"
  | NAME => "NAME" | FILE_ATTRIBUTE => "FILE_ATTRIBUTE"
  | END_OF_FILE => "END_OF_FILE"
  | GLOBAL => "GLOBAL" | DEF => "DEF" | DEFFCT => "DEFFCT" | END => "END"
  | ENDFCT => "ENDFCT" | DEFDAT => "DEFDAT" | ENDDAT => "ENDDAT"
  | PUBLIC => "PUBLIC" | IN => "IN" | OUT => "OUT"
  end.

Record Token : Type := mkToken {
  token_type : TokenType;
  value : string;
  line_number : Z;
  column : Z
}.

(* ================================================================== *)
(** ** Abstract syntax *)

(** Modelled from the spec: [krlparser/ast.py] is not among the sources.
    The node classes are records with the fields of the spec's data model,
    named after the keyword arguments the parser passes.  A field the
    parser never passes ([is_global], [is_public]) takes the constructor's
    default, which the spec's minimal-procedure property fixes to false. *)
Inductive ParameterType : Type := TYPE_IN | TYPE_OUT.

Record Parameter_ : Type := mkParameter {
  param_name : string;
  parameter_type : ParameterType
}.

Record Type_ : Type := mkType { type_name : string }.

Record FunctionCall : Type := mkFunctionCall {
  call_name : string;
  call_parameters : list string
}.

Record FileAttribute : Type := mkFileAttribute { attr_value : string }.

Record FunctionDefinition : Type := mkFunctionDefinition {
  fd_name : string;
  fd_parameters : list Parameter_;
  fd_body : list FunctionCall;
  fd_returns : option Type_;
  fd_is_global : bool
}.

Record DataDefinition : Type := mkDataDefinition {
  dd_name : string;
  dd_is_public : bool
}.

Record SourceFile : Type := mkSourceFile {
  sf_name : string;
  sf_file_attributes : list FileAttribute;
  sf_statements : list FunctionDefinition
}.

Record DataFile : Type := mkDataFile {
  df_name : string;
  df_file_attributes : list FileAttribute;
  df_statements : list DataDefinition
}.

Record Module_ : Type := mkModule {
  mod_name : string;
  mod_source_file : SourceFile;
  mod_data_file : DataFile
}.

(** What the accumulated [ast] list holds. *)
Inductive Node : Type :=
| NModule (m : Module_)
| NSourceFile (s : SourceFile)
| NDataFile (d : DataFile).

(** [FunctionDefinition(name=, parameters=, body=)] and the same with
    [returns=]: the calls the parser makes; [is_global] is not passed. *)
Definition FunctionDefinition_ (name : string) (parameters : list Parameter_)
    (body : list FunctionCall) (returns : option Type_) : FunctionDefinition :=
  mkFunctionDefinition name parameters body returns false.

(** [DataDefinition(name=)]: [is_public] is not passed. *)
Definition DataDefinition_ (name : string) : DataDefinition :=
  mkDataDefinition name false.

(* ================================================================== *)
(** ** The parser object and its monad *)

Record Parser : Type := mkParser {
  _ast : list Node;
  _temp_ast : list Node;
  _tokens : list Token;
  _position : nat;
  _current_token : option Token
}.

(** [Parser.__init__] *)
Definition Parser_init : Parser := mkParser [] [] [] 0 None.

(** The exceptions a call can end with.  [AttributeError] is Python's
    answer to reading a field of [None], [IndexError] to [tokens[0]] on an
    empty list; [LexError] is what the lexer may raise. *)
Inductive exn : Type :=
| ParsingError (line_number column : Z) (message : string)
| AttributeError
| IndexError
| LexError (line_number column : Z) (message : string).

Inductive outcome (A : Type) : Type :=
| Ret (a : A) (p : Parser)
| Raise (e : exn) (p : Parser)
| Timeout.
Arguments Ret {A} a p.
Arguments Raise {A} e p.
Arguments Timeout {A}.

(** A method: from the object's state to an outcome and the number of
    token comparisons made on the way (one per call of [_eat] or
    [_is_current_token], the only places where the parser looks at a
    token; every turn of every loop makes at least one). *)
Definition M (A : Type) : Type := Parser -> outcome A * nat.

Definition ret {A} (a : A) : M A := fun p => (Ret a p, 0).

Definition bind {A B} (m : M A) (f : A -> M B) : M B := fun p =>
  match m p with
  | (Ret a p', n) => let (o, k) := f a p' in (o, n + k)
  | (Raise e p', n) => (Raise e p', n)
  | (Timeout, n) => (Timeout, n)
  end.

Declare Scope parser_scope.
Delimit Scope parser_scope with parser.
Notation "x <- m ;; k" := (bind m (fun x => k))
  (at level 100, m at next level, right associativity) : parser_scope.
Notation "m ;; k" := (bind m (fun _ => k))
  (at level 100, right associativity) : parser_scope.
Open Scope parser_scope.

Definition raise {A} (e : exn) : M A := fun p => (Raise e p, 0).
Definition timeout {A} : M A := fun _ => (Timeout, 0).
Definition tick : M unit := fun p => (Ret tt p, 1).
Definition get : M Parser := fun p => (Ret p p, 0).
Definition put (p : Parser) : M unit := fun _ => (Ret tt p, 0).

(** The outcome and the step count of running [m] from [p]. *)
Definition result {A} (m : M A) (p : Parser) : outcome A := fst (m p).
Definition steps {A} (m : M A) (p : Parser) : nat := snd (m p).

(** Reading a field of a token that may be [None]. *)
Definition deref (o : option Token) : M Token :=
  match o with
  | Some token => ret token
  | None => raise AttributeError
  end.

(** [try: ... except ParsingError: ...] around a Boolean-valued block: the
    handler sees the object as the failed block left it. *)
Definition try_except_ParsingError (m : M bool) (handler : M bool) : M bool :=
  fun p =>
    match m p with
    | (Raise (ParsingError _ _ _) p', n) =>
        let (o, k) := handler p' in (o, n + k)
    | other => other
    end.

(** Python's [while cond: acc = body(acc)], at most [fuel] tests of the
    condition. *)
Fixpoint while_fuel {A} (fuel : nat) (cond : M bool) (body : A -> M A)
    (acc : A) : M A :=
  match fuel with
  | O => timeout
  | S fuel' =>
      b <- cond ;;
      if b then (acc' <- body acc ;; while_fuel fuel' cond body acc')
      else ret acc
  end.

(** The bound given to a loop: one more than the tokens not yet consumed.
    [bounded_while_do] shows it is never reached. *)
Definition fuel_of (p : Parser) : nat :=
  S (List.length (_tokens p) - _position p).

Definition while_do {A} (cond : M bool) (body : A -> M A) (acc : A) : M A :=
  fun p => while_fuel (fuel_of p) cond body acc p.

(* ================================================================== *)
(** ** Primitives *)

Definition quote : string := String (ascii_of_nat 34) EmptyString.

Definition expected_found (expected found : TokenType) : string :=
  ("Expected " ++ quote ++ token_repr expected ++ quote ++ ", found "
    ++ quote ++ token_repr found ++ quote)%string.

Definition expected_in_or_out : string :=
  ("Expected " ++ quote ++ token_repr IN ++ quote ++ " or "
    ++ quote ++ token_repr OUT ++ quote)%string.

(** [Parser._initialize] *)
Definition _initialize (tokens : list Token) : M unit := fun p =>
  let p1 := mkParser (_ast p) [] tokens 0 (_current_token p) in
  match nth_error tokens 0 with
  | Some token =>
      (Ret tt (mkParser (_ast p1) (_temp_ast p1) (_tokens p1) (_position p1)
                        (Some token)), 0)
  | None => (Raise IndexError p1, 0)
  end.

(** [Parser._error] *)
Definition _error {A} (message : string) : M A :=
  p <- get ;;
  token <- deref (_current_token p) ;;
  raise (ParsingError (line_number token) (column token) message).

(** [Parser._advance] *)
Definition advance (p : Parser) : Parser :=
  let position := _position p + 1 in
  mkParser (_ast p) (_temp_ast p) (_tokens p) position
    (if (Z.of_nat position >? Z.of_nat (List.length (_tokens p)) - 1)%Z
     then None
     else nth_error (_tokens p) position).

Definition _advance : M unit := fun p => (Ret tt (advance p), 0).

(** [Parser._eat] *)
Definition _eat (kind : TokenType) : M Token :=
  tick ;;
  p <- get ;;
  token <- deref (_current_token p) ;;
  if TokenType_eqb (token_type token) kind
  then (_advance ;; ret token)
  else _error (expected_found kind (token_type token)).

(** [Parser._try_eat] *)
Definition _try_eat (kind : TokenType) : M bool :=
  try_except_ParsingError (_eat kind ;; ret true) (ret false).

(** [Parser._is_current_token] *)
Definition _is_current_token (kind : TokenType) : M bool :=
  tick ;;
  p <- get ;;
  token <- deref (_current_token p) ;;
  ret (TokenType_eqb (token_type token) kind).

(** [Parser._skip_newlines] *)
Definition _skip_newlines : M unit :=
  while_do (_try_eat NEWLINE) (fun _ => ret tt) tt.

(* ================================================================== *)
(** ** Productions *)

(** [Parser._header].  The loop tests
    [self._current_token.token_type == TOKENS.FILE_ATTRIBUTE], which is
    what [_is_current_token] computes; [attributes] is a local list, so
    appending to it before or after the two calls that follow is the
    same. *)
Definition _header : M (list FileAttribute) :=
  while_do (_is_current_token FILE_ATTRIBUTE)
    (fun attributes =>
       token <- _eat FILE_ATTRIBUTE ;;
       _eat NEWLINE ;;
       _skip_newlines ;;
       ret (attributes ++ [mkFileAttribute (value token)]))
    [].

(** [Parser._param_def].  [Parameter.TYPE.IN] and [Parameter.TYPE.OUT]
    are taken to be truthy, as members of an enumeration are, so that
    [not parameter_type] holds exactly when neither keyword was there. *)
Definition _param_def : M Parameter_ :=
  name <- _eat NAME ;;
  _eat COLON ;;
  is_in <- _try_eat IN ;;
  parameter_type <-
    (if is_in then ret (Some TYPE_IN)
     else (is_out <- _try_eat OUT ;;
           if is_out then ret (Some TYPE_OUT) else ret None)) ;;
  match parameter_type with
  | Some t => ret (mkParameter (value name) t)
  | None => _error expected_in_or_out
  end.

(** [Parser._params_def] *)
Definition _params_def : M (list Parameter_) :=
  is_name <- _is_current_token NAME ;;
  if negb is_name then ret []
  else
    first <- _param_def ;;
    while_do (_try_eat COMMA)
      (fun parameters => p <- _param_def ;; ret (parameters ++ [p]))
      [first].

(** [Parser._param] *)
Definition _param : M string :=
  token <- _eat NAME ;; ret (value token).

(** [Parser._params] *)
Definition _params : M (list string) :=
  is_name <- _is_current_token NAME ;;
  if negb is_name then ret []
  else
    first <- _param ;;
    while_do (_try_eat COMMA)
      (fun parameters => p <- _param ;; ret (parameters ++ [p]))
      [first].

(** [Parser._mod_call] *)
Definition _mod_call : M FunctionCall :=
  function <- _eat NAME ;;
  _eat LEFT_BRACE ;;
  parameters <- _params ;;
  _eat RIGHT_BRACE ;;
  _eat NEWLINE ;;
  ret (mkFunctionCall (value function) parameters).

(** [Parser._body]: the [while True] loop leaves through [break] when,
    after the newlines, the current token is not a [NAME]. *)
Definition _body : M (list FunctionCall) :=
  while_do (_skip_newlines ;; _is_current_token NAME)
    (fun body => call <- _mod_call ;; ret (body ++ [call]))
    [].

(** [Parser._mod_def] *)
Definition _mod_def : M (option FunctionDefinition) :=
  _skip_newlines ;;
  global_definition <- _try_eat GLOBAL ;;
  is_def <- _is_current_token DEF ;;
  if negb is_def then ret None
  else
    _eat DEF ;;
    name <- _eat NAME ;;
    _eat LEFT_BRACE ;;
    parameters <- _params_def ;;
    _eat RIGHT_BRACE ;;
    _eat NEWLINE ;;
    _skip_newlines ;;
    body <- _body ;;
    _eat END ;;
    _skip_newlines ;;
    ret (Some (FunctionDefinition_ (value name) parameters body None)).

(** [Parser._fnc_def] *)
Definition _fnc_def : M (option FunctionDefinition) :=
  _skip_newlines ;;
  global_definition <- _try_eat GLOBAL ;;
  is_deffct <- _is_current_token DEFFCT ;;
  if negb is_deffct then ret None
  else
    _eat DEFFCT ;;
    return_type <- _eat NAME ;;
    name <- _eat NAME ;;
    _eat LEFT_BRACE ;;
    parameters <- _params_def ;;
    _eat RIGHT_BRACE ;;
    _eat NEWLINE ;;
    _skip_newlines ;;
    body <- _body ;;
    _eat ENDFCT ;;
    _skip_newlines ;;
    ret (Some (FunctionDefinition_ (value name) parameters body
                 (Some (mkType (value return_type))))).

(** [Parser._dat_def] *)
Definition _dat_def : M DataDefinition :=
  _skip_newlines ;;
  _eat DEFDAT ;;
  name <- _eat NAME ;;
  public_definition <- _try_eat PUBLIC ;;
  _eat NEWLINE ;;
  _skip_newlines ;;
  _eat ENDDAT ;;
  _skip_newlines ;;
  ret (DataDefinition_ (value name)).

(** [any(self._is_current_token(token) for token in kinds)] *)
Fixpoint any_current_token (kinds : list TokenType) : M bool :=
  match kinds with
  | [] => ret false
  | kind :: rest =>
      b <- _is_current_token kind ;;
      if b then ret true else any_current_token rest
  end.

(** [filter(None, definitions)]: a node object is truthy, [None] is
    not. *)
Fixpoint filter_None {A} (l : list (option A)) : list A :=
  match l with
  | [] => []
  | Some a :: rest => a :: filter_None rest
  | None :: rest => filter_None rest
  end.

Definition no_definition_found : string :=
  "No module or function definition found".
Definition no_data_definition_found : string := "No data definition found".
Definition more_than_one_data_definition_found : string :=
  "More than one data definition found".

(** The loop of [Parser._source_file]. *)
Definition _source_file_statements : M (list FunctionDefinition) :=
  while_do (any_current_token [GLOBAL; DEF; DEFFCT])
    (fun statements =>
       d1 <- _mod_def ;;
       d2 <- _fnc_def ;;
       ret (statements ++ filter_None [d1; d2]))
    [].

(** [Parser._source_file] *)
Definition _source_file (name : string) : M SourceFile :=
  attributes <- _header ;;
  statements <- _source_file_statements ;;
  (match statements with
   | [] => _error no_definition_found
   | _ :: _ => ret tt
   end) ;;
  _eat END_OF_FILE ;;
  ret (mkSourceFile name attributes statements).

(** The loop of [Parser._data_file]. *)
Definition _data_file_statements : M (list DataDefinition) :=
  while_do (_is_current_token DEFDAT)
    (fun statements => d <- _dat_def ;; ret (statements ++ [d]))
    [].

(** [Parser._data_file] *)
Definition _data_file (name : string) : M DataFile :=
  attributes <- _header ;;
  statements <- _data_file_statements ;;
  (match statements with
   | [] => _error no_data_definition_found
   | _ :: _ => ret tt
   end) ;;
  (if Nat.ltb 1 (List.length statements)
   then _error more_than_one_data_definition_found
   else ret tt) ;;
  _eat END_OF_FILE ;;
  ret (mkDataFile name attributes statements).

(* ================================================================== *)
(** ** The entry points *)

Inductive LexResult : Type :=
| Tokens (tokens : list Token)
| LexFailure (e : exn).

Definition append_ast (node : Node) : M unit := fun p =>
  (Ret tt (mkParser (_ast p ++ [node]) (_temp_ast p) (_tokens p)
                    (_position p) (_current_token p)), 0).

Section Facade.

(** [krlparser/lexer.py] is not among the sources: the entry points are
    parametrised by what [Lexer(text).generate_tokens()] returns or
    raises. *)
Variable generate_tokens : string -> LexResult.

Definition Lexer_generate_tokens (text : string) : M (list Token) :=
  match generate_tokens text with
  | Tokens tokens => ret tokens
  | LexFailure e => raise e
  end.

(** [Parser.add_module] *)
Definition add_module (module_name source_file data_file : string)
    : M unit :=
  source_tokens <- Lexer_generate_tokens source_file ;;
  data_tokens <- Lexer_generate_tokens data_file ;;
  _initialize source_tokens ;;
  source <- _source_file module_name ;;
  _initialize data_tokens ;;
  data <- _data_file module_name ;;
  append_ast (NModule (mkModule module_name source data)).

(** [Parser.add_source_file] *)
Definition add_source_file (name source_file : string) : M unit :=
  source_tokens <- Lexer_generate_tokens source_file ;;
  _initialize source_tokens ;;
  source <- _source_file name ;;
  append_ast (NSourceFile source).

(** [Parser.add_data_file] *)
Definition add_data_file (name data_file : string) : M unit :=
  data_tokens <- Lexer_generate_tokens data_file ;;
  _initialize data_tokens ;;
  data <- _data_file name ;;
  append_ast (NDataFile data).

End Facade.

(* ================================================================== *)
(** ** Cursor invariant, framing and step bounds *)

(** The cursor is in step with the token array: what [_initialize] sets up
    and [_advance] maintains. *)
Definition inv (p : Parser) : Prop :=
  _current_token p = nth_error (_tokens p) (_position p) /\
  _position p <= List.length (_tokens p).

(** What a production may change: nothing but the cursor, and the cursor
    only forwards. *)
Definition frame (p p' : Parser) : Prop :=
  _ast p' = _ast p /\ _temp_ast p' = _temp_ast p /\
  _tokens p' = _tokens p /\ _position p <= _position p'.

Definition consumed (p p' : Parser) : nat := _position p' - _position p.

(** [bounded a b m]: from a state in step, [m] ends (it returns or raises,
    the loop bound is not reached), keeps the invariant and the frame, and
    makes at most [a] comparisons per consumed token plus [b]. *)
Definition bounded {A} (a b : nat) (m : M A) : Prop :=
  forall p, inv p ->
    match m p with
    | (Ret _ p', n) | (Raise _ p', n) =>
        inv p' /\ frame p p' /\ n <= a * consumed p p' + b
    | (Timeout, _) => False
    end.

(** [progresses m]: when [m] returns, it has consumed a token. *)
Definition progresses {A} (m : M A) : Prop :=
  forall p, inv p ->
    match m p with
    | (Ret _ p', _) => _position p < _position p'
    | _ => True
    end.

(** Every completed turn of a loop consumes a token. *)
Definition turn_progresses {A} (cond : M bool) (body : A -> M A) : Prop :=
  forall p acc, inv p ->
    match cond p with
    | (Ret true p1, _) =>
        match body acc p1 with
        | (Ret _ p2, _) => _position p < _position p2
        | _ => True
        end
    | _ => True
    end.

(* ================================================================== *)
(** ** Termination and cost of a file parse *)

(** The call came back: it returned or it raised. *)
Definition ends {A} (o : outcome A) : Prop :=
  match o with
  | Ret _ _ | Raise _ _ => True
  | Timeout => False
  end.

(* ================================================================== *)
(** ** The accumulated list *)


(* ================================================================== *)
(** ** Reads of the current token *)

(** The token sequence the lexer promises: not empty, the end-of-stream
    token last and nowhere else. *)
Definition ends_in_only_eof (tokens : list Token) : Prop :=
  exists body eof,
    tokens = body ++ [eof] /\ token_type eof = END_OF_FILE /\
    Forall (fun t => token_type t <> END_OF_FILE) body.

(** The cursor stands on a token of such a sequence. *)
Definition on_token (p : Parser) : Prop :=
  inv p /\ ends_in_only_eof (_tokens p) /\
  _position p < List.length (_tokens p).

Definition is_ParsingError (e : exn) : Prop :=
  match e with ParsingError _ _ _ => True | _ => False end.

(** [safe_to Q m]: from a cursor on a token, [m] never reads a missing
    token; when it raises, it raises a [ParsingError] with the cursor
    still on a token; when it returns, [Q] holds. *)
Definition safe_to {A} (Q : Parser -> Prop) (m : M A) : Prop :=
  forall p, on_token p ->
    match result m p with
    | Ret _ p' => Q p'
    | Raise e p' => is_ParsingError e /\ on_token p'
    | Timeout => True
    end.

Definition safe {A} (m : M A) : Prop := safe_to on_token m.

(** The cursor has run off the end of the token array. *)
Definition past_the_end (p : Parser) : Prop :=
  _current_token p = None /\ _position p = List.length (_tokens p).

(* ================================================================== *)
(** ** Source text as words *)

(** What the parser can see of a token: its kind and, for a name or a
    file attribute, its text.  Positions play no part in what is built. *)
Definition Word : Type := (TokenType * string)%type.

Definition kw (k : TokenType) : Word := (k, EmptyString).
Definition name_word (s : string) : Word := (NAME, s).

Definition word_of (t : Token) : Word :=
  (token_type t,
   match token_type t with
   | NAME | FILE_ATTRIBUTE => value t
   | _ => EmptyString
   end).

Definition blank (n : nat) : list Word := repeat (kw NEWLINE) n.

(** Items written one after the other with commas in between. *)
Definition comma_separated (items : list (list Word)) : list Word :=
  match items with
  | [] => []
  | first :: more => first ++ List.concat (map (cons (kw COMMA)) more)
  end.

Definition direction_keyword (t : ParameterType) : TokenType :=
  match t with TYPE_IN => IN | TYPE_OUT => OUT end.

Definition text_param_def (p : Parameter_) : list Word :=
  [name_word (param_name p); kw COLON;
   kw (direction_keyword (parameter_type p))].

Definition text_params_def (parameters : list Parameter_) : list Word :=
  comma_separated (map text_param_def parameters).

Definition text_params (arguments : list string) : list Word :=
  comma_separated (map (fun a => [name_word a]) arguments).

Definition text_mod_call (c : FunctionCall) : list Word :=
  [name_word (call_name c); kw LEFT_BRACE] ++ text_params (call_parameters c)
    ++ [kw RIGHT_BRACE; kw NEWLINE].

(** A call line and the blank lines after it. *)
Definition text_body (blank_lines : nat) (body : list FunctionCall)
    : list Word :=
  List.concat (map (fun c => text_mod_call c ++ blank blank_lines) body).

(** One definition as it stands in the text: with or without a leading
    [GLOBAL], a procedure ([DEF] ... [END]) when there is no return type
    and a function ([DEFFCT] type ... [ENDFCT]) when there is one, and the
    number of blank lines after the head line, after each call and after
    the closing keyword. *)
Record DefinitionText : Type := mkDefinitionText {
  dt_global : bool;
  dt_returns : option string;
  dt_name : string;
  dt_parameters : list Parameter_;
  dt_body : list FunctionCall;
  dt_blank_after_head : nat;
  dt_blank_after_call : nat;
  dt_newlines_after_end : nat
}.

Definition text_head (returns : option string) : list Word :=
  match returns with
  | None => [kw DEF]
  | Some type_name => [kw DEFFCT; name_word type_name]
  end.

Definition closing_keyword (returns : option string) : TokenType :=
  match returns with None => END | Some _ => ENDFCT end.

(** The definition from its name on. *)
Definition text_signature_and_body (d : DefinitionText) : list Word :=
  [name_word (dt_name d); kw LEFT_BRACE] ++ text_params_def (dt_parameters d)
    ++ [kw RIGHT_BRACE; kw NEWLINE] ++ blank (dt_blank_after_head d)
    ++ text_body (dt_blank_after_call d) (dt_body d)
    ++ [kw (closing_keyword (dt_returns d))]
    ++ blank (dt_newlines_after_end d).

Definition text_definition (d : DefinitionText) : list Word :=
  (if dt_global d then [kw GLOBAL] else []) ++ text_head (dt_returns d)
    ++ text_signature_and_body d.

(** The node the parser builds for a definition. *)
Definition node_of (d : DefinitionText) : FunctionDefinition :=
  FunctionDefinition_ (dt_name d) (dt_parameters d) (dt_body d)
    (option_map mkType (dt_returns d)).

(** A file attribute line and the blank lines after it. *)
Definition text_file_attribute (a : string * nat) : list Word :=
  [(FILE_ATTRIBUTE, fst a); kw NEWLINE] ++ blank (snd a).

Definition text_header (attributes : list (string * nat)) : list Word :=
  List.concat (map text_file_attribute attributes).

Definition text_source_file (attributes : list (string * nat))
    (definitions : list DefinitionText) : list Word :=
  text_header attributes ++ List.concat (map text_definition definitions)
    ++ [kw END_OF_FILE].

(** The tokens from the cursor on. *)
Definition ahead (p : Parser) : list Token :=
  skipn (_position p) (_tokens p).

(** The cursor is in step and the tokens from it on spell [words]. *)
Definition reads (p : Parser) (words : list Word) : Prop :=
  inv p /\ map word_of (ahead p) = words.

(** The next word is there and is not a line end. *)
Definition starts_with_other (ws : list Word) : Prop :=
  match ws with
  | (k, _) :: _ => k <> NEWLINE
  | [] => False
  end.

(** The same definition written without the modifier. *)
Definition without_global (d : DefinitionText) : DefinitionText :=
  mkDefinitionText false (dt_returns d) (dt_name d) (dt_parameters d)
    (dt_body d) (dt_blank_after_head d) (dt_blank_after_call d)
    (dt_newlines_after_end d).

Definition text_definitions (definitions : list DefinitionText) : list Word :=
  List.concat (map text_definition definitions).

(** The loop of [_source_file] over the definitions of a file, in any mix
    of procedures and functions, with the statements found so far. *)
Definition filter_pair {A} (a b : option A) : list A :=
  match a, b with
  | Some x, Some y => [x; y]
  | Some x, None => [x]
  | None, Some y => [y]
  | None, None => []
  end.

(* ================================================================== *)
(** ** No read of a missing token *)

(** How a file parse that never read a missing token ends: it returns
    with the cursor past the end-of-stream token, or it raises a
    [ParsingError] with the cursor on a token.  An [AttributeError] (a
    field of [None] was read) or an [IndexError] is neither. *)
Definition every_read_sees_a_token {A} (o : outcome A) : Prop :=
  match o with
  | Ret _ p' => past_the_end p'
  | Raise e p' => is_ParsingError e /\ _current_token p' <> None
  | Timeout => False
  end.

(* ================================================================== *)
(** ** Sample inputs *)

(** The parser object after [_initialize] on a fresh [Parser()]. *)
Definition start (tokens : list Token) : Parser :=
  mkParser [] [] tokens 0 (nth_error tokens 0).

Definition newline : string := String (ascii_of_nat 10) EmptyString.

(** [DEF foo()], a line end, [ END], a line end. *)
Definition minimal_text : string :=
  ("DEF foo()" ++ newline ++ " END" ++ newline)%string.

Definition minimal_words : list Word :=
  [kw DEF; name_word "foo"; kw LEFT_BRACE; kw RIGHT_BRACE; kw NEWLINE;
   kw END; kw NEWLINE; kw END_OF_FILE].

Definition minimal_tokens : list Token :=
  [mkToken DEF "DEF" 1 1; mkToken NAME "foo" 1 5; mkToken LEFT_BRACE "(" 1 8;
   mkToken RIGHT_BRACE ")" 1 9; mkToken NEWLINE newline 1 10;
   mkToken END "END" 2 2; mkToken NEWLINE newline 2 5;
   mkToken END_OF_FILE EmptyString 3 1].

(** [GLOBAL DEF foo()], a line end, [ END], a line end. *)
Definition global_procedure_tokens : list Token :=
  [mkToken GLOBAL "GLOBAL" 1 1; mkToken DEF "DEF" 1 8;
   mkToken NAME "foo" 1 12; mkToken LEFT_BRACE "(" 1 15;
   mkToken RIGHT_BRACE ")" 1 16; mkToken NEWLINE newline 1 17;
   mkToken END "END" 2 2; mkToken NEWLINE newline 2 5;
   mkToken END_OF_FILE EmptyString 3 1].

(** [GLOBAL DEFFCT INT foo()], a line end, [ ENDFCT], a line end. *)
Definition global_function_tokens : list Token :=
  [mkToken GLOBAL "GLOBAL" 1 1; mkToken DEFFCT "DEFFCT" 1 8;
   mkToken NAME "INT" 1 15; mkToken NAME "foo" 1 19;
   mkToken LEFT_BRACE "(" 1 22; mkToken RIGHT_BRACE ")" 1 23;
   mkToken NEWLINE newline 1 24; mkToken ENDFCT "ENDFCT" 2 2;
   mkToken NEWLINE newline 2 8; mkToken END_OF_FILE EmptyString 3 1].

(** [DEFDAT foo PUBLIC], a line end, [ENDDAT], a line end. *)
Definition public_data_tokens : list Token :=
  [mkToken DEFDAT "DEFDAT" 1 1; mkToken NAME "foo" 1 8;
   mkToken PUBLIC "PUBLIC" 1 12; mkToken NEWLINE newline 1 18;
   mkToken ENDDAT "ENDDAT" 2 1; mkToken NEWLINE newline 2 7;
   mkToken END_OF_FILE EmptyString 3 1].

(** [DEFDAT foo], a line end, [ENDDAT], a line end. *)
Definition private_data_tokens : list Token :=
  [mkToken DEFDAT "DEFDAT" 1 1; mkToken NAME "foo" 1 8;
   mkToken NEWLINE newline 1 11;
   mkToken ENDDAT "ENDDAT" 2 1; mkToken NEWLINE newline 2 7;
   mkToken END_OF_FILE EmptyString 3 1].

(** Two data definitions in one file. *)
Definition two_data_tokens : list Token :=
  [mkToken DEFDAT "DEFDAT" 1 1; mkToken NAME "foo" 1 8;
   mkToken NEWLINE newline 1 11;
   mkToken ENDDAT "ENDDAT" 2 1; mkToken NEWLINE newline 2 7;
   mkToken DEFDAT "DEFDAT" 3 1; mkToken NAME "bar" 3 8;
   mkToken NEWLINE newline 3 11;
   mkToken ENDDAT "ENDDAT" 4 1; mkToken NEWLINE newline 4 7;
   mkToken END_OF_FILE EmptyString 5 1].


(** A file attribute line, a procedure with a call, a global function
    with two parameters, a global procedure. *)
Definition three_definitions_tokens : list Token :=
  [mkToken FILE_ATTRIBUTE "&ACCESS RVP" 1 1; mkToken NEWLINE newline 1 12;
   mkToken DEF "DEF" 2 1; mkToken NAME "a" 2 5; mkToken LEFT_BRACE "(" 2 6;
   mkToken RIGHT_BRACE ")" 2 7; mkToken NEWLINE newline 2 8;
   mkToken NAME "b" 3 3; mkToken LEFT_BRACE "(" 3 4; mkToken NAME "x" 3 5;
   mkToken COMMA "," 3 6; mkToken NAME "y" 3 7; mkToken RIGHT_BRACE ")" 3 8;
   mkToken NEWLINE newline 3 9;
   mkToken END "END" 4 1; mkToken NEWLINE newline 4 4;
   mkToken NEWLINE newline 5 1;
   mkToken GLOBAL "GLOBAL" 6 1; mkToken DEFFCT "DEFFCT" 6 8;
   mkToken NAME "INT" 6 15; mkToken NAME "b" 6 19;
   mkToken LEFT_BRACE "(" 6 20; mkToken NAME "x" 6 21; mkToken COLON ":" 6 22;
   mkToken IN "IN" 6 23; mkToken COMMA "," 6 25; mkToken NAME "y" 6 26;
   mkToken COLON ":" 6 27; mkToken OUT "OUT" 6 28;
   mkToken RIGHT_BRACE ")" 6 31; mkToken NEWLINE newline 6 32;
   mkToken ENDFCT "ENDFCT" 7 1; mkToken NEWLINE newline 7 7;
   mkToken GLOBAL "GLOBAL" 8 1; mkToken DEF "DEF" 8 8; mkToken NAME "c" 8 12;
   mkToken LEFT_BRACE "(" 8 13; mkToken RIGHT_BRACE ")" 8 14;
   mkToken NEWLINE newline 8 15;
   mkToken END "END" 9 1; mkToken NEWLINE newline 9 4;
   mkToken END_OF_FILE EmptyString 10 1].

Definition three_definitions : list DefinitionText :=
  [mkDefinitionText false None "a" [] [mkFunctionCall "b" ["x"; "y"]] 0 0 2;
   mkDefinitionText true (Some "INT") "b"
     [mkParameter "x" TYPE_IN; mkParameter "y" TYPE_OUT] [] 0 0 1;
   mkDefinitionText true None "c" [] [] 0 0 1].

(* ================================================================== *)
(** ** Data file text *)

(** One data definition as it stands in the text: [DEFDAT], the name,
    [PUBLIC] or not, the line end, blank lines, [ENDDAT] and the line ends
    after it. *)
Record DataText : Type := mkDataText {
  xt_name : string;
  xt_public : bool;
  xt_blank_after_head : nat;
  xt_newlines_after_end : nat
}.

Definition text_data_definition (d : DataText) : list Word :=
  [kw DEFDAT; name_word (xt_name d)]
    ++ (if xt_public d then [kw PUBLIC] else [])
    ++ [kw NEWLINE] ++ blank (xt_blank_after_head d)
    ++ [kw ENDDAT] ++ blank (xt_newlines_after_end d).

(** The node the parser builds for a data definition. *)
Definition data_node_of (d : DataText) : DataDefinition :=
  DataDefinition_ (xt_name d).


Definition text_data_file (attributes : list (string * nat)) (d : DataText)
    : list Word :=
  text_header attributes ++ text_data_definition d ++ [kw END_OF_FILE].

(** The attribute nodes of a header. *)
Definition attribute_nodes (attributes : list (string * nat))
    : list FileAttribute :=
  map (fun a => mkFileAttribute (fst a)) attributes.

(* ================================================================== *)
(** ** Diagnostics *)

(** What a [ParsingError] message can be when the cursor is on [t]: the
    generic message, naming an expected kind and the kind of [t] itself,
    or one of the [dedicated] messages. *)
Definition diagnosis (dedicated : list string) (t : Token)
    (message : string) : Prop :=
  (exists kind, kind <> token_type t /\
                message = expected_found kind (token_type t)) \/
  In message dedicated.

(** [diagnosed dedicated m]: a [ParsingError] raised by [m] carries the
    line and column of the token the cursor is left on, and a message
    that fits that token. *)
Definition diagnosed {A} (dedicated : list string) (m : M A) : Prop :=
  forall p,
    match result m p with
    | Raise (ParsingError l c message) p' =>
        exists t, _current_token p' = Some t /\
                  l = line_number t /\ c = column t /\
                  diagnosis dedicated t message
    | _ => True
    end.

Definition source_file_messages : list string :=
  [expected_in_or_out; no_definition_found].

Definition data_file_messages : list string :=
  [no_data_definition_found; more_than_one_data_definition_found].

(* ================================================================== *)
(** ** The parser object between files *)

(** The same parser object with another accumulated list. *)
Definition with_ast (a : list Node) (p : Parser) : Parser :=
  mkParser a (_temp_ast p) (_tokens p) (_position p) (_current_token p).

Definition outcome_with_ast {A} (a : list Node) (o : outcome A * nat)
    : outcome A * nat :=
  match o with
  | (Ret x p, n) => (Ret x (with_ast a p), n)
  | (Raise e p, n) => (Raise e (with_ast a p), n)
  | (Timeout, n) => (Timeout, n)
  end.

(** [ast_blind m]: [m] neither reads nor writes the accumulated list. *)
Definition ast_blind {A} (m : M A) : Prop :=
  forall p a, m (with_ast a p) = outcome_with_ast a (m p).

(** What the caller sees of an outcome: the value returned or the
    exception raised. *)
Definition seen {A} (o : outcome A) : option (A + exn) :=
  match o with
  | Ret x _ => Some (inl x)
  | Raise e _ => Some (inr e)
  | Timeout => None
  end.

(* ================================================================== *)
(** ** One pass over the tokens *)

(** The state a method leaves, on return or on a raise. *)
Definition final_state {A} (o : outcome A) : option Parser :=
  match o with
  | Ret _ p' | Raise _ p' => Some p'
  | Timeout => None
  end.


(* ================================================================== *)
(** ** Blank lines *)

(** Every token of the array from index [from] up to, not including,
    index [to] is a line end. *)
Definition newlines_between (p : Parser) (from to : nat) : Prop :=
  forall i t, from <= i < to -> nth_error (_tokens p) i = Some t ->
              token_type t = NEWLINE.

(* ================================================================== *)
(** ** Definitions left open *)

(** A definition from its name up to the end of its body, without the
    closing keyword. *)
Definition text_up_to_closing (d : DefinitionText) : list Word :=
  [name_word (dt_name d); kw LEFT_BRACE] ++ text_params_def (dt_parameters d)
    ++ [kw RIGHT_BRACE; kw NEWLINE] ++ blank (dt_blank_after_head d)
    ++ text_body (dt_blank_after_call d) (dt_body d).

(* ================================================================== *)
(** ** More sample inputs *)

(** [DEF foo(a:)], a line end, [END]: a parameter without direction. *)
Definition missing_direction_tokens : list Token :=
  [mkToken DEF "DEF" 1 1; mkToken NAME "foo" 1 5;
   mkToken LEFT_BRACE "(" 1 8; mkToken NAME "a" 1 9;
   mkToken COLON ":" 1 10; mkToken RIGHT_BRACE ")" 1 11;
   mkToken NEWLINE newline 1 12; mkToken END "END" 2 1;
   mkToken END_OF_FILE EmptyString 2 4].

(** The cursor of [missing_direction_tokens] on the parameter. *)
Definition at_the_parameter : Parser :=
  mkParser [] [] missing_direction_tokens 3 (Some (mkToken NAME "a" 1 9)).

(** [DEF foo()], a line end, and the file ends. *)
Definition left_open_tokens : list Token :=
  [mkToken DEF "DEF" 1 1; mkToken NAME "foo" 1 5;
   mkToken LEFT_BRACE "(" 1 8; mkToken RIGHT_BRACE ")" 1 9;
   mkToken NEWLINE newline 1 10; mkToken END_OF_FILE EmptyString 2 1].

(** Two blank lines, then [END]. *)
Definition blank_lines_tokens : list Token :=
  [mkToken NEWLINE newline 1 1; mkToken NEWLINE newline 2 1;
   mkToken END "END" 3 1; mkToken END_OF_FILE EmptyString 3 4].

Definition public_data_text : DataText := mkDataText "foo" true 0 1.


(** A lexer that knows two texts and fails on every other. *)
Definition sample_lexer (text : string) : LexResult :=
  if String.eqb text "source" then Tokens three_definitions_tokens
  else if String.eqb text "data" then Tokens public_data_tokens
  else LexFailure (LexError 1 1 "unexpected character").

(* ################################################################## *)
(** * Part II: lemmas and theorems *)

Set Implicit Arguments.

(* ================================================================== *)
(** ** Laws of the monad and of the primitives *)

Lemma result_bind {A B} (m : M A) (f : A -> M B) (p : Parser) :
  result (bind m f) p =
  match result m p with
  | Ret a p' => result (f a) p'
  | Raise e p' => Raise e p'
  | Timeout => Timeout
  end.
Proof.
  unfold result, bind.
  destruct (m p) as [[a p'|e p'|] n]; simpl; auto.
  destruct (f a p'); auto.
Qed.

Lemma result_ret {A} (a : A) (p : Parser) : result (ret a) p = Ret a p.
Proof. reflexivity. Qed.

Lemma eqb_refl_TokenType (k : TokenType) : TokenType_eqb k k = true.
Proof. unfold TokenType_eqb. destruct (TokenType_eq_dec k k); congruence. Qed.

Lemma eqb_eq_TokenType (a b : TokenType) : TokenType_eqb a b = true <-> a = b.
Proof.
  unfold TokenType_eqb. destruct (TokenType_eq_dec a b); split; congruence.
Qed.

Lemma eqb_neq_TokenType (a b : TokenType) :
  TokenType_eqb a b = false <-> a <> b.
Proof.
  unfold TokenType_eqb. destruct (TokenType_eq_dec a b); split; congruence.
Qed.

(** The three ways [_eat] can go. *)
Lemma _eat_None (kind : TokenType) (p : Parser) :
  _current_token p = None -> _eat kind p = (Raise AttributeError p, 1).
Proof.
  intros H. unfold _eat, bind, tick, get, deref. simpl. rewrite H.
  reflexivity.
Qed.

Lemma _eat_match (kind : TokenType) (p : Parser) (t : Token) :
  _current_token p = Some t -> token_type t = kind ->
  _eat kind p = (Ret t (advance p), 1).
Proof.
  intros H K. unfold _eat, bind, tick, get, deref. simpl. rewrite H. simpl.
  rewrite K, eqb_refl_TokenType. reflexivity.
Qed.

Lemma _eat_mismatch (kind : TokenType) (p : Parser) (t : Token) :
  _current_token p = Some t -> token_type t <> kind ->
  _eat kind p =
  (Raise (ParsingError (line_number t) (column t)
            (expected_found kind (token_type t))) p, 1).
Proof.
  intros H K. unfold _eat, bind, tick, get, deref. simpl. rewrite H. simpl.
  apply eqb_neq_TokenType in K. rewrite K.
  unfold _error, bind, get, deref, raise. simpl. rewrite H. reflexivity.
Qed.

Lemma _try_eat_None (kind : TokenType) (p : Parser) :
  _current_token p = None -> _try_eat kind p = (Raise AttributeError p, 1).
Proof.
  intros H. unfold _try_eat, try_except_ParsingError, bind.
  rewrite (_eat_None kind p H). reflexivity.
Qed.

Lemma _try_eat_match (kind : TokenType) (p : Parser) (t : Token) :
  _current_token p = Some t -> token_type t = kind ->
  _try_eat kind p = (Ret true (advance p), 1).
Proof.
  intros H K. unfold _try_eat, try_except_ParsingError, bind.
  rewrite (_eat_match p H K). reflexivity.
Qed.

Lemma _try_eat_mismatch (kind : TokenType) (p : Parser) (t : Token) :
  _current_token p = Some t -> token_type t <> kind ->
  _try_eat kind p = (Ret false p, 1).
Proof.
  intros H K. unfold _try_eat, try_except_ParsingError, bind.
  rewrite (_eat_mismatch p H K). reflexivity.
Qed.

Lemma _is_current_token_None (kind : TokenType) (p : Parser) :
  _current_token p = None ->
  _is_current_token kind p = (Raise AttributeError p, 1).
Proof.
  intros H. unfold _is_current_token, bind, tick, get, deref. simpl.
  rewrite H. reflexivity.
Qed.

Lemma _is_current_token_Some (kind : TokenType) (p : Parser) (t : Token) :
  _current_token p = Some t ->
  _is_current_token kind p = (Ret (TokenType_eqb (token_type t) kind) p, 1).
Proof.
  intros H. unfold _is_current_token, bind, tick, get, deref. simpl.
  rewrite H. reflexivity.
Qed.

Lemma _error_Some {A} (message : string) (p : Parser) (t : Token) :
  _current_token p = Some t ->
  @_error A message p =
  (Raise (ParsingError (line_number t) (column t) message) p, 0).
Proof.
  intros H. unfold _error, bind, get, deref, raise. simpl. rewrite H.
  reflexivity.
Qed.

Lemma _error_None {A} (message : string) (p : Parser) :
  _current_token p = None -> @_error A message p = (Raise AttributeError p, 0).
Proof.
  intros H. unfold _error, bind, get, deref, raise. simpl. rewrite H.
  reflexivity.
Qed.

Lemma advance_current (p : Parser) :
  _current_token (advance p) = nth_error (_tokens p) (S (_position p)).
Proof.
  unfold advance. cbn [_current_token _tokens _position].
  replace (_position p + 1) with (S (_position p)) by lia.
  destruct (Z.gtb_spec (Z.of_nat (S (_position p)))
              (Z.of_nat (List.length (_tokens p)) - 1)) as [H|H];
    [|reflexivity].
  symmetry. apply nth_error_None. lia.
Qed.

Lemma advance_position (p : Parser) : _position (advance p) = S (_position p).
Proof. unfold advance. simpl. lia. Qed.

Lemma advance_tokens (p : Parser) : _tokens (advance p) = _tokens p.
Proof. reflexivity. Qed.

Lemma advance_ast (p : Parser) : _ast (advance p) = _ast p.
Proof. reflexivity. Qed.

Lemma advance_temp_ast (p : Parser) : _temp_ast (advance p) = _temp_ast p.
Proof. reflexivity. Qed.

(* ================================================================== *)
(** ** Cursor invariant, framing and step bounds *)

Lemma frame_refl (p : Parser) : frame p p.
Proof. unfold frame. auto. Qed.

Lemma frame_trans (p q r : Parser) : frame p q -> frame q r -> frame p r.
Proof.
  unfold frame. intros (A1 & A2 & A3 & A4) (B1 & B2 & B3 & B4).
  repeat split; try congruence. lia.
Qed.

Lemma inv_Some_lt (p : Parser) (t : Token) :
  inv p -> _current_token p = Some t -> _position p < List.length (_tokens p).
Proof.
  intros [H _] Ht. rewrite H in Ht.
  apply nth_error_Some. congruence.
Qed.

Lemma inv_advance (p : Parser) (t : Token) :
  inv p -> _current_token p = Some t -> inv (advance p).
Proof.
  intros Hp Ht. pose proof (inv_Some_lt Hp Ht) as Hlt.
  split.
  - rewrite advance_current, advance_position, advance_tokens. reflexivity.
  - rewrite advance_position, advance_tokens. lia.
Qed.

Lemma frame_advance (p : Parser) : frame p (advance p).
Proof.
  unfold frame. rewrite advance_position. simpl. repeat split; auto.
Qed.

Lemma consumed_advance (p : Parser) : consumed p (advance p) = 1.
Proof. unfold consumed. rewrite advance_position. lia. Qed.

Lemma consumed_same (p : Parser) : consumed p p = 0.
Proof. unfold consumed. lia. Qed.

Lemma consumed_trans (p q r : Parser) :
  frame p q -> frame q r -> consumed p r = consumed p q + consumed q r.
Proof. unfold frame, consumed. intros (_ & _ & _ & A) (_ & _ & _ & B). lia. Qed.

(** Splits the three parts of a [bounded] conclusion. *)
Ltac split3 := split; [|split].

Lemma bounded_weaken {A} (a b a' b' : nat) (m : M A) :
  bounded a b m -> a <= a' -> b <= b' -> bounded a' b' m.
Proof.
  intros H Ha Hb p Hp. specialize (H p Hp).
  destruct (m p) as [[x p'|e p'|] n]; auto;
    destruct H as (I & F & C); split3; auto;
    (eapply Nat.le_trans; [exact C|]);
    (apply Nat.add_le_mono; [apply Nat.mul_le_mono_r|]); assumption.
Qed.

Lemma bounded_ret {A} (x : A) : bounded 0 0 (ret x).
Proof.
  intros p Hp. simpl. split3; auto using frame_refl.
Qed.

Lemma bounded_raise {A} (e : exn) : bounded 0 0 (@raise A e).
Proof.
  intros p Hp. simpl. split3; auto using frame_refl.
Qed.

Lemma bounded_error {A} (message : string) : bounded 0 0 (@_error A message).
Proof.
  intros p Hp. destruct (_current_token p) as [t|] eqn:E.
  - rewrite (_error_Some _ _ E). split3; auto using frame_refl; try lia.
  - rewrite (_error_None _ _ E). split3; auto using frame_refl; try lia.
Qed.

Lemma bounded_eat (kind : TokenType) : bounded 0 1 (_eat kind).
Proof.
  intros p Hp. destruct (_current_token p) as [t|] eqn:E.
  - destruct (TokenType_eq_dec (token_type t) kind) as [K|K].
    + rewrite (_eat_match _ E K).
      split3; eauto using inv_advance, frame_advance; try lia.
    + rewrite (_eat_mismatch _ E K).
      split3; auto using frame_refl; try lia.
  - rewrite (_eat_None _ _ E). split3; auto using frame_refl; try lia.
Qed.

Lemma bounded_try_eat (kind : TokenType) : bounded 0 1 (_try_eat kind).
Proof.
  intros p Hp. destruct (_current_token p) as [t|] eqn:E.
  - destruct (TokenType_eq_dec (token_type t) kind) as [K|K].
    + rewrite (_try_eat_match _ E K).
      split3; eauto using inv_advance, frame_advance; try lia.
    + rewrite (_try_eat_mismatch _ E K).
      split3; auto using frame_refl; try lia.
  - rewrite (_try_eat_None _ _ E). split3; auto using frame_refl; try lia.
Qed.

Lemma bounded_is_current_token (kind : TokenType) :
  bounded 0 1 (_is_current_token kind).
Proof.
  intros p Hp. destruct (_current_token p) as [t|] eqn:E.
  - rewrite (_is_current_token_Some _ _ E).
    split3; auto using frame_refl; try lia.
  - rewrite (_is_current_token_None _ _ E).
    split3; auto using frame_refl; try lia.
Qed.

Lemma bounded_bind {A B} (a1 b1 a2 b2 : nat) (m : M A) (f : A -> M B) :
  bounded a1 b1 m -> (forall x, bounded a2 b2 (f x)) ->
  bounded (Nat.max a1 a2) (b1 + b2) (bind m f).
Proof.
  intros Hm Hf p Hp. unfold bind. specialize (Hm p Hp).
  destruct (m p) as [[x p'|e p'|] n]; auto.
  - destruct Hm as (I & F & C). specialize (Hf x p' I).
    destruct (f x p') as [[y p''|e p''|] k]; auto;
      destruct Hf as (I' & F' & C');
      (split3; eauto using frame_trans);
      rewrite (consumed_trans F F'); nia.
  - destruct Hm as (I & F & C). split3; auto; try nia.
Qed.

Lemma bounded_if {A} (a1 b1 a2 b2 : nat) (c : bool) (m1 m2 : M A) :
  bounded a1 b1 m1 -> bounded a2 b2 m2 ->
  bounded (Nat.max a1 a2) (Nat.max b1 b2) (if c then m1 else m2).
Proof.
  intros H1 H2. destruct c; eapply bounded_weaken; eauto; lia.
Qed.

Lemma bounded_match_option {A B} (a1 b1 a2 b2 : nat) (o : option B)
    (m1 : B -> M A) (m2 : M A) :
  (forall x, bounded a1 b1 (m1 x)) -> bounded a2 b2 m2 ->
  bounded (Nat.max a1 a2) (Nat.max b1 b2)
    (match o with Some x => m1 x | None => m2 end).
Proof.
  intros H1 H2. destruct o; eapply bounded_weaken; eauto; lia.
Qed.

Lemma bounded_match_list {A B} (a1 b1 a2 b2 : nat) (l : list B)
    (m1 : M A) (m2 : B -> list B -> M A) :
  bounded a1 b1 m1 -> (forall x xs, bounded a2 b2 (m2 x xs)) ->
  bounded (Nat.max a1 a2) (Nat.max b1 b2)
    (match l with [] => m1 | x :: xs => m2 x xs end).
Proof.
  intros H1 H2. destruct l; eapply bounded_weaken; eauto; lia.
Qed.

Lemma progresses_eat (kind : TokenType) : progresses (_eat kind).
Proof.
  intros p Hp. destruct (_current_token p) as [t|] eqn:E.
  - destruct (TokenType_eq_dec (token_type t) kind) as [K|K].
    + rewrite (_eat_match _ E K). rewrite advance_position. lia.
    + rewrite (_eat_mismatch _ E K). exact I.
  - rewrite (_eat_None _ _ E). exact I.
Qed.

Lemma progresses_bind_l {A B} (a b a' b' : nat) (m : M A) (f : A -> M B) :
  progresses m -> bounded a b m -> (forall x, bounded a' b' (f x)) ->
  progresses (bind m f).
Proof.
  intros Hm Bm Bf p Hp. unfold bind.
  specialize (Hm p Hp). specialize (Bm p Hp).
  destruct (m p) as [[x p'|e p'|] n]; auto.
  destruct Bm as (I' & F & C). specialize (Bf x p' I').
  destruct (f x p') as [[y p''|e p''|] k]; auto.
  destruct Bf as (_ & (_ & _ & _ & L) & _). lia.
Qed.

Lemma progresses_bind_r {A B} (a b : nat) (m : M A) (f : A -> M B) :
  bounded a b m -> (forall x, progresses (f x)) ->
  progresses (bind m f).
Proof.
  intros Bm Hf p Hp. unfold bind. specialize (Bm p Hp).
  destruct (m p) as [[x p'|e p'|] n]; auto.
  destruct Bm as (I' & (_ & _ & _ & L) & C). specialize (Hf x p' I').
  destruct (f x p') as [[y p''|e p''|] k]; auto. lia.
Qed.

Lemma turn_progresses_body {A} (a b : nat) (cond : M bool) (body : A -> M A) :
  bounded a b cond -> (forall acc, progresses (body acc)) ->
  turn_progresses cond body.
Proof.
  intros Bc Hb p acc Hp. specialize (Bc p Hp).
  destruct (cond p) as [[[|] p1|e p1|] n]; auto.
  destruct Bc as (I1 & (_ & _ & _ & L) & _). specialize (Hb acc p1 I1).
  destruct (body acc p1) as [[y p2|e p2|] k]; auto. lia.
Qed.

Lemma turn_progresses_try_eat {A} (a b : nat) (kind : TokenType)
    (body : A -> M A) :
  (forall acc, bounded a b (body acc)) ->
  turn_progresses (_try_eat kind) body.
Proof.
  intros Bb p acc Hp. destruct (_current_token p) as [t|] eqn:E.
  - destruct (TokenType_eq_dec (token_type t) kind) as [K|K].
    + rewrite (_try_eat_match _ E K).
      specialize (Bb acc (advance p) (inv_advance Hp E)).
      destruct (body acc (advance p)) as [[y p2|e p2|] k]; auto.
      destruct Bb as (_ & (_ & _ & _ & L) & _).
      rewrite advance_position in L. lia.
    + rewrite (_try_eat_mismatch _ E K). exact I.
  - rewrite (_try_eat_None _ _ E). exact I.
Qed.

(** The loop rule: with every completed turn consuming a token, a loop
    given more fuel than there are tokens left ends within it. *)
Lemma bounded_while_fuel {A} (a b b' : nat) (cond : M bool)
    (body : A -> M A) :
  bounded a b cond -> (forall acc, bounded a b' (body acc)) ->
  turn_progresses cond body ->
  forall fuel acc p, inv p ->
    List.length (_tokens p) - _position p < fuel ->
    match while_fuel fuel cond body acc p with
    | (Ret _ p', n) | (Raise _ p', n) =>
        inv p' /\ frame p p' /\ n <= (a + b + b') * consumed p p' + (b + b')
    | (Timeout, _) => False
    end.
Proof.
  intros Bc Bb Hprog. induction fuel as [|fuel IH]; intros acc p Hp Hfuel.
  - lia.
  - simpl. unfold bind.
    pose proof (Bc p Hp) as Hc. pose proof (Hprog p acc Hp) as Ht.
    destruct (cond p) as [[[|] p1|e p1|] n]; auto.
    + destruct Hc as (I1 & F1 & C1).
      pose proof (Bb acc p1 I1) as Hb.
      destruct (body acc p1) as [[acc' p2|e p2|] k]; auto.
      * destruct Hb as (I2 & F2 & C2).
        assert (F12 : frame p p2) by eauto using frame_trans.
        assert (Hlen : _position p2 <= List.length (_tokens p)).
        { destruct I2 as [_ L]. destruct F12 as (_ & _ & T & _).
          rewrite T in L. exact L. }
        assert (Hfuel' : List.length (_tokens p2) - _position p2 < fuel).
        { destruct F12 as (_ & _ & T & _). rewrite T. lia. }
        specialize (IH acc' p2 I2 Hfuel').
        pose proof (consumed_trans F1 F2) as E12.
        assert (P12 : 1 <= consumed p p2) by (unfold consumed; lia).
        destruct (while_fuel fuel cond body acc' p2) as [[r p3|e p3|] j];
          auto; destruct IH as (I3 & F3 & C3);
          (split3; eauto using frame_trans);
          rewrite (consumed_trans F12 F3); nia.
      * destruct Hb as (I2 & F2 & C2).
        split3; eauto using frame_trans;
        try (rewrite (consumed_trans F1 F2); nia).
    + destruct Hc as (I1 & F1 & C1). simpl.
      split3; auto; try nia.
    + destruct Hc as (I1 & F1 & C1). split3; auto; try nia.
Qed.

Lemma bounded_while_do {A} (a b b' : nat) (cond : M bool) (body : A -> M A)
    (acc : A) :
  bounded a b cond -> (forall acc, bounded a b' (body acc)) ->
  turn_progresses cond body ->
  bounded (a + b + b') (b + b') (while_do cond body acc).
Proof.
  intros Bc Bb Hprog p Hp. unfold while_do.
  apply (bounded_while_fuel Bc Bb Hprog); auto; unfold fuel_of; lia.
Qed.

Lemma bounded_while_do_max {A} (a1 a2 b b' : nat) (cond : M bool)
    (body : A -> M A) (acc : A) :
  bounded a1 b cond -> (forall acc, bounded a2 b' (body acc)) ->
  turn_progresses cond body ->
  bounded (Nat.max a1 a2 + b + b') (b + b') (while_do cond body acc).
Proof.
  intros Bc Bb Hprog. apply bounded_while_do; auto.
  - eapply bounded_weaken; eauto; lia.
  - intro. eapply bounded_weaken; eauto; lia.
Qed.

Create HintDb bounded.
Create HintDb progresses.

#[local] Hint Resolve bounded_ret bounded_raise bounded_error bounded_eat
  bounded_try_eat bounded_is_current_token : bounded.
#[local] Hint Resolve progresses_eat : progresses.

(** Builds a [bounded] judgement along the structure of a method. *)
Ltac bnd :=
  idtac;
  lazymatch goal with
  | |- bounded _ _ (bind _ _) => eapply bounded_bind; [bnd | intro; bnd]
  | |- bounded _ _ (match _ with true => _ | false => _ end) =>
      eapply bounded_if; [bnd | bnd]
  | |- bounded _ _ (match _ with Some _ => _ | None => _ end) =>
      eapply bounded_match_option; [intro; bnd | bnd]
  | |- bounded _ _ (match _ with [] => _ | _ :: _ => _ end) =>
      eapply bounded_match_list; [bnd | intros; bnd]
  | |- _ => solve [eauto with bounded]
  end.

(** Finds the [_eat] that makes a body consume a token. *)
Ltac prog :=
  first
    [ solve [eauto with progresses]
    | eapply progresses_bind_l;
        [solve [eauto with progresses] | bnd | intro; bnd]
    | eapply progresses_bind_r; [bnd | intro; prog] ].

(** Closes [bounded a b m] from the judgement built by [tac], for any
    constants at least as large as the ones it finds. *)
Ltac by_bound tac :=
  eapply bounded_weaken; [tac | vm_compute; lia | vm_compute; lia].

Lemma bounded_skip_newlines : bounded 1 1 _skip_newlines.
Proof.
  unfold _skip_newlines.
  by_bound ltac:(eapply bounded_while_do_max;
                 [bnd | intro; bnd
                 | eapply turn_progresses_try_eat; intro; bnd]).
Qed.
#[local] Hint Resolve bounded_skip_newlines : bounded.

Lemma bounded_header : bounded 5 4 _header.
Proof.
  unfold _header.
  by_bound ltac:(eapply bounded_while_do_max;
                 [bnd | intro; bnd
                 | eapply turn_progresses_body; [bnd | intro; prog]]).
Qed.
#[local] Hint Resolve bounded_header : bounded.

Lemma bounded_param_def : bounded 0 4 _param_def.
Proof. unfold _param_def. by_bound bnd. Qed.
#[local] Hint Resolve bounded_param_def : bounded.

Lemma bounded_params_def : bounded 5 10 _params_def.
Proof.
  unfold _params_def.
  by_bound ltac:(eapply bounded_bind; [bnd|]; intro;
                 eapply bounded_if; [bnd|];
                 eapply bounded_bind; [bnd|]; intro;
                 eapply bounded_while_do_max;
                 [bnd | intro; bnd
                 | eapply turn_progresses_try_eat; intro; bnd]).
Qed.
#[local] Hint Resolve bounded_params_def : bounded.

Lemma bounded_param : bounded 0 1 _param.
Proof. unfold _param. by_bound bnd. Qed.
#[local] Hint Resolve bounded_param : bounded.

Lemma bounded_params : bounded 2 4 _params.
Proof.
  unfold _params.
  by_bound ltac:(eapply bounded_bind; [bnd|]; intro;
                 eapply bounded_if; [bnd|];
                 eapply bounded_bind; [bnd|]; intro;
                 eapply bounded_while_do_max;
                 [bnd | intro; bnd
                 | eapply turn_progresses_try_eat; intro; bnd]).
Qed.
#[local] Hint Resolve bounded_params : bounded.

Lemma bounded_mod_call : bounded 2 8 _mod_call.
Proof. unfold _mod_call. by_bound bnd. Qed.
#[local] Hint Resolve bounded_mod_call : bounded.

Lemma progresses_mod_call : progresses _mod_call.
Proof. unfold _mod_call. prog. Qed.
#[local] Hint Resolve progresses_mod_call : progresses.

Lemma bounded_body : bounded 12 10 _body.
Proof.
  unfold _body.
  by_bound ltac:(eapply bounded_while_do_max;
                 [bnd | intro; bnd
                 | eapply turn_progresses_body; [bnd | intro; prog]]).
Qed.
#[local] Hint Resolve bounded_body : bounded.

Lemma bounded_mod_def : bounded 12 31 _mod_def.
Proof. unfold _mod_def. by_bound bnd. Qed.
#[local] Hint Resolve bounded_mod_def : bounded.

Lemma bounded_fnc_def : bounded 12 32 _fnc_def.
Proof. unfold _fnc_def. by_bound bnd. Qed.
#[local] Hint Resolve bounded_fnc_def : bounded.

Lemma bounded_dat_def : bounded 1 8 _dat_def.
Proof. unfold _dat_def. by_bound bnd. Qed.
#[local] Hint Resolve bounded_dat_def : bounded.

Lemma progresses_dat_def : progresses _dat_def.
Proof. unfold _dat_def. prog. Qed.
#[local] Hint Resolve progresses_dat_def : progresses.

Lemma bounded_any_current_token (kinds : list TokenType) :
  bounded 0 (List.length kinds) (any_current_token kinds).
Proof.
  induction kinds as [|k ks IH]; simpl.
  - apply bounded_ret.
  - by_bound ltac:(eapply bounded_bind; [bnd|]; intro;
                   eapply bounded_if; [bnd | exact IH]).
Qed.
#[local] Hint Resolve bounded_any_current_token : bounded.

(** The same facts read off the outcome alone. *)
Lemma result_eat_match (kind : TokenType) (p : Parser) (t : Token) :
  _current_token p = Some t -> token_type t = kind ->
  result (_eat kind) p = Ret t (advance p).
Proof. intros H K. unfold result. rewrite (_eat_match _ H K). reflexivity. Qed.

Lemma result_eat_mismatch (kind : TokenType) (p : Parser) (t : Token) :
  _current_token p = Some t -> token_type t <> kind ->
  result (_eat kind) p =
  Raise (ParsingError (line_number t) (column t)
           (expected_found kind (token_type t))) p.
Proof.
  intros H K. unfold result. rewrite (_eat_mismatch _ H K). reflexivity.
Qed.

Lemma result_eat_None (kind : TokenType) (p : Parser) :
  _current_token p = None -> result (_eat kind) p = Raise AttributeError p.
Proof. intros H. unfold result. rewrite (_eat_None _ _ H). reflexivity. Qed.

Lemma result_try_eat_match (kind : TokenType) (p : Parser) (t : Token) :
  _current_token p = Some t -> token_type t = kind ->
  result (_try_eat kind) p = Ret true (advance p).
Proof.
  intros H K. unfold result. rewrite (_try_eat_match _ H K). reflexivity.
Qed.

Lemma result_try_eat_mismatch (kind : TokenType) (p : Parser) (t : Token) :
  _current_token p = Some t -> token_type t <> kind ->
  result (_try_eat kind) p = Ret false p.
Proof.
  intros H K. unfold result. rewrite (_try_eat_mismatch _ H K). reflexivity.
Qed.

Lemma result_try_eat_None (kind : TokenType) (p : Parser) :
  _current_token p = None -> result (_try_eat kind) p = Raise AttributeError p.
Proof. intros H. unfold result. rewrite (_try_eat_None _ _ H). reflexivity. Qed.

Lemma result_is_current_token_Some (kind : TokenType) (p : Parser) (t : Token) :
  _current_token p = Some t ->
  result (_is_current_token kind) p
  = Ret (TokenType_eqb (token_type t) kind) p.
Proof.
  intros H. unfold result. rewrite (_is_current_token_Some _ _ H). reflexivity.
Qed.

Lemma result_is_current_token_None (kind : TokenType) (p : Parser) :
  _current_token p = None ->
  result (_is_current_token kind) p = Raise AttributeError p.
Proof.
  intros H. unfold result. rewrite (_is_current_token_None _ _ H). reflexivity.
Qed.

Lemma result_error_Some {A} (message : string) (p : Parser) (t : Token) :
  _current_token p = Some t ->
  result (@_error A message) p
  = Raise (ParsingError (line_number t) (column t) message) p.
Proof. intros H. unfold result. rewrite (_error_Some _ _ H). reflexivity. Qed.

Lemma result_while_do {A} (cond : M bool) (body : A -> M A) (acc : A)
    (p : Parser) :
  result (while_do cond body acc) p
  = result (while_fuel (fuel_of p) cond body acc) p.
Proof. reflexivity. Qed.

Lemma result_while_fuel_S {A} (fuel : nat) (cond : M bool) (body : A -> M A)
    (acc : A) (p : Parser) :
  result (while_fuel (S fuel) cond body acc) p
  = match result cond p with
    | Ret true p1 =>
        match result (body acc) p1 with
        | Ret acc' p2 => result (while_fuel fuel cond body acc') p2
        | Raise e p2 => Raise e p2
        | Timeout => Timeout
        end
    | Ret false p1 => Ret acc p1
    | Raise e p1 => Raise e p1
    | Timeout => Timeout
    end.
Proof.
  simpl. rewrite result_bind. destruct (result cond p) as [[|] p1|e p1|]; auto.
  rewrite result_bind. reflexivity.
Qed.

Lemma result_skip_newlines_stop (p : Parser) (t : Token) :
  _current_token p = Some t -> token_type t <> NEWLINE ->
  result _skip_newlines p = Ret tt p.
Proof.
  intros H K. unfold _skip_newlines. rewrite result_while_do.
  unfold fuel_of. rewrite result_while_fuel_S.
  rewrite (result_try_eat_mismatch _ H K). reflexivity.
Qed.

Lemma bounded_Ret {A} (a b : nat) (m : M A) (p p' : Parser) (x : A) :
  bounded a b m -> inv p -> result m p = Ret x p' -> inv p' /\ frame p p'.
Proof.
  intros B Hp H. specialize (B p Hp). unfold result in H.
  destruct (m p) as [[y q|e q|] n]; simpl in H; try discriminate.
  injection H as -> ->. tauto.
Qed.

Lemma bounded_Raise {A} (a b : nat) (m : M A) (p p' : Parser) (e : exn) :
  bounded a b m -> inv p -> result m p = Raise e p' -> inv p' /\ frame p p'.
Proof.
  intros B Hp H. specialize (B p Hp). unfold result in H.
  destruct (m p) as [[y q|e' q|] n]; simpl in H; try discriminate.
  injection H as -> ->. tauto.
Qed.

Lemma bounded_not_Timeout {A} (a b : nat) (m : M A) (p : Parser) :
  bounded a b m -> inv p -> result m p <> Timeout.
Proof.
  intros B Hp H. specialize (B p Hp). unfold result in H.
  destruct (m p) as [[y q|e' q|] n]; simpl in H; try discriminate. exact B.
Qed.

Lemma turn_progresses_intro {A} (cond : M bool) (body : A -> M A) :
  (forall p acc p1 acc' p2, inv p ->
     result cond p = Ret true p1 -> result (body acc) p1 = Ret acc' p2 ->
     _position p < _position p2) ->
  turn_progresses cond body.
Proof.
  intros H p acc Hp. specialize (H p acc). unfold result in H.
  destruct (cond p) as [[[|] p1|e p1|] n]; auto.
  specialize (H p1).
  destruct (body acc p1) as [[acc' p2|e p2|] k]; auto.
  apply (H acc' p2); auto.
Qed.

Lemma result_any_current_token_Some (kinds : list TokenType) (p : Parser)
    (t : Token) :
  _current_token p = Some t ->
  result (any_current_token kinds) p
  = Ret (existsb (TokenType_eqb (token_type t)) kinds) p.
Proof.
  intros H. induction kinds as [|k ks IH]; simpl.
  - reflexivity.
  - rewrite result_bind, (result_is_current_token_Some _ _ H).
    destruct (TokenType_eqb (token_type t) k); auto.
Qed.

Lemma result_any_current_token_None (k : TokenType) (ks : list TokenType)
    (p : Parser) :
  _current_token p = None ->
  result (any_current_token (k :: ks)) p = Raise AttributeError p.
Proof.
  intros H. simpl.
  rewrite result_bind, (result_is_current_token_None _ _ H). reflexivity.
Qed.

(** At a [GLOBAL] or [DEF] token, [_mod_def] consumes it before anything
    else can happen. *)
Lemma mod_def_progress (p p' : Parser) (t : Token)
    (d : option FunctionDefinition) :
  inv p -> _current_token p = Some t ->
  token_type t = GLOBAL \/ token_type t = DEF ->
  result _mod_def p = Ret d p' -> _position p < _position p'.
Proof.
  intros Hp Ht K H. unfold _mod_def in H.
  rewrite result_bind, (result_skip_newlines_stop _ Ht) in H
    by (destruct K as [K|K]; rewrite K; discriminate).
  rewrite result_bind in H. destruct K as [K|K].
  - rewrite (result_try_eat_match _ Ht K) in H.
    eapply bounded_Ret in H; [| bnd | eauto using inv_advance].
    destruct H as (_ & _ & _ & _ & L). rewrite advance_position in L. lia.
  - rewrite (result_try_eat_mismatch _ Ht) in H by (rewrite K; discriminate).
    rewrite result_bind, (result_is_current_token_Some _ _ Ht), K in H.
    simpl in H. rewrite result_bind, (result_eat_match _ Ht K) in H.
    eapply bounded_Ret in H; [| bnd | eauto using inv_advance].
    destruct H as (_ & _ & _ & _ & L). rewrite advance_position in L. lia.
Qed.

(** At a [DEFFCT] token, [_mod_def] reports no match and moves nothing. *)
Lemma mod_def_at_DEFFCT (p : Parser) (t : Token) :
  _current_token p = Some t -> token_type t = DEFFCT ->
  result _mod_def p = Ret None p.
Proof.
  intros Ht K. unfold _mod_def.
  rewrite result_bind, (result_skip_newlines_stop _ Ht)
    by (rewrite K; discriminate).
  rewrite result_bind, (result_try_eat_mismatch _ Ht)
    by (rewrite K; discriminate).
  rewrite result_bind, (result_is_current_token_Some _ _ Ht), K.
  reflexivity.
Qed.

Lemma fnc_def_progress (p p' : Parser) (t : Token)
    (d : option FunctionDefinition) :
  inv p -> _current_token p = Some t -> token_type t = DEFFCT ->
  result _fnc_def p = Ret d p' -> _position p < _position p'.
Proof.
  intros Hp Ht K H. unfold _fnc_def in H.
  rewrite result_bind, (result_skip_newlines_stop _ Ht) in H
    by (rewrite K; discriminate).
  rewrite result_bind, (result_try_eat_mismatch _ Ht) in H
    by (rewrite K; discriminate).
  rewrite result_bind, (result_is_current_token_Some _ _ Ht), K in H.
  simpl in H. rewrite result_bind, (result_eat_match _ Ht K) in H.
  eapply bounded_Ret in H; [| bnd | eauto using inv_advance].
  destruct H as (_ & _ & _ & _ & L). rewrite advance_position in L. lia.
Qed.

Lemma existsb_definition_start (k : TokenType) :
  existsb (TokenType_eqb k) [GLOBAL; DEF; DEFFCT] = true ->
  k = GLOBAL \/ k = DEF \/ k = DEFFCT.
Proof. destruct k; simpl; intros H; try discriminate; auto. Qed.

Lemma turn_progresses_source_file :
  turn_progresses (any_current_token [GLOBAL; DEF; DEFFCT])
    (fun statements =>
       d1 <- _mod_def ;;
       d2 <- _fnc_def ;;
       ret (statements ++ filter_None [d1; d2])).
Proof.
  apply turn_progresses_intro. intros p acc p1 acc' p2 Hp Hc Hb.
  destruct (_current_token p) as [t|] eqn:Ht.
  2:{ rewrite (result_any_current_token_None _ _ _ Ht) in Hc. discriminate. }
  rewrite (result_any_current_token_Some _ _ Ht) in Hc.
  injection Hc as Hk <-.
  rewrite result_bind in Hb.
  destruct (result _mod_def p) as [d1 q1| |] eqn:E1; try discriminate.
  rewrite result_bind in Hb.
  destruct (result _fnc_def q1) as [d2 q2| |] eqn:E2; try discriminate.
  rewrite result_ret in Hb. injection Hb as _ <-.
  destruct (existsb_definition_start _ Hk) as [K|[K|K]].
  - pose proof (mod_def_progress Hp Ht (or_introl K) E1) as L1.
    destruct (bounded_Ret bounded_mod_def Hp E1) as (I1 & _).
    destruct (bounded_Ret bounded_fnc_def I1 E2) as (_ & _ & _ & _ & L2). lia.
  - pose proof (mod_def_progress Hp Ht (or_intror K) E1) as L1.
    destruct (bounded_Ret bounded_mod_def Hp E1) as (I1 & _).
    destruct (bounded_Ret bounded_fnc_def I1 E2) as (_ & _ & _ & _ & L2). lia.
  - rewrite (mod_def_at_DEFFCT _ Ht K) in E1. injection E1 as _ <-.
    exact (fnc_def_progress Hp Ht K E2).
Qed.

Lemma bounded_source_file_statements : bounded 78 66 _source_file_statements.
Proof.
  unfold _source_file_statements.
  by_bound ltac:(eapply bounded_while_do_max;
                 [apply bounded_any_current_token | intro; bnd
                 | apply turn_progresses_source_file]).
Qed.
#[local] Hint Resolve bounded_source_file_statements : bounded.

Lemma bounded_source_file (name : string) : bounded 78 71 (_source_file name).
Proof. unfold _source_file. by_bound bnd. Qed.

Lemma bounded_data_file_statements : bounded 10 9 _data_file_statements.
Proof.
  unfold _data_file_statements.
  by_bound ltac:(eapply bounded_while_do_max;
                 [bnd | intro; bnd
                 | eapply turn_progresses_body; [bnd | intro; prog]]).
Qed.
#[local] Hint Resolve bounded_data_file_statements : bounded.

Lemma bounded_data_file (name : string) : bounded 10 14 (_data_file name).
Proof. unfold _data_file. by_bound bnd. Qed.

(* ================================================================== *)
(** ** Termination and cost of a file parse *)

Lemma inv_initialized (a ta : list Node) (t : Token) (ts : list Token) :
  inv (mkParser a ta (t :: ts) 0 (Some t)).
Proof. split; simpl; auto. lia. Qed.

Lemma bounded_from_initialize {A} (a b : nat) (m : M A) (tokens : list Token)
    (p0 : Parser) :
  bounded a b m ->
  ends (result (_initialize tokens ;; m) p0) /\
  steps (_initialize tokens ;; m) p0 <= a * List.length tokens + b.
Proof.
  intros B. unfold result, steps, bind, _initialize.
  destruct tokens as [|t ts]; simpl.
  - split; [exact I | lia].
  - specialize (B _ (inv_initialized (_ast p0) [] t ts)).
    destruct (m _) as [[x p'|e p'|] n]; simpl; try contradiction;
      destruct B as ((_ & L) & (_ & _ & T & _) & C);
      (split; [exact I|]);
      unfold consumed in C; rewrite T in L; simpl in C, L;
      (eapply Nat.le_trans; [exact C|]);
      (apply Nat.add_le_mono_r, Nat.mul_le_mono_l); lia.
Qed.

(** C9. Parsing always ends, in time linear in the number of tokens: for
    every token sequence (in particular every one that ends in the
    end-of-stream token), the source-file parse and the data-file parse,
    started by [_initialize], return a node or raise an error without
    reaching any loop bound, after at most [78 * n + 71], respectively
    [10 * n + 14], token comparisons, where [n] is the number of tokens. *)
Theorem parse_terminates_in_linear_time :
  forall (name : string) (tokens : list Token) (p0 : Parser),
    (ends (result (_initialize tokens ;; _source_file name) p0) /\
     steps (_initialize tokens ;; _source_file name) p0
       <= 78 * List.length tokens + 71) /\
    (ends (result (_initialize tokens ;; _data_file name) p0) /\
     steps (_initialize tokens ;; _data_file name) p0
       <= 10 * List.length tokens + 14).
Proof.
  intros name tokens p0. split.
  - apply bounded_from_initialize, bounded_source_file.
  - apply bounded_from_initialize, bounded_data_file.
Qed.

(* ================================================================== *)
(** ** The accumulated list *)

Lemma result_initialize_cons (t : Token) (ts : list Token) (p : Parser) :
  result (_initialize (t :: ts)) p
  = Ret tt (mkParser (_ast p) [] (t :: ts) 0 (Some t)).
Proof. reflexivity. Qed.

Lemma result_initialize_nil (p : Parser) :
  result (_initialize []) p
  = Raise IndexError (mkParser (_ast p) [] [] 0 (_current_token p)).
Proof. reflexivity. Qed.


Section FacadeProperties.

Variable generate_tokens : string -> LexResult.




End FacadeProperties.


(* ================================================================== *)
(** ** The speculative match *)

(** C6. [_try_eat] is exact and leaves no trace of a failed attempt: with
    a current token of another kind it reports no match and the parser
    object is unchanged (position, current token and all); with a current
    token of the asked kind it reports a match and the cursor has moved
    by exactly one token, to the next token of the array. *)
Theorem try_eat_exact :
  forall (kind : TokenType) (p : Parser) (t : Token),
    _current_token p = Some t ->
    (token_type t <> kind -> result (_try_eat kind) p = Ret false p) /\
    (token_type t = kind ->
       result (_try_eat kind) p = Ret true (advance p) /\
       _position (advance p) = _position p + 1 /\
       _current_token (advance p)
         = nth_error (_tokens p) (_position p + 1) /\
       _tokens (advance p) = _tokens p /\
       _ast (advance p) = _ast p).
Proof.
  intros kind p t Ht. split; intros K.
  - exact (result_try_eat_mismatch _ Ht K).
  - rewrite (result_try_eat_match _ Ht K), advance_current, advance_position.
    replace (_position p + 1) with (S (_position p)) by lia.
    repeat split; reflexivity.
Qed.

(* ================================================================== *)
(** ** The [GLOBAL] modifier at the top level *)

(** C4. When the current token is [GLOBAL] and the token after it is not
    [DEF], [_mod_def] reports no match and leaves the cursor on the token
    after the [GLOBAL] it consumed; [_fnc_def], tried next, therefore
    starts behind the modifier. *)
Theorem mod_def_consumes_global :
  forall (p : Parser) (t t' : Token),
    _current_token p = Some t -> token_type t = GLOBAL ->
    nth_error (_tokens p) (S (_position p)) = Some t' ->
    token_type t' <> DEF ->
    result _mod_def p = Ret None (advance p) /\
    _position (advance p) = S (_position p) /\
    _current_token (advance p) = Some t' /\
    result (_mod_def ;; _fnc_def) p = result _fnc_def (advance p).
Proof.
  intros p t t' Ht K Ht' K'.
  assert (Hc : _current_token (advance p) = Some t')
    by (rewrite advance_current; exact Ht').
  assert (Hm : result _mod_def p = Ret None (advance p)).
  { unfold _mod_def.
    rewrite result_bind, (result_skip_newlines_stop _ Ht)
      by (rewrite K; discriminate).
    rewrite result_bind, (result_try_eat_match _ Ht K).
    rewrite result_bind, (result_is_current_token_Some _ _ Hc).
    apply eqb_neq_TokenType in K'. rewrite K'. reflexivity. }
  repeat split; auto using advance_position.
  rewrite result_bind, Hm. reflexivity.
Qed.

(* ================================================================== *)
(** ** Reads of the current token *)

Lemma ends_in_only_eof_nth (tokens : list Token) (i : nat) (t : Token) :
  ends_in_only_eof tokens -> nth_error tokens i = Some t ->
  (token_type t = END_OF_FILE <-> S i = List.length tokens).
Proof.
  intros (body & eof & -> & He & Hb) Hi. rewrite length_app. simpl.
  destruct (Nat.lt_ge_cases i (List.length body)) as [L|L].
  - rewrite nth_error_app1 in Hi by exact L.
    apply nth_error_In in Hi. rewrite Forall_forall in Hb.
    specialize (Hb t Hi). split; [contradiction | lia].
  - rewrite nth_error_app2 in Hi by exact L.
    destruct (i - List.length body) as [|k] eqn:E.
    + simpl in Hi. injection Hi as <-. split; [lia | auto].
    + simpl in Hi. destruct k; discriminate.
Qed.

Lemma on_token_current (p : Parser) :
  on_token p -> exists t, _current_token p = Some t.
Proof.
  intros ((H & _) & _ & L). rewrite H.
  destruct (nth_error (_tokens p) (_position p)) eqn:E; eauto.
  apply nth_error_None in E. lia.
Qed.

Lemma on_token_advance (p : Parser) (t : Token) :
  on_token p -> _current_token p = Some t -> token_type t <> END_OF_FILE ->
  on_token (advance p).
Proof.
  intros (Hi & He & L) Ht K. split; [|split].
  - eauto using inv_advance.
  - exact He.
  - rewrite advance_position, advance_tokens.
    destruct Hi as [Hc _]. rewrite Hc in Ht.
    pose proof (ends_in_only_eof_nth _ He Ht) as [_ B].
    destruct (Nat.eq_dec (S (_position p)) (List.length (_tokens p))) as [E|E].
    + elim K. auto.
    + lia.
Qed.

Lemma safe_ret {A} (x : A) : safe (ret x).
Proof. intros p Hp. exact Hp. Qed.

Lemma safe_error {A} (message : string) : safe (@_error A message).
Proof.
  intros p Hp. destruct (on_token_current Hp) as [t Ht].
  rewrite (result_error_Some _ _ Ht). split; [exact I | exact Hp].
Qed.

Lemma safe_eat (kind : TokenType) : kind <> END_OF_FILE -> safe (_eat kind).
Proof.
  intros Hk p Hp. destruct (on_token_current Hp) as [t Ht].
  destruct (TokenType_eq_dec (token_type t) kind) as [K|K].
  - rewrite (result_eat_match _ Ht K).
    apply (on_token_advance Hp Ht). congruence.
  - rewrite (result_eat_mismatch _ Ht K). split; [exact I | exact Hp].
Qed.

Lemma safe_try_eat (kind : TokenType) :
  kind <> END_OF_FILE -> safe (_try_eat kind).
Proof.
  intros Hk p Hp. destruct (on_token_current Hp) as [t Ht].
  destruct (TokenType_eq_dec (token_type t) kind) as [K|K].
  - rewrite (result_try_eat_match _ Ht K).
    apply (on_token_advance Hp Ht). congruence.
  - rewrite (result_try_eat_mismatch _ Ht K). exact Hp.
Qed.

Lemma safe_is_current_token (kind : TokenType) :
  safe (_is_current_token kind).
Proof.
  intros p Hp. destruct (on_token_current Hp) as [t Ht].
  rewrite (result_is_current_token_Some _ _ Ht). exact Hp.
Qed.

Lemma safe_to_bind {A B} (Q : Parser -> Prop) (m : M A) (f : A -> M B) :
  safe m -> (forall x, safe_to Q (f x)) -> safe_to Q (bind m f).
Proof.
  intros Hm Hf p Hp. rewrite result_bind. specialize (Hm p Hp).
  destruct (result m p) as [x p'|e p'|]; auto.
  apply Hf. exact Hm.
Qed.

Lemma safe_if {A} (Q : Parser -> Prop) (c : bool) (m1 m2 : M A) :
  safe_to Q m1 -> safe_to Q m2 -> safe_to Q (if c then m1 else m2).
Proof. destruct c; auto. Qed.

Lemma safe_match_option {A B} (Q : Parser -> Prop) (o : option B)
    (m1 : B -> M A) (m2 : M A) :
  (forall x, safe_to Q (m1 x)) -> safe_to Q m2 ->
  safe_to Q (match o with Some x => m1 x | None => m2 end).
Proof. destruct o; auto. Qed.

Lemma safe_match_list {A B} (Q : Parser -> Prop) (l : list B)
    (m1 : M A) (m2 : B -> list B -> M A) :
  safe_to Q m1 -> (forall x xs, safe_to Q (m2 x xs)) ->
  safe_to Q (match l with [] => m1 | x :: xs => m2 x xs end).
Proof. destruct l; auto. Qed.

Lemma safe_while_fuel {A} (cond : M bool) (body : A -> M A) :
  safe cond -> (forall acc, safe (body acc)) ->
  forall fuel acc, safe (while_fuel fuel cond body acc).
Proof.
  intros Hc Hb. induction fuel as [|fuel IH]; intros acc p Hp.
  - exact I.
  - rewrite result_while_fuel_S. specialize (Hc p Hp).
    destruct (result cond p) as [[|] p1|e p1|]; auto.
    specialize (Hb acc p1 Hc).
    destruct (result (body acc) p1) as [acc' p2|e p2|]; auto.
    apply IH. exact Hb.
Qed.

Lemma safe_while_do {A} (cond : M bool) (body : A -> M A) (acc : A) :
  safe cond -> (forall acc, safe (body acc)) ->
  safe (while_do cond body acc).
Proof.
  intros Hc Hb p Hp. rewrite result_while_do.
  apply safe_while_fuel; assumption.
Qed.

Create HintDb safe.
#[local] Hint Resolve safe_ret safe_error safe_is_current_token : safe.

(** Builds a [safe] judgement along the structure of a method. *)
Ltac sf :=
  idtac;
  lazymatch goal with
  | |- safe ?m => change (safe_to on_token m); sf_to
  | |- _ => sf_to
  end
with sf_to :=
  idtac;
  lazymatch goal with
  | |- safe_to _ (bind _ _) => eapply safe_to_bind; [sf | intro; sf]
  | |- safe_to _ (match _ with true => _ | false => _ end) =>
      eapply safe_if; [sf | sf]
  | |- safe_to _ (match _ with Some _ => _ | None => _ end) =>
      eapply safe_match_option; [intro; sf | sf]
  | |- safe_to _ (match _ with [] => _ | _ :: _ => _ end) =>
      eapply safe_match_list; [sf | intros; sf]
  | |- safe_to _ (_eat _) => apply safe_eat; discriminate
  | |- safe_to _ (_try_eat _) => apply safe_try_eat; discriminate
  | |- safe_to _ (while_do _ _ _) =>
      apply safe_while_do; [sf | intro; sf]
  | |- safe_to on_token ?m => change (safe m); solve [eauto with safe]
  end.

Lemma safe_skip_newlines : safe _skip_newlines.
Proof. unfold _skip_newlines. sf. Qed.
#[local] Hint Resolve safe_skip_newlines : safe.

Lemma safe_header : safe _header.
Proof. unfold _header. sf. Qed.
#[local] Hint Resolve safe_header : safe.

Lemma safe_param_def : safe _param_def.
Proof. unfold _param_def. sf. Qed.
#[local] Hint Resolve safe_param_def : safe.

Lemma safe_params_def : safe _params_def.
Proof. unfold _params_def. sf. Qed.
#[local] Hint Resolve safe_params_def : safe.

Lemma safe_param : safe _param.
Proof. unfold _param. sf. Qed.
#[local] Hint Resolve safe_param : safe.

Lemma safe_params : safe _params.
Proof. unfold _params. sf. Qed.
#[local] Hint Resolve safe_params : safe.

Lemma safe_mod_call : safe _mod_call.
Proof. unfold _mod_call. sf. Qed.
#[local] Hint Resolve safe_mod_call : safe.

Lemma safe_body : safe _body.
Proof. unfold _body. sf. Qed.
#[local] Hint Resolve safe_body : safe.

Lemma safe_mod_def : safe _mod_def.
Proof. unfold _mod_def. sf. Qed.
#[local] Hint Resolve safe_mod_def : safe.

Lemma safe_fnc_def : safe _fnc_def.
Proof. unfold _fnc_def. sf. Qed.
#[local] Hint Resolve safe_fnc_def : safe.

Lemma safe_dat_def : safe _dat_def.
Proof. unfold _dat_def. sf. Qed.
#[local] Hint Resolve safe_dat_def : safe.

Lemma safe_any_current_token (kinds : list TokenType) :
  safe (any_current_token kinds).
Proof. induction kinds as [|k ks IH]; simpl; sf. Qed.
#[local] Hint Resolve safe_any_current_token : safe.

Lemma safe_source_file_statements : safe _source_file_statements.
Proof. unfold _source_file_statements. sf. Qed.
#[local] Hint Resolve safe_source_file_statements : safe.

Lemma safe_data_file_statements : safe _data_file_statements.
Proof. unfold _data_file_statements. sf. Qed.
#[local] Hint Resolve safe_data_file_statements : safe.

Lemma safe_eat_END_OF_FILE {A} (x : A) :
  safe_to past_the_end (_eat END_OF_FILE ;; ret x).
Proof.
  intros p Hp. destruct (on_token_current Hp) as [t Ht].
  rewrite result_bind.
  destruct (TokenType_eq_dec (token_type t) END_OF_FILE) as [K|K].
  - rewrite (result_eat_match _ Ht K), result_ret.
    destruct Hp as ((Hc & _) & He & L). rewrite Hc in Ht.
    apply (ends_in_only_eof_nth _ He Ht) in K.
    split.
    + rewrite advance_current. apply nth_error_None. lia.
    + rewrite advance_position. exact K.
  - rewrite (result_eat_mismatch _ Ht K). split; [exact I | exact Hp].
Qed.

Lemma safe_source_file (name : string) :
  safe_to past_the_end (_source_file name).
Proof.
  unfold _source_file.
  apply safe_to_bind; [sf|]. intro.
  apply safe_to_bind; [sf|]. intro.
  apply safe_to_bind; [sf|]. intro.
  apply safe_eat_END_OF_FILE.
Qed.

Lemma safe_data_file (name : string) :
  safe_to past_the_end (_data_file name).
Proof.
  unfold _data_file.
  apply safe_to_bind; [sf|]. intro.
  apply safe_to_bind; [sf|]. intro.
  apply safe_to_bind; [sf|]. intro.
  apply safe_to_bind; [sf|]. intro.
  apply safe_eat_END_OF_FILE.
Qed.

(* ================================================================== *)
(** ** Loops without the bound *)

(** Once every completed turn consumes a token, any two bounds above the
    number of tokens left give the same run. *)
Lemma while_fuel_enough {A} (a b b' : nat) (cond : M bool) (body : A -> M A) :
  bounded a b cond -> (forall acc, bounded a b' (body acc)) ->
  turn_progresses cond body ->
  forall fuel1 fuel2 acc p, inv p ->
    List.length (_tokens p) - _position p < fuel1 ->
    List.length (_tokens p) - _position p < fuel2 ->
    while_fuel fuel1 cond body acc p = while_fuel fuel2 cond body acc p.
Proof.
  intros Bc Bb Hprog.
  induction fuel1 as [|fuel1 IH]; intros fuel2 acc p Hp H1 H2.
  - lia.
  - destruct fuel2 as [|fuel2]; [lia|]. simpl. unfold bind.
    pose proof (Bc p Hp) as Hc. pose proof (Hprog p acc Hp) as Ht.
    destruct (cond p) as [[[|] p1|e p1|] n]; auto.
    destruct Hc as (I1 & F1 & _).
    pose proof (Bb acc p1 I1) as Hb.
    destruct (body acc p1) as [[acc' p2|e p2|] k]; auto.
    destruct Hb as (I2 & F2 & _).
    assert (F12 : frame p p2) by eauto using frame_trans.
    destruct F12 as (_ & _ & T & _). destruct I2 as [C2 L2].
    rewrite (IH fuel2 acc' p2); auto; try split; auto; rewrite T in *; lia.
Qed.

(** The equation of [while]. *)
Lemma while_do_unfold {A} (a b b' : nat) (cond : M bool) (body : A -> M A)
    (acc : A) (p : Parser) :
  bounded a b cond -> (forall acc, bounded a b' (body acc)) ->
  turn_progresses cond body -> inv p ->
  result (while_do cond body acc) p
  = match result cond p with
    | Ret true p1 =>
        match result (body acc) p1 with
        | Ret acc' p2 => result (while_do cond body acc') p2
        | Raise e p2 => Raise e p2
        | Timeout => Timeout
        end
    | Ret false p1 => Ret acc p1
    | Raise e p1 => Raise e p1
    | Timeout => Timeout
    end.
Proof.
  intros Bc Bb Hprog Hp. rewrite result_while_do. unfold fuel_of.
  rewrite result_while_fuel_S.
  destruct (result cond p) as [[|] p1|e p1|] eqn:Ec; auto.
  destruct (result (body acc) p1) as [acc' p2|e p2|] eqn:Eb; auto.
  rewrite result_while_do. unfold result. f_equal.
  destruct (bounded_Ret Bc Hp Ec) as (I1 & F1).
  destruct (bounded_Ret (Bb acc) I1 Eb) as (I2 & F2).
  pose proof (Hprog p acc Hp) as Ht. unfold result in Ec, Eb.
  destruct (cond p) as [oc nc]; simpl in Ec; subst oc.
  destruct (body acc p1) as [ob nb]; simpl in Eb; subst ob.
  assert (F12 : frame p p2) by eauto using frame_trans.
  destruct F12 as (_ & _ & T & _). destruct I2 as [C2 L2].
  apply (while_fuel_enough Bc Bb Hprog); try split; auto;
    unfold fuel_of; rewrite ?T in *; lia.
Qed.

(* ================================================================== *)
(** ** Source text as words *)

Unset Implicit Arguments.

Lemma skipn_S_tail {A} (n : nat) (l : list A) (x : A) (rest : list A) :
  skipn n l = x :: rest -> skipn (S n) l = rest.
Proof.
  revert l. induction n as [|n IH]; intros l H.
  - simpl in H. subst l. reflexivity.
  - destruct l as [|y l]; [discriminate|].
    rewrite skipn_cons in *. apply IH. exact H.
Qed.

Lemma word_of_kind (t : Token) (k : TokenType) (s : string) :
  word_of t = (k, s) -> token_type t = k.
Proof. unfold word_of. congruence. Qed.

Lemma word_of_name (t : Token) (s : string) :
  word_of t = (NAME, s) -> value t = s.
Proof.
  unfold word_of. intros H. injection H as K V. rewrite K in V. exact V.
Qed.

Lemma word_of_file_attribute (t : Token) (s : string) :
  word_of t = (FILE_ATTRIBUTE, s) -> value t = s.
Proof.
  unfold word_of. intros H. injection H as K V. rewrite K in V. exact V.
Qed.

Lemma reads_inv (p : Parser) (ws : list Word) : reads p ws -> inv p.
Proof. intros [H _]. exact H. Qed.

Lemma reads_cons (p : Parser) (w : Word) (ws : list Word) :
  reads p (w :: ws) ->
  exists t, _current_token p = Some t /\ word_of t = w /\
            reads (advance p) ws.
Proof.
  intros [Hi Hw]. unfold ahead in Hw.
  destruct (skipn (_position p) (_tokens p)) as [|t rest] eqn:E;
    [discriminate|].
  simpl in Hw. injection Hw as Hw1 Hw2.
  assert (Ht : _current_token p = Some t).
  { destruct Hi as [Hc _]. rewrite Hc, <- hd_error_skipn, E. reflexivity. }
  exists t. split; [exact Ht|]. split; [exact Hw1|].
  split; [eauto using inv_advance|].
  unfold ahead. rewrite advance_position, advance_tokens.
  rewrite (skipn_S_tail _ _ _ _ E). exact Hw2.
Qed.

Lemma reads_current (p : Parser) (k : TokenType) (s : string)
    (ws : list Word) :
  reads p ((k, s) :: ws) ->
  exists t, _current_token p = Some t /\ token_type t = k.
Proof.
  intros H. destruct (reads_cons _ _ _ H) as (t & Ht & Hw & _).
  eauto using word_of_kind.
Qed.

Lemma reads_eat (p : Parser) (k : TokenType) (s : string) (ws : list Word) :
  reads p ((k, s) :: ws) ->
  exists t, result (_eat k) p = Ret t (advance p) /\ word_of t = (k, s) /\
            reads (advance p) ws.
Proof.
  intros H. destruct (reads_cons _ _ _ H) as (t & Ht & Hw & H').
  exists t. split; [|auto].
  apply (result_eat_match _ Ht). eauto using word_of_kind.
Qed.

Lemma reads_try_eat_match (p : Parser) (k : TokenType) (s : string)
    (ws : list Word) :
  reads p ((k, s) :: ws) ->
  result (_try_eat k) p = Ret true (advance p) /\ reads (advance p) ws.
Proof.
  intros H. destruct (reads_cons _ _ _ H) as (t & Ht & Hw & H').
  split; [|exact H'].
  apply (result_try_eat_match _ Ht). eauto using word_of_kind.
Qed.

Lemma reads_try_eat_mismatch (p : Parser) (k k' : TokenType) (s : string)
    (ws : list Word) :
  reads p ((k', s) :: ws) -> k' <> k ->
  result (_try_eat k) p = Ret false p.
Proof.
  intros H K. destruct (reads_current _ _ _ _ H) as (t & Ht & Kt).
  apply (result_try_eat_mismatch _ Ht). congruence.
Qed.

Lemma reads_is_current_token (p : Parser) (k k' : TokenType) (s : string)
    (ws : list Word) :
  reads p ((k', s) :: ws) ->
  result (_is_current_token k) p = Ret (TokenType_eqb k' k) p.
Proof.
  intros H. destruct (reads_current _ _ _ _ H) as (t & Ht & Kt).
  rewrite (result_is_current_token_Some _ _ Ht), Kt. reflexivity.
Qed.

Lemma while_do_equation {A} (a1 b a2 b' : nat) (cond : M bool)
    (body : A -> M A) (acc : A) (p : Parser) :
  bounded a1 b cond -> (forall acc, bounded a2 b' (body acc)) ->
  turn_progresses cond body -> inv p ->
  result (while_do cond body acc) p
  = match result cond p with
    | Ret true p1 =>
        match result (body acc) p1 with
        | Ret acc' p2 => result (while_do cond body acc') p2
        | Raise e p2 => Raise e p2
        | Timeout => Timeout
        end
    | Ret false p1 => Ret acc p1
    | Raise e p1 => Raise e p1
    | Timeout => Timeout
    end.
Proof.
  intros Bc Bb Hprog Hp.
  apply while_do_unfold with (a := Nat.max a1 a2) (b := b) (b' := b'); auto.
  - eapply bounded_weaken; eauto; lia.
  - intro. eapply bounded_weaken; eauto; lia.
Qed.

(** Applies the equation of [while] to the loop in the goal. *)
Ltac loop_equation :=
  erewrite while_do_equation;
  [ | bnd | intro; bnd
    | first [ eapply turn_progresses_try_eat; intro; bnd
            | eapply turn_progresses_body; [bnd | intro; prog]
            | apply turn_progresses_source_file ]
    | eauto using reads_inv ].

Lemma reads_skip_newlines (n : nat) (p : Parser) (k : TokenType) (s : string)
    (ws : list Word) :
  reads p (blank n ++ (k, s) :: ws) -> k <> NEWLINE ->
  exists p', result _skip_newlines p = Ret tt p' /\ reads p' ((k, s) :: ws).
Proof.
  revert p. induction n as [|n IH]; intros p H K; unfold _skip_newlines;
    loop_equation; simpl in H.
  - rewrite (reads_try_eat_mismatch _ _ _ _ _ H K). eauto.
  - destruct (reads_try_eat_match _ _ _ _ H) as (-> & H').
    rewrite result_ret. apply IH; auto.
Qed.

Lemma reads_param_def (prm : Parameter_) (p : Parser) (ws : list Word) :
  reads p (text_param_def prm ++ ws) ->
  exists p', result _param_def p = Ret prm p' /\ reads p' ws.
Proof.
  destruct prm as [n d]. simpl. intros H. unfold _param_def.
  rewrite result_bind. destruct (reads_eat _ _ _ _ H) as (t & -> & Hw & H1).
  apply word_of_name in Hw. rewrite Hw.
  destruct (reads_eat _ _ _ _ H1) as (t1 & E1 & _ & H2).
  rewrite result_bind, E1.
  rewrite result_bind. destruct d; simpl in H2.
  - destruct (reads_try_eat_match _ _ _ _ H2) as (-> & H3).
    rewrite result_bind, result_ret, result_ret. eauto.
  - rewrite (reads_try_eat_mismatch _ IN _ _ _ H2) by discriminate.
    rewrite result_bind, result_bind.
    destruct (reads_try_eat_match _ _ _ _ H2) as (-> & H3).
    rewrite result_ret, result_ret. eauto.
Qed.

Lemma reads_params_def_loop (more : list Parameter_) :
  forall (acc : list Parameter_) (p : Parser) (k : TokenType) (s : string)
         (ws : list Word),
    reads p (List.concat (map (cons (kw COMMA)) (map text_param_def more))
               ++ (k, s) :: ws) ->
    k <> COMMA ->
    exists p',
      result (while_do (_try_eat COMMA)
                (fun parameters => x <- _param_def ;; ret (parameters ++ [x]))
                acc) p
      = Ret (acc ++ more) p' /\ reads p' ((k, s) :: ws).
Proof.
  induction more as [|prm more IH]; intros acc p k s ws H K; loop_equation;
    simpl in H.
  - rewrite (reads_try_eat_mismatch _ _ _ _ _ H K), app_nil_r. eauto.
  - destruct (reads_try_eat_match _ _ _ _ H) as (-> & H1).
    destruct (reads_param_def prm _ _ H1) as (p1 & E1 & H2).
    rewrite result_bind, E1, result_ret.
    destruct (IH (acc ++ [prm]) p1 k s ws H2 K) as (p2 & E2 & H3).
    rewrite E2, <- app_assoc. eauto.
Qed.

Lemma reads_params_def (parameters : list Parameter_) (p : Parser)
    (k : TokenType) (s : string) (ws : list Word) :
  reads p (text_params_def parameters ++ (k, s) :: ws) ->
  k <> COMMA -> k <> NAME ->
  exists p', result _params_def p = Ret parameters p' /\
             reads p' ((k, s) :: ws).
Proof.
  intros H K1 K2. unfold _params_def. rewrite result_bind.
  destruct parameters as [|first more]; simpl in H.
  - rewrite (reads_is_current_token _ NAME _ _ _ H).
    apply eqb_neq_TokenType in K2. rewrite K2. simpl.
    exists p. split; [reflexivity | exact H].
  - unfold text_params_def in H. simpl in H.
    rewrite (reads_is_current_token _ NAME _ _ _ H), eqb_refl_TokenType. simpl.
    destruct (reads_param_def first _ _ H) as (p1 & E1 & H1).
    rewrite result_bind, E1.
    apply (reads_params_def_loop more [first] _ _ _ _ H1 K1).
Qed.

Lemma reads_param (a : string) (p : Parser) (ws : list Word) :
  reads p (name_word a :: ws) ->
  exists p', result _param p = Ret a p' /\ reads p' ws.
Proof.
  intros H. unfold _param. rewrite result_bind.
  destruct (reads_eat _ _ _ _ H) as (t & -> & Hw & H1).
  apply word_of_name in Hw. rewrite result_ret, Hw. eauto.
Qed.

Lemma reads_params_loop (more : list string) :
  forall (acc : list string) (p : Parser) (k : TokenType) (s : string)
         (ws : list Word),
    reads p (List.concat (map (cons (kw COMMA))
                            (map (fun a => [name_word a]) more))
               ++ (k, s) :: ws) ->
    k <> COMMA ->
    exists p',
      result (while_do (_try_eat COMMA)
                (fun parameters => x <- _param ;; ret (parameters ++ [x]))
                acc) p
      = Ret (acc ++ more) p' /\ reads p' ((k, s) :: ws).
Proof.
  induction more as [|a more IH]; intros acc p k s ws H K; loop_equation;
    simpl in H.
  - rewrite (reads_try_eat_mismatch _ _ _ _ _ H K), app_nil_r. eauto.
  - destruct (reads_try_eat_match _ _ _ _ H) as (-> & H1).
    destruct (reads_param _ _ _ H1) as (p1 & E1 & H2).
    rewrite result_bind, E1, result_ret.
    destruct (IH (acc ++ [a]) p1 k s ws H2 K) as (p2 & E2 & H3).
    rewrite E2, <- app_assoc. eauto.
Qed.

Lemma reads_params (arguments : list string) (p : Parser)
    (k : TokenType) (s : string) (ws : list Word) :
  reads p (text_params arguments ++ (k, s) :: ws) ->
  k <> COMMA -> k <> NAME ->
  exists p', result _params p = Ret arguments p' /\ reads p' ((k, s) :: ws).
Proof.
  intros H K1 K2. unfold _params. rewrite result_bind.
  destruct arguments as [|first more]; simpl in H.
  - rewrite (reads_is_current_token _ NAME _ _ _ H).
    apply eqb_neq_TokenType in K2. rewrite K2. simpl.
    exists p. split; [reflexivity | exact H].
  - unfold text_params in H. simpl in H.
    rewrite (reads_is_current_token _ NAME _ _ _ H), eqb_refl_TokenType. simpl.
    destruct (reads_param _ _ _ H) as (p1 & E1 & H1).
    rewrite result_bind, E1.
    apply (reads_params_loop more [first] _ _ _ _ H1 K1).
Qed.

Lemma reads_mod_call (c : FunctionCall) (p : Parser) (ws : list Word) :
  reads p (text_mod_call c ++ ws) ->
  exists p', result _mod_call p = Ret c p' /\ reads p' ws.
Proof.
  destruct c as [f args]. unfold text_mod_call. simpl. intros H.
  unfold _mod_call. rewrite result_bind.
  destruct (reads_eat _ _ _ _ H) as (t & -> & Hw & H1).
  apply word_of_name in Hw. rewrite Hw.
  rewrite result_bind. destruct (reads_eat _ _ _ _ H1) as (t1 & -> & _ & H2).
  rewrite <- app_assoc in H2. simpl in H2.
  destruct (reads_params _ _ _ _ _ H2) as (p1 & E1 & H3); try discriminate.
  rewrite result_bind, E1.
  rewrite result_bind. destruct (reads_eat _ _ _ _ H3) as (t2 & -> & _ & H4).
  rewrite result_bind. destruct (reads_eat _ _ _ _ H4) as (t3 & -> & _ & H5).
  rewrite result_ret. eauto.
Qed.

(** The body loop, entered after any number of blank lines. *)
Lemma reads_body_loop (blank_lines : nat) (body : list FunctionCall) :
  forall (n : nat) (acc : list FunctionCall) (p : Parser) (k : TokenType)
         (s : string) (ws : list Word),
    reads p (blank n ++ text_body blank_lines body ++ (k, s) :: ws) ->
    k <> NEWLINE -> k <> NAME ->
    exists p',
      result (while_do (_skip_newlines ;; _is_current_token NAME)
                (fun body => call <- _mod_call ;; ret (body ++ [call]))
                acc) p
      = Ret (acc ++ body) p' /\ reads p' ((k, s) :: ws).
Proof.
  induction body as [|c body IH]; intros n acc p k s ws H K1 K2;
    loop_equation; rewrite result_bind.
  - simpl in H.
    destruct (reads_skip_newlines _ _ _ _ _ H K1) as (p1 & -> & H1).
    rewrite (reads_is_current_token _ NAME _ _ _ H1).
    apply eqb_neq_TokenType in K2. rewrite K2, app_nil_r. eauto.
  - unfold text_body in H. simpl in H.
    destruct c as [f args]. unfold text_mod_call in H. simpl in H.
    destruct (reads_skip_newlines _ _ _ _ _ H) as (p1 & -> & H1);
      [discriminate|].
    rewrite (reads_is_current_token _ NAME _ _ _ H1), eqb_refl_TokenType.
    destruct (reads_mod_call (mkFunctionCall f args) p1
                (blank blank_lines ++ text_body blank_lines body
                   ++ (k, s) :: ws)) as (p2 & E2 & H2).
    { unfold text_mod_call. simpl. repeat rewrite <- app_assoc in *.
      simpl in *. repeat rewrite <- app_assoc in *. exact H1. }
    rewrite result_bind, E2, result_ret.
    destruct (IH blank_lines (acc ++ [mkFunctionCall f args]) p2 k s ws
                H2 K1 K2) as (p3 & E3 & H3).
    rewrite E3, <- app_assoc. eauto.
Qed.

Lemma reads_body (blank_lines : nat) (body : list FunctionCall) (p : Parser)
    (k : TokenType) (s : string) (ws : list Word) :
  reads p (text_body blank_lines body ++ (k, s) :: ws) ->
  k <> NEWLINE -> k <> NAME ->
  exists p', result _body p = Ret body p' /\ reads p' ((k, s) :: ws).
Proof.
  intros H K1 K2.
  exact (reads_body_loop blank_lines body 0 [] p k s ws H K1 K2).
Qed.

Lemma reads_skip_blank (n : nat) (p : Parser) (ws : list Word) :
  reads p (blank n ++ ws) -> starts_with_other ws ->
  exists p', result _skip_newlines p = Ret tt p' /\ reads p' ws.
Proof.
  intros H K. destruct ws as [|[k s] ws]; [contradiction|].
  exact (reads_skip_newlines n p k s ws H K).
Qed.

Lemma reads_skip_none (p : Parser) (k : TokenType) (s : string)
    (ws : list Word) :
  reads p ((k, s) :: ws) -> k <> NEWLINE -> result _skip_newlines p = Ret tt p.
Proof.
  intros H K. destruct (reads_current _ _ _ _ H) as (t & Ht & Kt).
  apply (result_skip_newlines_stop _ Ht). congruence.
Qed.

Lemma starts_with_other_body (n : nat) (body : list FunctionCall)
    (k : TokenType) (s : string) (ws : list Word) :
  k <> NEWLINE -> starts_with_other (text_body n body ++ (k, s) :: ws).
Proof.
  intros K. destruct body as [|c body]; simpl; [exact K | discriminate].
Qed.

(** With [GLOBAL] before another word on the line, [_mod_def] goes on as
    it does from behind the [GLOBAL]: the modifier is consumed and
    forgotten. *)
Lemma mod_def_forgets_global (p : Parser) (k : TokenType) (s : string)
    (ws : list Word) :
  reads p (kw GLOBAL :: (k, s) :: ws) -> k <> NEWLINE -> k <> GLOBAL ->
  result _mod_def p = result _mod_def (advance p).
Proof.
  intros H K1 K2. unfold _mod_def.
  destruct (reads_try_eat_match _ _ _ _ H) as (E & H').
  rewrite (result_bind _skip_newlines _ p), (reads_skip_none _ _ _ _ H)
    by discriminate.
  rewrite (result_bind (_try_eat GLOBAL) _ p), E.
  rewrite (result_bind _skip_newlines _ (advance p)),
    (reads_skip_none _ _ _ _ H' K1).
  rewrite (result_bind (_try_eat GLOBAL) _ (advance p)),
    (reads_try_eat_mismatch _ GLOBAL _ _ _ H' K2).
  reflexivity.
Qed.

Lemma fnc_def_forgets_global (p : Parser) (k : TokenType) (s : string)
    (ws : list Word) :
  reads p (kw GLOBAL :: (k, s) :: ws) -> k <> NEWLINE -> k <> GLOBAL ->
  result _fnc_def p = result _fnc_def (advance p).
Proof.
  intros H K1 K2. unfold _fnc_def.
  destruct (reads_try_eat_match _ _ _ _ H) as (E & H').
  rewrite (result_bind _skip_newlines _ p), (reads_skip_none _ _ _ _ H)
    by discriminate.
  rewrite (result_bind (_try_eat GLOBAL) _ p), E.
  rewrite (result_bind _skip_newlines _ (advance p)),
    (reads_skip_none _ _ _ _ H' K1).
  rewrite (result_bind (_try_eat GLOBAL) _ (advance p)),
    (reads_try_eat_mismatch _ GLOBAL _ _ _ H' K2).
  reflexivity.
Qed.

(** At a word that starts neither a line, nor a modifier, nor their own
    kind of definition, both attempts report no match and move nothing. *)
Lemma mod_def_no_match (p : Parser) (k : TokenType) (s : string)
    (ws : list Word) :
  reads p ((k, s) :: ws) -> k <> NEWLINE -> k <> GLOBAL -> k <> DEF ->
  result _mod_def p = Ret None p.
Proof.
  intros H K1 K2 K3. unfold _mod_def.
  rewrite result_bind, (reads_skip_none _ _ _ _ H K1).
  rewrite result_bind, (reads_try_eat_mismatch _ GLOBAL _ _ _ H K2).
  rewrite result_bind, (reads_is_current_token _ DEF _ _ _ H).
  apply eqb_neq_TokenType in K3. rewrite K3. reflexivity.
Qed.

Lemma fnc_def_no_match (p : Parser) (k : TokenType) (s : string)
    (ws : list Word) :
  reads p ((k, s) :: ws) -> k <> NEWLINE -> k <> GLOBAL -> k <> DEFFCT ->
  result _fnc_def p = Ret None p.
Proof.
  intros H K1 K2 K3. unfold _fnc_def.
  rewrite result_bind, (reads_skip_none _ _ _ _ H K1).
  rewrite result_bind, (reads_try_eat_mismatch _ GLOBAL _ _ _ H K2).
  rewrite result_bind, (reads_is_current_token _ DEFFCT _ _ _ H).
  apply eqb_neq_TokenType in K3. rewrite K3. reflexivity.
Qed.

(** A procedure, from its [DEF] on. *)
Lemma reads_mod_def (d : DefinitionText) (p : Parser) (k : TokenType)
    (s : string) (ws : list Word) :
  dt_returns d = None ->
  reads p (kw DEF :: text_signature_and_body d ++ (k, s) :: ws) ->
  k <> NEWLINE ->
  exists p', result _mod_def p = Ret (Some (node_of d)) p' /\
             reads p' ((k, s) :: ws).
Proof.
  destruct d as [g r n ps body b1 b2 b3]. unfold node_of. simpl.
  intros -> H K. unfold text_signature_and_body in H. simpl in H.
  repeat (rewrite <- app_assoc in H; simpl in H).
  unfold _mod_def.
  rewrite result_bind, (reads_skip_none _ _ _ _ H) by discriminate.
  rewrite result_bind, (reads_try_eat_mismatch _ GLOBAL _ _ _ H)
    by discriminate.
  rewrite result_bind, (reads_is_current_token _ DEF _ _ _ H). simpl.
  rewrite result_bind. destruct (reads_eat _ _ _ _ H) as (t0 & -> & _ & H0).
  rewrite result_bind. destruct (reads_eat _ _ _ _ H0) as (t1 & -> & Hw & H1).
  apply word_of_name in Hw. rewrite Hw.
  rewrite result_bind. destruct (reads_eat _ _ _ _ H1) as (t2 & -> & _ & H2).
  destruct (reads_params_def _ _ _ _ _ H2) as (p3 & E3 & H3);
    try discriminate.
  rewrite result_bind, E3.
  rewrite result_bind. destruct (reads_eat _ _ _ _ H3) as (t4 & -> & _ & H4).
  rewrite result_bind. destruct (reads_eat _ _ _ _ H4) as (t5 & -> & _ & H5).
  destruct (reads_skip_blank _ _ _ H5) as (p6 & E6 & H6).
  { apply starts_with_other_body. discriminate. }
  rewrite result_bind, E6.
  destruct (reads_body _ _ _ _ _ _ H6) as (p7 & E7 & H7); try discriminate.
  rewrite result_bind, E7.
  rewrite result_bind. destruct (reads_eat _ _ _ _ H7) as (t8 & -> & _ & H8).
  destruct (reads_skip_newlines _ _ _ _ _ H8 K) as (p9 & E9 & H9).
  rewrite result_bind, E9, result_ret. eauto.
Qed.

(** A function, from its [DEFFCT] on. *)
Lemma reads_fnc_def (d : DefinitionText) (type_name : string) (p : Parser)
    (k : TokenType) (s : string) (ws : list Word) :
  dt_returns d = Some type_name ->
  reads p (kw DEFFCT :: name_word type_name
             :: text_signature_and_body d ++ (k, s) :: ws) ->
  k <> NEWLINE ->
  exists p', result _fnc_def p = Ret (Some (node_of d)) p' /\
             reads p' ((k, s) :: ws).
Proof.
  destruct d as [g r n ps body b1 b2 b3]. unfold node_of. simpl.
  intros -> H K. unfold text_signature_and_body in H. simpl in H.
  repeat (rewrite <- app_assoc in H; simpl in H).
  unfold _fnc_def.
  rewrite result_bind, (reads_skip_none _ _ _ _ H) by discriminate.
  rewrite result_bind, (reads_try_eat_mismatch _ GLOBAL _ _ _ H)
    by discriminate.
  rewrite result_bind, (reads_is_current_token _ DEFFCT _ _ _ H). simpl.
  rewrite result_bind. destruct (reads_eat _ _ _ _ H) as (t0 & -> & _ & H0).
  rewrite result_bind. destruct (reads_eat _ _ _ _ H0) as (tr & -> & Hr & Hr').
  apply word_of_name in Hr. rewrite Hr.
  rewrite result_bind. destruct (reads_eat _ _ _ _ Hr') as (t1 & -> & Hw & H1).
  apply word_of_name in Hw. rewrite Hw.
  rewrite result_bind. destruct (reads_eat _ _ _ _ H1) as (t2 & -> & _ & H2).
  destruct (reads_params_def _ _ _ _ _ H2) as (p3 & E3 & H3);
    try discriminate.
  rewrite result_bind, E3.
  rewrite result_bind. destruct (reads_eat _ _ _ _ H3) as (t4 & -> & _ & H4).
  rewrite result_bind. destruct (reads_eat _ _ _ _ H4) as (t5 & -> & _ & H5).
  destruct (reads_skip_blank _ _ _ H5) as (p6 & E6 & H6).
  { apply starts_with_other_body. discriminate. }
  rewrite result_bind, E6.
  destruct (reads_body _ _ _ _ _ _ H6) as (p7 & E7 & H7); try discriminate.
  rewrite result_bind, E7.
  rewrite result_bind. destruct (reads_eat _ _ _ _ H7) as (t8 & -> & _ & H8).
  destruct (reads_skip_newlines _ _ _ _ _ H8 K) as (p9 & E9 & H9).
  rewrite result_bind, E9, result_ret. eauto.
Qed.

(** With [GLOBAL] before a word that does not open their own kind of
    definition, both attempts consume the modifier and report no match. *)
Lemma mod_def_global_only (p : Parser) (k : TokenType) (s : string)
    (ws : list Word) :
  reads p (kw GLOBAL :: (k, s) :: ws) -> k <> DEF ->
  result _mod_def p = Ret None (advance p).
Proof.
  intros H K. unfold _mod_def.
  destruct (reads_try_eat_match _ _ _ _ H) as (E & H').
  rewrite result_bind, (reads_skip_none _ _ _ _ H) by discriminate.
  rewrite result_bind, E.
  rewrite result_bind, (reads_is_current_token _ DEF _ _ _ H').
  apply eqb_neq_TokenType in K. rewrite K. reflexivity.
Qed.

Lemma fnc_def_global_only (p : Parser) (k : TokenType) (s : string)
    (ws : list Word) :
  reads p (kw GLOBAL :: (k, s) :: ws) -> k <> DEFFCT ->
  result _fnc_def p = Ret None (advance p).
Proof.
  intros H K. unfold _fnc_def.
  destruct (reads_try_eat_match _ _ _ _ H) as (E & H').
  rewrite result_bind, (reads_skip_none _ _ _ _ H) by discriminate.
  rewrite result_bind, E.
  rewrite result_bind, (reads_is_current_token _ DEFFCT _ _ _ H').
  apply eqb_neq_TokenType in K. rewrite K. reflexivity.
Qed.

Lemma node_of_without_global (d : DefinitionText) :
  node_of (without_global d) = node_of d.
Proof. reflexivity. Qed.

Lemma text_definition_without_global (d : DefinitionText) :
  text_definition (without_global d)
  = text_head (dt_returns d) ++ text_signature_and_body d.
Proof. reflexivity. Qed.

(** A procedure, from its first word on. *)
Lemma reads_procedure (d : DefinitionText) (p : Parser) (k : TokenType)
    (s : string) (ws : list Word) :
  dt_returns d = None ->
  reads p (text_definition d ++ (k, s) :: ws) -> k <> NEWLINE ->
  exists p', result _mod_def p = Ret (Some (node_of d)) p' /\
             reads p' ((k, s) :: ws).
Proof.
  intros R H K. unfold text_definition in H. rewrite R in H.
  destruct (dt_global d); simpl in H.
  - rewrite (mod_def_forgets_global _ _ _ _ H) by discriminate.
    destruct (reads_cons _ _ _ H) as (_ & _ & _ & H').
    exact (reads_mod_def d _ k s ws R H' K).
  - exact (reads_mod_def d _ k s ws R H K).
Qed.

(** A function, from its first word on. *)
Lemma reads_function (d : DefinitionText) (type_name : string) (p : Parser)
    (k : TokenType) (s : string) (ws : list Word) :
  dt_returns d = Some type_name ->
  reads p (text_definition d ++ (k, s) :: ws) -> k <> NEWLINE ->
  exists p', result _fnc_def p = Ret (Some (node_of d)) p' /\
             reads p' ((k, s) :: ws).
Proof.
  intros R H K. unfold text_definition in H. rewrite R in H.
  destruct (dt_global d); simpl in H.
  - rewrite (fnc_def_forgets_global _ _ _ _ H) by discriminate.
    destruct (reads_cons _ _ _ H) as (_ & _ & _ & H').
    exact (reads_fnc_def d type_name _ k s ws R H' K).
  - exact (reads_fnc_def d type_name _ k s ws R H K).
Qed.

(** [_mod_def] in front of a function, [_fnc_def] in front of a
    procedure: no match, and at most the modifier is gone. *)
Lemma mod_def_at_function (d : DefinitionText) (type_name : string)
    (p : Parser) (ws : list Word) :
  dt_returns d = Some type_name ->
  reads p (text_definition d ++ ws) ->
  exists p', result _mod_def p = Ret None p' /\
             reads p' (text_definition (without_global d) ++ ws).
Proof.
  intros R H. rewrite text_definition_without_global.
  unfold text_definition in H. rewrite R in *.
  destruct (dt_global d); simpl in H.
  - rewrite (mod_def_global_only _ _ _ _ H) by discriminate.
    destruct (reads_cons _ _ _ H) as (_ & _ & _ & H'). eauto.
  - rewrite (mod_def_no_match _ _ _ _ H) by discriminate. eauto.
Qed.

Lemma fnc_def_at_procedure (d : DefinitionText) (p : Parser)
    (ws : list Word) :
  dt_returns d = None ->
  reads p (text_definition d ++ ws) ->
  exists p', result _fnc_def p = Ret None p' /\
             reads p' (text_definition (without_global d) ++ ws).
Proof.
  intros R H. rewrite text_definition_without_global.
  unfold text_definition in H. rewrite R in *.
  destruct (dt_global d); simpl in H.
  - rewrite (fnc_def_global_only _ _ _ _ H) by discriminate.
    destruct (reads_cons _ _ _ H) as (_ & _ & _ & H'). eauto.
  - rewrite (fnc_def_no_match _ _ _ _ H) by discriminate. eauto.
Qed.

Lemma text_definitions_cons (d : DefinitionText) (ds : list DefinitionText)
    (ws : list Word) :
  text_definitions (d :: ds) ++ ws
  = text_definition d ++ text_definitions ds ++ ws.
Proof. unfold text_definitions. simpl. apply eq_sym, app_assoc. Qed.

(** What follows a definition in a source file: the next definition or
    the end of the file, never a line end. *)
Lemma first_word_after (ds : list DefinitionText) (ws : list Word) :
  exists k s ws',
    text_definitions ds ++ kw END_OF_FILE :: ws = (k, s) :: ws' /\
    k <> NEWLINE.
Proof.
  destruct ds as [|[[|] [ty|] n ps body b1 b2 b3] ds];
    [exists END_OF_FILE, EmptyString, ws;
       split; [reflexivity | discriminate] | ..];
    rewrite text_definitions_cons; unfold text_definition; simpl;
    do 3 eexists; (split; [reflexivity | discriminate]).
Qed.

Lemma first_word_definition (d : DefinitionText) (ws : list Word) :
  exists k s ws',
    text_definition d ++ ws = (k, s) :: ws' /\
    existsb (TokenType_eqb k) [GLOBAL; DEF; DEFFCT] = true.
Proof.
  destruct d as [[|] [ty|] n ps body b1 b2 b3]; unfold text_definition;
    simpl; do 3 eexists; (split; [reflexivity | reflexivity]).
Qed.

Lemma filter_None_pair {A} (a b : option A) :
  filter_None [a; b] = filter_pair a b.
Proof. destruct a, b; reflexivity. Qed.

Lemma reads_source_file_loop (n : nat) :
  forall (ds : list DefinitionText) (acc : list FunctionDefinition)
         (p : Parser) (ws : list Word),
    List.length ds <= n ->
    reads p (text_definitions ds ++ kw END_OF_FILE :: ws) ->
    exists p',
      result (while_do (any_current_token [GLOBAL; DEF; DEFFCT])
                (fun statements =>
                   d1 <- _mod_def ;;
                   d2 <- _fnc_def ;;
                   ret (statements ++ filter_None [d1; d2]))
                acc) p
      = Ret (acc ++ map node_of ds) p' /\
      reads p' (kw END_OF_FILE :: ws).
Proof.
  induction n as [|n IH]; intros ds acc p ws L H;
    (destruct ds as [|d ds]; [|simpl in L; try lia]); loop_equation.
  - destruct (reads_current _ _ _ _ H) as (t & Ht & Kt).
    rewrite (result_any_current_token_Some _ _ Ht), Kt. simpl.
    rewrite app_nil_r. eauto.
  - destruct (reads_current _ _ _ _ H) as (t & Ht & Kt).
    rewrite (result_any_current_token_Some _ _ Ht), Kt. simpl.
    rewrite app_nil_r. eauto.
  - rewrite text_definitions_cons in H.
    destruct (first_word_definition d (text_definitions ds
                                          ++ kw END_OF_FILE :: ws))
      as (k0 & s0 & ws0 & E0 & K0).
    assert (Hc : result (any_current_token [GLOBAL; DEF; DEFFCT]) p
                 = Ret true p).
    { rewrite E0 in H. destruct (reads_current _ _ _ _ H) as (t & Ht & Kt).
      rewrite (result_any_current_token_Some _ _ Ht), Kt, K0. reflexivity. }
    rewrite Hc. clear k0 s0 ws0 E0 K0 Hc.
    rewrite result_bind.
    destruct (dt_returns d) as [ty|] eqn:R.
    + (* a function: [_mod_def] passes, [_fnc_def] parses it *)
      destruct (mod_def_at_function d ty p _ R H) as (p1 & -> & H1).
      rewrite result_bind.
      destruct (first_word_after ds ws) as (k & s & ws' & E & K).
      rewrite E in H1.
      destruct (reads_function (without_global d) ty p1 k s ws' R H1 K)
        as (p2 & -> & H2).
      rewrite result_ret. cbv beta iota. rewrite filter_None_pair.
      cbn [filter_pair]. rewrite node_of_without_global. rewrite <- E in H2.
      destruct (IH ds (acc ++ [node_of d]) p2 ws) as (p3 & -> & H3);
        [lia | exact H2 |].
      rewrite <- app_assoc. eauto.
    + (* a procedure: [_mod_def] parses it, [_fnc_def] looks at what follows *)
      destruct (first_word_after ds ws) as (k & s & ws' & E & K).
      rewrite E in H.
      destruct (reads_procedure d p k s ws' R H K) as (p1 & -> & H1).
      rewrite <- E in H1.
      rewrite result_bind.
      destruct ds as [|d2 ds2].
      * rewrite (fnc_def_no_match _ _ _ _ H1) by discriminate.
        rewrite result_ret. cbv beta iota. rewrite filter_None_pair.
        cbn [filter_pair].
        destruct (IH [] (acc ++ [node_of d]) p1 ws) as (p3 & -> & H3);
          [simpl; lia | exact H1 |].
        rewrite app_nil_r. eauto.
      * rewrite text_definitions_cons in H1.
        destruct (dt_returns d2) as [ty2|] eqn:R2.
        -- destruct (first_word_after ds2 ws) as (k2 & s2 & ws2 & E2 & K2).
           rewrite E2 in H1.
           destruct (reads_function d2 ty2 p1 k2 s2 ws2 R2 H1 K2)
             as (p2 & -> & H2).
           rewrite result_ret. cbv beta iota. rewrite filter_None_pair.
           cbn [filter_pair]. rewrite <- E2 in H2.
           destruct (IH ds2 (acc ++ [node_of d; node_of d2]) p2 ws)
             as (p3 & -> & H3); [simpl in L; lia | exact H2 |].
           rewrite <- app_assoc. eauto.
        -- destruct (fnc_def_at_procedure d2 p1 _ R2 H1) as (p2 & -> & H2).
           rewrite result_ret. cbv beta iota. rewrite filter_None_pair.
           cbn [filter_pair].
           rewrite <- text_definitions_cons in H2.
           destruct (IH (without_global d2 :: ds2) (acc ++ [node_of d]) p2 ws)
             as (p3 & -> & H3); [simpl in *; lia | exact H2 |].
           rewrite <- app_assoc. simpl. eauto.
Qed.

Lemma reads_header_loop (attributes : list (string * nat)) :
  forall (acc : list FileAttribute) (p : Parser) (k : TokenType)
         (s : string) (ws : list Word),
    reads p (text_header attributes ++ (k, s) :: ws) ->
    k <> NEWLINE -> k <> FILE_ATTRIBUTE ->
    exists p',
      result (while_do (_is_current_token FILE_ATTRIBUTE)
                (fun attributes =>
                   token <- _eat FILE_ATTRIBUTE ;;
                   _eat NEWLINE ;;
                   _skip_newlines ;;
                   ret (attributes ++ [mkFileAttribute (value token)]))
                acc) p
      = Ret (acc ++ map (fun a => mkFileAttribute (fst a)) attributes) p' /\
      reads p' ((k, s) :: ws).
Proof.
  induction attributes as [|[a n] attributes IH]; intros acc p k s ws H K1 K2;
    loop_equation.
  - simpl in H. rewrite (reads_is_current_token _ FILE_ATTRIBUTE _ _ _ H).
    apply eqb_neq_TokenType in K2. rewrite K2, app_nil_r. eauto.
  - unfold text_header in H. simpl in H.
    rewrite (reads_is_current_token _ FILE_ATTRIBUTE _ _ _ H). simpl.
    rewrite result_bind.
    destruct (reads_eat _ _ _ _ H) as (t & -> & Hw & H1).
    apply word_of_file_attribute in Hw. rewrite Hw.
    rewrite result_bind.
    destruct (reads_eat _ _ _ _ H1) as (t1 & -> & _ & H2).
    rewrite <- app_assoc in H2.
    destruct (reads_skip_blank n _ _ H2) as (p3 & E3 & H3).
    { destruct attributes as [|[a' n'] attributes']; simpl;
        [exact K1 | discriminate]. }
    rewrite result_bind, E3, result_ret.
    destruct (IH (acc ++ [mkFileAttribute a]) p3 k s ws H3 K1 K2)
      as (p4 & -> & H4).
    rewrite <- app_assoc. eauto.
Qed.

Lemma first_word_after_header (ds : list DefinitionText) (ws : list Word) :
  exists k s ws',
    text_definitions ds ++ kw END_OF_FILE :: ws = (k, s) :: ws' /\
    k <> NEWLINE /\ k <> FILE_ATTRIBUTE.
Proof.
  destruct ds as [|[[|] [ty|] n ps body b1 b2 b3] ds];
    [exists END_OF_FILE, EmptyString, ws;
       split; [reflexivity | split; discriminate] | ..];
    rewrite text_definitions_cons; unfold text_definition; simpl;
    do 3 eexists; (split; [reflexivity | split; discriminate]).
Qed.

Lemma reads_initialized (t : Token) (ts : list Token) (a ta : list Node) :
  reads (mkParser a ta (t :: ts) 0 (Some t)) (map word_of (t :: ts)).
Proof. split; [apply inv_initialized | reflexivity]. Qed.

(** A whole source file: header lines, then definitions, then the end of
    the file. *)
Lemma reads_source_file (name : string) (attributes : list (string * nat))
    (definitions : list DefinitionText) (p : Parser) :
  definitions <> [] ->
  reads p (text_source_file attributes definitions) ->
  exists p',
    result (_source_file name) p
    = Ret (mkSourceFile name
             (map (fun a => mkFileAttribute (fst a)) attributes)
             (map node_of definitions)) p'.
Proof.
  intros Hne H. unfold text_source_file in H.
  change (List.concat (map text_definition definitions))
    with (text_definitions definitions) in H.
  destruct (first_word_after_header definitions [])
    as (k & s & ws' & E & K1 & K2).
  change [kw END_OF_FILE] with (kw END_OF_FILE :: []) in H.
  rewrite E in H.
  destruct (reads_header_loop attributes [] p k s ws' H K1 K2)
    as (p1 & E1 & H1).
  cbn [app] in E1. rewrite <- E in H1.
  destruct (reads_source_file_loop (List.length definitions) definitions []
              p1 [] (le_n _) H1) as (p2 & E2 & H2).
  cbn [app] in E2.
  destruct (reads_eat _ _ _ _ H2) as (t & E3 & _ & _).
  unfold _source_file.
  rewrite result_bind. unfold _header. rewrite E1.
  rewrite result_bind. unfold _source_file_statements. rewrite E2.
  rewrite result_bind.
  destruct definitions as [|d ds]; [congruence|]. cbn [map].
  rewrite result_ret, result_bind, E3, result_ret. eauto.
Qed.

(** C7. Parsing preserves source order.  Take any source file made of
    file-attribute lines followed by one or more definitions, procedures
    and functions in any mix, each with or without [GLOBAL], with any
    parameters, calls and blank lines, and then the end of the file.  The
    parse succeeds and its statements are the nodes of those definitions,
    one for one and in the order of the text, although each turn of the
    loop tries [_mod_def] before [_fnc_def]. *)
Theorem statements_in_source_order :
  forall (name : string) (tokens : list Token)
         (attributes : list (string * nat))
         (definitions : list DefinitionText) (p0 : Parser),
    definitions <> [] ->
    map word_of tokens = text_source_file attributes definitions ->
    exists p',
      result (_initialize tokens ;; _source_file name) p0
      = Ret (mkSourceFile name
               (map (fun a => mkFileAttribute (fst a)) attributes)
               (map node_of definitions)) p'.
Proof.
  intros name tokens attributes definitions p0 Hne Hw.
  destruct tokens as [|t ts].
  { unfold text_source_file in Hw. symmetry in Hw.
    apply app_eq_nil in Hw. destruct Hw as [_ Hw].
    apply app_eq_nil in Hw. destruct Hw as [_ Hw]. discriminate. }
  rewrite result_bind, result_initialize_cons.
  apply reads_source_file; [exact Hne|].
  rewrite <- Hw. apply reads_initialized.
Qed.

(* ================================================================== *)
(** ** No read of a missing token *)

Lemma on_token_initialized (a ta : list Node) (t : Token) (ts : list Token) :
  ends_in_only_eof (t :: ts) ->
  on_token (mkParser a ta (t :: ts) 0 (Some t)).
Proof.
  intros H. split; [apply inv_initialized|]. split; [exact H|]. simpl. lia.
Qed.

Lemma every_read_from_initialize {A} (a b : nat) (m : M A)
    (tokens : list Token) (p0 : Parser) :
  bounded a b m -> safe_to past_the_end m -> ends_in_only_eof tokens ->
  every_read_sees_a_token (result (_initialize tokens ;; m) p0).
Proof.
  intros B S H. destruct tokens as [|t ts].
  { destruct H as (body & eof & E & _). destruct body; discriminate. }
  rewrite result_bind, result_initialize_cons.
  pose proof (on_token_initialized (_ast p0) [] t ts H) as Ho.
  specialize (S _ Ho).
  pose proof (bounded_not_Timeout B (inv_initialized (_ast p0) [] t ts)) as T.
  destruct (result m _) as [x p'|e p'|]; simpl.
  - exact S.
  - destruct S as (Se & So). split; [exact Se|].
    destruct (on_token_current So) as (t' & ->). discriminate.
  - apply T. reflexivity.
Qed.

(** C10. When the token sequence is not empty and its last element is its
    only end-of-stream token, no read of the current token during a
    source-file or data-file parse finds it missing: the parse never ends
    in an [AttributeError] or [IndexError]; it raises only [ParsingError],
    with the cursor still on a token, and the cursor is [None] only when
    the parse has consumed the end-of-stream token and returns. *)
Theorem current_token_is_never_missing :
  forall (name : string) (tokens : list Token) (p0 : Parser),
    ends_in_only_eof tokens ->
    every_read_sees_a_token
      (result (_initialize tokens ;; _source_file name) p0) /\
    every_read_sees_a_token
      (result (_initialize tokens ;; _data_file name) p0).
Proof.
  intros name tokens p0 H. split.
  - exact (every_read_from_initialize _ _ _ tokens p0
             (bounded_source_file name) (safe_source_file name) H).
  - exact (every_read_from_initialize _ _ _ tokens p0
             (bounded_data_file name) (safe_data_file name) H).
Qed.

(* ================================================================== *)
(** ** The three dedicated diagnostics *)







(* ================================================================== *)
(** ** Sample inputs *)

Example minimal_procedure_parses :
  result (_source_file "f") (start minimal_tokens)
  = Ret (mkSourceFile "f" []
           [mkFunctionDefinition "foo" [] [] None false])
        (mkParser [] [] minimal_tokens 8 None).
Proof. reflexivity. Qed.

Example three_definitions_parse :
  result (_source_file "f") (start three_definitions_tokens)
  = Ret (mkSourceFile "f" [mkFileAttribute "&ACCESS RVP"]
           [mkFunctionDefinition "a" [] [mkFunctionCall "b" ["x"; "y"]]
              None false;
            mkFunctionDefinition "b"
              [mkParameter "x" TYPE_IN; mkParameter "y" TYPE_OUT] []
              (Some (mkType "INT")) false;
            mkFunctionDefinition "c" [] [] None false])
        (mkParser [] [] three_definitions_tokens 42 None).
Proof. reflexivity. Qed.

Example missing_direction_is_an_error :
  result (_source_file "f")
    (start [mkToken DEF "DEF" 1 1; mkToken NAME "foo" 1 5;
            mkToken LEFT_BRACE "(" 1 8; mkToken NAME "a" 1 9;
            mkToken COLON ":" 1 10; mkToken RIGHT_BRACE ")" 1 11;
            mkToken NEWLINE newline 1 12; mkToken END "END" 2 1;
            mkToken END_OF_FILE EmptyString 2 4])
  = Raise (ParsingError 1 11 expected_in_or_out)
      (mkParser [] []
         [mkToken DEF "DEF" 1 1; mkToken NAME "foo" 1 5;
          mkToken LEFT_BRACE "(" 1 8; mkToken NAME "a" 1 9;
          mkToken COLON ":" 1 10; mkToken RIGHT_BRACE ")" 1 11;
          mkToken NEWLINE newline 1 12; mkToken END "END" 2 1;
          mkToken END_OF_FILE EmptyString 2 4]
         5 (Some (mkToken RIGHT_BRACE ")" 1 11))).
Proof. reflexivity. Qed.

Example missing_end_of_file_token_is_an_AttributeError :
  result (_source_file "f")
    (start [mkToken DEF "DEF" 1 1; mkToken NAME "foo" 1 5;
            mkToken LEFT_BRACE "(" 1 8; mkToken RIGHT_BRACE ")" 1 9;
            mkToken NEWLINE newline 1 10; mkToken END "END" 2 1])
  = Raise AttributeError
      (mkParser [] []
         [mkToken DEF "DEF" 1 1; mkToken NAME "foo" 1 5;
          mkToken LEFT_BRACE "(" 1 8; mkToken RIGHT_BRACE ")" 1 9;
          mkToken NEWLINE newline 1 10; mkToken END "END" 2 1]
         6 None).
Proof. reflexivity. Qed.

(* ================================================================== *)
(** ** The modifiers [GLOBAL] and [PUBLIC] *)

(** Whatever [_mod_def] and [_fnc_def] return has [is_global] false. *)
Lemma mod_def_is_never_global (p p' : Parser) (d : FunctionDefinition) :
  result _mod_def p = Ret (Some d) p' -> fd_is_global d = false.
Proof.
  unfold _mod_def. intros H.
  repeat (rewrite result_bind in H;
          match type of H with
          | match ?x with _ => _ end = _ => destruct x; try discriminate
          end).
  match type of H with
  | context [negb ?b] =>
      destruct b; cbn [negb] in H; [|rewrite result_ret in H; discriminate]
  end.
  repeat (rewrite result_bind in H;
          match type of H with
          | match ?x with _ => _ end = _ => destruct x; try discriminate
          end).
  rewrite result_ret in H. injection H as <- _. reflexivity.
Qed.

Lemma fnc_def_is_never_global (p p' : Parser) (d : FunctionDefinition) :
  result _fnc_def p = Ret (Some d) p' -> fd_is_global d = false.
Proof.
  unfold _fnc_def. intros H.
  repeat (rewrite result_bind in H;
          match type of H with
          | match ?x with _ => _ end = _ => destruct x; try discriminate
          end).
  match type of H with
  | context [negb ?b] =>
      destruct b; cbn [negb] in H; [|rewrite result_ret in H; discriminate]
  end.
  repeat (rewrite result_bind in H;
          match type of H with
          | match ?x with _ => _ end = _ => destruct x; try discriminate
          end).
  rewrite result_ret in H. injection H as <- _. reflexivity.
Qed.

Lemma dat_def_is_never_public (p p' : Parser) (d : DataDefinition) :
  result _dat_def p = Ret d p' -> dd_is_public d = false.
Proof.
  unfold _dat_def. intros H.
  repeat (rewrite result_bind in H;
          match type of H with
          | match ?x with _ => _ end = _ => destruct x; try discriminate
          end).
  rewrite result_ret in H. injection H as <- _. reflexivity.
Qed.

(** C2. On [GLOBAL DEF foo()] ... [END] and on [GLOBAL DEFFCT INT foo()]
    ... [ENDFCT] the parse succeeds and the definition it returns has
    [is_global] false, although the definition opens with [GLOBAL]: the
    result of [_try_eat(GLOBAL)] is never handed to the node. *)
Theorem global_modifier_is_dropped :
  result (_initialize global_procedure_tokens ;; _source_file "f")
    Parser_init
  = Ret (mkSourceFile "f" []
           [mkFunctionDefinition "foo" [] [] None false])
        (mkParser [] [] global_procedure_tokens 9 None) /\
  result (_initialize global_function_tokens ;; _source_file "f")
    Parser_init
  = Ret (mkSourceFile "f" []
           [mkFunctionDefinition "foo" [] [] (Some (mkType "INT")) false])
        (mkParser [] [] global_function_tokens 10 None).
Proof. split; reflexivity. Qed.

(** C5. On [DEFDAT foo PUBLIC] ... [ENDDAT] the parse succeeds and the
    data definition it returns has [is_public] false, the same node as for
    [DEFDAT foo] ... [ENDDAT]: the result of [_try_eat(PUBLIC)] is never
    handed to the node. *)
Theorem public_modifier_is_dropped :
  result (_initialize public_data_tokens ;; _data_file "f") Parser_init
  = Ret (mkDataFile "f" [] [mkDataDefinition "foo" false])
        (mkParser [] [] public_data_tokens 7 None) /\
  result (_initialize private_data_tokens ;; _data_file "f") Parser_init
  = Ret (mkDataFile "f" [] [mkDataDefinition "foo" false])
        (mkParser [] [] private_data_tokens 6 None).
Proof. split; reflexivity. Qed.

(* ================================================================== *)
(** ** The minimal procedure *)

(** C3. Parsing the text [DEF foo()], line end, [ END], line end as a
    source file succeeds: if the lexer turns that text into the tokens
    [DEF], the name [foo], the two braces, a line end, [END], a line end
    and the end-of-stream token (at any positions), [add_source_file]
    returns and appends a source file whose statements are exactly one
    definition with name [foo], no parameters, an empty body, no return
    type and [is_global] false. *)
Theorem minimal_procedure_source_file :
  forall (generate_tokens : string -> LexResult) (name : string)
         (tokens : list Token) (p : Parser),
    generate_tokens minimal_text = Tokens tokens ->
    map word_of tokens = minimal_words ->
    exists p',
      result (add_source_file generate_tokens name minimal_text) p
      = Ret tt p' /\
      _ast p'
      = _ast p ++ [NSourceFile
                     (mkSourceFile name []
                        [mkFunctionDefinition "foo" [] [] None false])].
Proof.
  intros generate_tokens name tokens p Hlex Hw.
  unfold add_source_file, Lexer_generate_tokens.
  rewrite result_bind, Hlex, result_ret.
  destruct tokens as [|t ts]; [discriminate|].
  rewrite result_bind, result_initialize_cons, result_bind.
  destruct (reads_source_file name []
              [mkDefinitionText false None "foo" [] [] 0 0 1]
              (mkParser (_ast p) [] (t :: ts) 0 (Some t)))
    as (p1 & E1); [discriminate | |].
  { split; [apply inv_initialized | exact Hw]. }
  rewrite E1.
  destruct (bounded_Ret (bounded_source_file name)
              (inv_initialized (_ast p) [] t ts) E1) as (_ & Ha & _).
  simpl in Ha. eexists. split; [reflexivity|]. simpl. rewrite Ha.
  reflexivity.
Qed.

(* ================================================================== *)
(** ** The theorems at work on the sample inputs *)

Lemma minimal_procedure_source_file_witness :
  exists p',
    result (add_source_file (fun _ => Tokens minimal_tokens) "f" minimal_text)
      Parser_init
    = Ret tt p' /\
    _ast p'
    = _ast Parser_init
        ++ [NSourceFile
              (mkSourceFile "f" []
                 [mkFunctionDefinition "foo" [] [] None false])].
Proof.
  apply (minimal_procedure_source_file (fun _ => Tokens minimal_tokens) "f"
           minimal_tokens Parser_init).
  - reflexivity.
  - reflexivity.
Defined.

Lemma mod_def_consumes_global_witness :
  result _mod_def (start global_function_tokens)
  = Ret None (advance (start global_function_tokens)) /\
  _position (advance (start global_function_tokens))
  = S (_position (start global_function_tokens)) /\
  _current_token (advance (start global_function_tokens))
  = Some (mkToken DEFFCT "DEFFCT" 1 8) /\
  result (_mod_def ;; _fnc_def) (start global_function_tokens)
  = result _fnc_def (advance (start global_function_tokens)).
Proof.
  apply (@mod_def_consumes_global (start global_function_tokens)
           (mkToken GLOBAL "GLOBAL" 1 1) (mkToken DEFFCT "DEFFCT" 1 8)).
  - reflexivity.
  - reflexivity.
  - reflexivity.
  - discriminate.
Defined.

Lemma try_eat_exact_witness :
  result (_try_eat GLOBAL) (start minimal_tokens)
  = Ret false (start minimal_tokens) /\
  result (_try_eat DEF) (start minimal_tokens)
  = Ret true (advance (start minimal_tokens)).
Proof.
  split.
  - apply (proj1 (@try_eat_exact GLOBAL (start minimal_tokens)
                    (mkToken DEF "DEF" 1 1) eq_refl)).
    discriminate.
  - apply (proj2 (@try_eat_exact DEF (start minimal_tokens)
                    (mkToken DEF "DEF" 1 1) eq_refl)).
    reflexivity.
Defined.

Lemma statements_in_source_order_witness :
  exists p',
    result (_initialize three_definitions_tokens ;; _source_file "f")
      Parser_init
    = Ret (mkSourceFile "f"
             (map (fun a => mkFileAttribute (fst a)) [("&ACCESS RVP", 0)])
             (map node_of three_definitions)) p'.
Proof.
  apply (statements_in_source_order "f" three_definitions_tokens
           [("&ACCESS RVP", 0)] three_definitions Parser_init).
  - discriminate.
  - reflexivity.
Defined.

Lemma current_token_is_never_missing_witness :
  every_read_sees_a_token
    (result (_initialize minimal_tokens ;; _source_file "f") Parser_init) /\
  every_read_sees_a_token
    (result (_initialize minimal_tokens ;; _data_file "f") Parser_init).
Proof.
  apply (current_token_is_never_missing "f" minimal_tokens Parser_init).
  exists (firstn 7 minimal_tokens), (mkToken END_OF_FILE EmptyString 3 1).
  split; [reflexivity|]. split; [reflexivity|].
  repeat (constructor; [discriminate|]). constructor.
Defined.

(* ================================================================== *)
(** ** Data files *)

Lemma reads_dat_def (d : DataText) (p : Parser) (k : TokenType) (s : string)
    (ws : list Word) :
  reads p (text_data_definition d ++ (k, s) :: ws) -> k <> NEWLINE ->
  exists p', result _dat_def p = Ret (data_node_of d) p' /\
             reads p' ((k, s) :: ws).
Proof.
  destruct d as [n pub b1 b2]. unfold data_node_of, text_data_definition.
  simpl. intros H K. unfold _dat_def.
  rewrite result_bind, (reads_skip_none _ _ _ _ H) by discriminate.
  rewrite result_bind. destruct (reads_eat _ _ _ _ H) as (t0 & -> & _ & H0).
  rewrite result_bind. destruct (reads_eat _ _ _ _ H0) as (t1 & -> & Hw & H1).
  apply word_of_name in Hw. rewrite Hw.
  rewrite result_bind.
  assert (H2 : exists b q, result (_try_eat PUBLIC) (advance (advance p))
                           = Ret b q /\
                           reads q (kw NEWLINE :: blank b1
                                      ++ kw ENDDAT :: blank b2
                                      ++ (k, s) :: ws)).
  { destruct pub; simpl in H1;
      repeat (rewrite <- app_assoc in H1; simpl in H1).
    - destruct (reads_try_eat_match _ _ _ _ H1) as (E & H2). eauto.
    - rewrite (reads_try_eat_mismatch _ PUBLIC _ _ _ H1) by discriminate.
      eauto. }
  destruct H2 as (b & q & -> & H2).
  rewrite result_bind. destruct (reads_eat _ _ _ _ H2) as (t3 & -> & _ & H3).
  destruct (reads_skip_newlines _ _ _ _ _ H3) as (p4 & E4 & H4);
    [discriminate|].
  rewrite result_bind, E4.
  rewrite result_bind. destruct (reads_eat _ _ _ _ H4) as (t5 & -> & _ & H5).
  destruct (reads_skip_newlines _ _ _ _ _ H5 K) as (p6 & E6 & H6).
  rewrite result_bind, E6, result_ret. eauto.
Qed.

(** Where the tokens from the cursor on are a known suffix of the array,
    the cursor is that far from its end. *)
Lemma reads_position (p : Parser) (rest : list Token) :
  reads p (map word_of rest) ->
  _position p + List.length rest = List.length (_tokens p).
Proof.
  intros [[_ L] H]. apply (f_equal (@List.length Word)) in H.
  rewrite !length_map in H. unfold ahead in H. rewrite length_skipn in H.
  lia.
Qed.

(** A whole data file, and whatever tokens come after its end-of-stream
    token. *)
Lemma reads_data_file (name : string) (attributes : list (string * nat))
    (d : DataText) (p : Parser) (ws : list Word) :
  reads p (text_header attributes ++ text_data_definition d
             ++ kw END_OF_FILE :: ws) ->
  exists p',
    result (_data_file name) p
    = Ret (mkDataFile name (attribute_nodes attributes) [data_node_of d]) p'
    /\ reads p' ws.
Proof.
  intros H.
  assert (E : text_data_definition d ++ kw END_OF_FILE :: ws
              = kw DEFDAT :: tl (text_data_definition d)
                  ++ kw END_OF_FILE :: ws) by reflexivity.
  rewrite E in H.
  destruct (reads_header_loop attributes [] p _ _ _ H)
    as (p1 & E1 & H1); try discriminate.
  cbn [app] in E1. clear E.
  change (reads p1 (text_data_definition d ++ kw END_OF_FILE :: ws)) in H1.
  unfold _data_file. rewrite result_bind. unfold _header. rewrite E1.
  rewrite result_bind. unfold _data_file_statements.
  loop_equation.
  rewrite (reads_is_current_token _ DEFDAT _ _ _ H1). simpl.
  destruct (reads_dat_def d p1 _ _ _ H1) as (p2 & E2 & H2); [discriminate|].
  rewrite result_bind, E2, result_ret.
  loop_equation.
  rewrite (reads_is_current_token _ DEFDAT _ _ _ H2). simpl.
  rewrite result_bind, result_ret, result_bind, result_ret.
  destruct (reads_eat _ _ _ _ H2) as (t & E3 & _ & H3).
  rewrite result_bind, E3, result_ret. eauto.
Qed.

(** A whole source file, and whatever tokens come after its end-of-stream
    token. *)
Lemma reads_source_file_and_rest (name : string)
    (attributes : list (string * nat)) (definitions : list DefinitionText)
    (p : Parser) (ws : list Word) :
  definitions <> [] ->
  reads p (text_header attributes ++ text_definitions definitions
             ++ kw END_OF_FILE :: ws) ->
  exists p',
    result (_source_file name) p
    = Ret (mkSourceFile name (attribute_nodes attributes)
             (map node_of definitions)) p'
    /\ reads p' ws.
Proof.
  intros Hne H.
  destruct (first_word_after_header definitions ws)
    as (k & s & ws' & E & K1 & K2).
  rewrite E in H.
  destruct (reads_header_loop attributes [] p k s ws' H K1 K2)
    as (p1 & E1 & H1).
  cbn [app] in E1. rewrite <- E in H1.
  destruct (reads_source_file_loop (List.length definitions) definitions []
              p1 ws (le_n _) H1) as (p2 & E2 & H2).
  cbn [app] in E2.
  destruct (reads_eat _ _ _ _ H2) as (t & E3 & _ & H3).
  unfold _source_file.
  rewrite result_bind. unfold _header. rewrite E1.
  rewrite result_bind. unfold _source_file_statements. rewrite E2.
  rewrite result_bind.
  destruct definitions as [|d ds]; [congruence|]. cbn [map].
  rewrite result_ret, result_bind, E3, result_ret. eauto.
Qed.

Lemma reads_initialized_app (t : Token) (ts rest : list Token)
    (a ta : list Node) (words : list Word) :
  map word_of (t :: ts) = words ->
  reads (mkParser a ta ((t :: ts) ++ rest) 0 (Some t))
    (words ++ map word_of rest).
Proof.
  intros <-. split.
  - apply inv_initialized.
  - unfold ahead. simpl. rewrite map_app. reflexivity.
Qed.

(** What [_initialize] followed by a file parse gives on a well-formed
    file; shared by the theorems below. *)
Lemma data_file_parse_of_text (name : string) (tokens : list Token)
    (attributes : list (string * nat)) (d : DataText) (p0 : Parser) :
  map word_of tokens = text_data_file attributes d ->
  exists p',
    result (_initialize tokens ;; _data_file name) p0
    = Ret (mkDataFile name (attribute_nodes attributes)
             [DataDefinition_ (xt_name d)]) p' /\
    _ast p' = _ast p0.
Proof.
  intros Hw. destruct tokens as [|t ts].
  { unfold text_data_file in Hw. symmetry in Hw.
    apply app_eq_nil in Hw. destruct Hw as [_ Hw]. discriminate. }
  rewrite result_bind, result_initialize_cons.
  pose proof (reads_initialized t ts (_ast p0) []) as H. rewrite Hw in H.
  unfold text_data_file in H.
  destruct (reads_data_file name attributes d _ _ H) as (p' & E & H').
  exists p'. split; [exact E|].
  destruct (bounded_Ret (bounded_data_file name) (reads_inv _ _ H) E)
    as (_ & Ha & _).
  exact Ha.
Qed.

Lemma source_file_parse_of_text (name : string)
    (tokens : list Token) (attributes : list (string * nat))
    (definitions : list DefinitionText) (p0 : Parser) :
  definitions <> [] ->
  map word_of tokens = text_source_file attributes definitions ->
  exists p',
    result (_initialize tokens ;; _source_file name) p0
    = Ret (mkSourceFile name (attribute_nodes attributes)
             (map node_of definitions)) p' /\
    _ast p' = _ast p0.
Proof.
  intros Hne Hw. destruct tokens as [|t ts].
  { unfold text_source_file in Hw. symmetry in Hw.
    apply app_eq_nil in Hw. destruct Hw as [_ Hw].
    apply app_eq_nil in Hw. destruct Hw as [_ Hw]. discriminate. }
  rewrite result_bind, result_initialize_cons.
  pose proof (reads_initialized t ts (_ast p0) []) as H. rewrite Hw in H.
  destruct (reads_source_file_and_rest name attributes definitions _ []
              Hne H) as (p' & E & H').
  exists p'. split; [exact E|].
  destruct (bounded_Ret (bounded_source_file name) (reads_inv _ _ H) E)
    as (_ & Ha & _).
  exact Ha.
Qed.

(** X1. A data file that consists of file-attribute lines, one data
    definition (with or without [PUBLIC], with any blank lines) and the
    end-of-stream token parses to a [DataFile] with those attributes and
    that one definition, whatever tokens follow the end-of-stream token:
    the cursor stops right behind it. *)
Theorem data_file_round_trip :
  forall (name : string) (tokens rest : list Token)
         (attributes : list (string * nat)) (d : DataText) (p0 : Parser),
    map word_of tokens = text_data_file attributes d ->
    exists p',
      result (_initialize (tokens ++ rest) ;; _data_file name) p0
      = Ret (mkDataFile name (attribute_nodes attributes)
               [DataDefinition_ (xt_name d)]) p' /\
      _position p' = List.length tokens /\
      _tokens p' = tokens ++ rest /\ _ast p' = _ast p0.
Proof.
  intros name tokens rest attributes d p0 Hw.
  destruct tokens as [|t ts].
  { unfold text_data_file in Hw. symmetry in Hw.
    apply app_eq_nil in Hw. destruct Hw as [_ Hw]. discriminate. }
  rewrite <- app_comm_cons, result_bind, result_initialize_cons.
  pose proof (reads_initialized_app t ts rest (_ast p0) [] _ Hw) as H.
  unfold text_data_file in H. repeat rewrite <- app_assoc in H.
  destruct (reads_data_file name attributes d _ _ H) as (p' & E & H').
  exists p'. split; [exact E|].
  destruct (bounded_Ret (bounded_data_file name) (reads_inv _ _ H) E)
    as (_ & Ha & _ & Ht & _).
  simpl in Ha, Ht. pose proof (reads_position _ _ H') as L.
  rewrite Ht in L. simpl in L. rewrite length_app in L.
  simpl. repeat split; auto. lia.
Qed.

(** X2. The same for a source file: tokens after the end-of-stream token
    are never looked at.  A file of attribute lines, one or more
    definitions and the end-of-stream token parses to the same
    [SourceFile] whatever follows, and the cursor stops right behind the
    end-of-stream token. *)
Theorem tokens_after_end_of_file_are_ignored :
  forall (name : string) (tokens rest : list Token)
         (attributes : list (string * nat))
         (definitions : list DefinitionText) (p0 : Parser),
    definitions <> [] ->
    map word_of tokens = text_source_file attributes definitions ->
    exists p',
      result (_initialize (tokens ++ rest) ;; _source_file name) p0
      = Ret (mkSourceFile name (attribute_nodes attributes)
               (map node_of definitions)) p' /\
      _position p' = List.length tokens /\
      _tokens p' = tokens ++ rest /\ _ast p' = _ast p0.
Proof.
  intros name tokens rest attributes definitions p0 Hne Hw.
  destruct tokens as [|t ts].
  { unfold text_source_file in Hw. symmetry in Hw.
    apply app_eq_nil in Hw. destruct Hw as [_ Hw].
    apply app_eq_nil in Hw. destruct Hw as [_ Hw]. discriminate. }
  rewrite <- app_comm_cons, result_bind, result_initialize_cons.
  pose proof (reads_initialized_app t ts rest (_ast p0) [] _ Hw) as H.
  unfold text_source_file in H. repeat rewrite <- app_assoc in H.
  destruct (reads_source_file_and_rest name attributes definitions _ _ Hne H)
    as (p' & E & H').
  exists p'. split; [exact E|].
  destruct (bounded_Ret (bounded_source_file name) (reads_inv _ _ H) E)
    as (_ & Ha & _ & Ht & _).
  simpl in Ha, Ht. pose proof (reads_position _ _ H') as L.
  rewrite Ht in L. simpl in L. rewrite length_app in L.
  simpl. repeat split; auto. lia.
Qed.

(* ================================================================== *)
(** ** The three dedicated diagnostics, on the tokens *)









(* ================================================================== *)
(** ** A whole module *)

(** X3. [add_module] on a well-formed pair of texts: when the lexer turns
    the source text into a source file of one or more definitions and the
    data text into a data file of one data definition, [add_module]
    returns and appends one [Module] that pairs the two files, both
    under the module's name. *)
Theorem add_module_appends_the_pair :
  forall (generate_tokens : string -> LexResult)
         (name source_text data_text : string)
         (source_tokens data_tokens : list Token)
         (attributes data_attributes : list (string * nat))
         (definitions : list DefinitionText) (d : DataText) (p : Parser),
    generate_tokens source_text = Tokens source_tokens ->
    generate_tokens data_text = Tokens data_tokens ->
    definitions <> [] ->
    map word_of source_tokens = text_source_file attributes definitions ->
    map word_of data_tokens = text_data_file data_attributes d ->
    exists p',
      result (add_module generate_tokens name source_text data_text) p
      = Ret tt p' /\
      _ast p'
      = _ast p
          ++ [NModule
                (mkModule name
                   (mkSourceFile name (attribute_nodes attributes)
                      (map node_of definitions))
                   (mkDataFile name (attribute_nodes data_attributes)
                      [DataDefinition_ (xt_name d)]))].
Proof.
  intros generate_tokens name source_text data_text source_tokens
    data_tokens attributes data_attributes definitions d p Hs Hd Hne Hws Hwd.
  unfold add_module, Lexer_generate_tokens.
  rewrite result_bind, Hs, result_ret, result_bind, Hd, result_ret.
  destruct (source_file_parse_of_text name source_tokens
              attributes definitions p Hne Hws) as (p1 & E1 & A1).
  rewrite result_bind in E1. rewrite result_bind.
  destruct (result (_initialize source_tokens) p) as [[] q|e q|];
    try discriminate.
  rewrite result_bind, E1.
  destruct (data_file_parse_of_text name data_tokens data_attributes d p1
              Hwd) as (p2 & E2 & A2).
  rewrite result_bind in E2. rewrite result_bind.
  destruct (result (_initialize data_tokens) p1) as [[] q'|e q'|];
    try discriminate.
  rewrite result_bind, E2. eexists. split; [reflexivity|].
  simpl. rewrite A2, A1. reflexivity.
Qed.

(* ================================================================== *)
(** ** Where and what a [ParsingError] is *)

Lemma diagnosed_ret {A} (D : list string) (x : A) : diagnosed D (ret x).
Proof. intros p. exact I. Qed.

Lemma diagnosed_error {A} (D : list string) (message : string) :
  In message D -> diagnosed D (@_error A message).
Proof.
  intros Hm p. destruct (_current_token p) as [t|] eqn:Ht.
  - rewrite (result_error_Some _ _ Ht). exists t.
    repeat split; auto. right. exact Hm.
  - unfold result. rewrite (_error_None _ _ Ht). exact I.
Qed.

Lemma diagnosed_eat (D : list string) (kind : TokenType) :
  diagnosed D (_eat kind).
Proof.
  intros p. destruct (_current_token p) as [t|] eqn:Ht.
  - destruct (TokenType_eq_dec (token_type t) kind) as [K|K].
    + rewrite (result_eat_match _ Ht K). exact I.
    + rewrite (result_eat_mismatch _ Ht K). exists t.
      repeat split; auto. left. exists kind. split; [congruence | reflexivity].
  - rewrite (result_eat_None _ _ Ht). exact I.
Qed.

Lemma diagnosed_try_eat (D : list string) (kind : TokenType) :
  diagnosed D (_try_eat kind).
Proof.
  intros p. destruct (_current_token p) as [t|] eqn:Ht.
  - destruct (TokenType_eq_dec (token_type t) kind) as [K|K].
    + rewrite (result_try_eat_match _ Ht K). exact I.
    + rewrite (result_try_eat_mismatch _ Ht K). exact I.
  - rewrite (result_try_eat_None _ _ Ht). exact I.
Qed.

Lemma diagnosed_is_current_token (D : list string) (kind : TokenType) :
  diagnosed D (_is_current_token kind).
Proof.
  intros p. destruct (_current_token p) as [t|] eqn:Ht.
  - rewrite (result_is_current_token_Some _ _ Ht). exact I.
  - rewrite (result_is_current_token_None _ _ Ht). exact I.
Qed.

Lemma diagnosed_bind {A B} (D : list string) (m : M A) (f : A -> M B) :
  diagnosed D m -> (forall x, diagnosed D (f x)) -> diagnosed D (bind m f).
Proof.
  intros Hm Hf p. rewrite result_bind. specialize (Hm p).
  destruct (result m p) as [x p'|e p'|]; auto. apply Hf.
Qed.

Lemma diagnosed_if {A} (D : list string) (c : bool) (m1 m2 : M A) :
  diagnosed D m1 -> diagnosed D m2 -> diagnosed D (if c then m1 else m2).
Proof. destruct c; auto. Qed.

Lemma diagnosed_match_option {A B} (D : list string) (o : option B)
    (m1 : B -> M A) (m2 : M A) :
  (forall x, diagnosed D (m1 x)) -> diagnosed D m2 ->
  diagnosed D (match o with Some x => m1 x | None => m2 end).
Proof. destruct o; auto. Qed.

Lemma diagnosed_match_list {A B} (D : list string) (l : list B)
    (m1 : M A) (m2 : B -> list B -> M A) :
  diagnosed D m1 -> (forall x xs, diagnosed D (m2 x xs)) ->
  diagnosed D (match l with [] => m1 | x :: xs => m2 x xs end).
Proof. destruct l; auto. Qed.

Lemma diagnosed_while_do {A} (D : list string) (cond : M bool)
    (body : A -> M A) (acc : A) :
  diagnosed D cond -> (forall acc, diagnosed D (body acc)) ->
  diagnosed D (while_do cond body acc).
Proof.
  intros Hc Hb p. rewrite result_while_do. generalize (fuel_of p) as fuel.
  intros fuel. revert acc p. induction fuel as [|fuel IH]; intros acc p.
  - exact I.
  - rewrite result_while_fuel_S. specialize (Hc p).
    destruct (result cond p) as [[|] p1|e p1|]; auto.
    specialize (Hb acc p1).
    destruct (result (body acc) p1) as [acc' p2|e p2|]; auto.
    apply IH.
Qed.

Create HintDb diagnosed.
#[local] Hint Resolve diagnosed_ret diagnosed_eat diagnosed_try_eat
  diagnosed_is_current_token : diagnosed.

(** Builds a [diagnosed] judgement along the structure of a method. *)
Ltac dg :=
  idtac;
  lazymatch goal with
  | |- diagnosed _ (bind _ _) => eapply diagnosed_bind; [dg | intro; dg]
  | |- diagnosed _ (match _ with true => _ | false => _ end) =>
      eapply diagnosed_if; [dg | dg]
  | |- diagnosed _ (match _ with Some _ => _ | None => _ end) =>
      eapply diagnosed_match_option; [intro; dg | dg]
  | |- diagnosed _ (match _ with [] => _ | _ :: _ => _ end) =>
      eapply diagnosed_match_list; [dg | intros; dg]
  | |- diagnosed _ (while_do _ _ _) =>
      apply diagnosed_while_do; [dg | intro; dg]
  | |- diagnosed _ (_error _) => apply diagnosed_error; simpl; tauto
  | |- _ => solve [eauto with diagnosed]
  end.

Lemma diagnosed_skip_newlines (D : list string) : diagnosed D _skip_newlines.
Proof. unfold _skip_newlines. dg. Qed.
#[local] Hint Resolve diagnosed_skip_newlines : diagnosed.

Lemma diagnosed_header (D : list string) : diagnosed D _header.
Proof. unfold _header. dg. Qed.
#[local] Hint Resolve diagnosed_header : diagnosed.

Lemma diagnosed_param_def : diagnosed source_file_messages _param_def.
Proof. unfold _param_def. dg. Qed.
#[local] Hint Resolve diagnosed_param_def : diagnosed.

Lemma diagnosed_params_def : diagnosed source_file_messages _params_def.
Proof. unfold _params_def. dg. Qed.
#[local] Hint Resolve diagnosed_params_def : diagnosed.

Lemma diagnosed_param (D : list string) : diagnosed D _param.
Proof. unfold _param. dg. Qed.
#[local] Hint Resolve diagnosed_param : diagnosed.

Lemma diagnosed_params (D : list string) : diagnosed D _params.
Proof. unfold _params. dg. Qed.
#[local] Hint Resolve diagnosed_params : diagnosed.

Lemma diagnosed_mod_call (D : list string) : diagnosed D _mod_call.
Proof. unfold _mod_call. dg. Qed.
#[local] Hint Resolve diagnosed_mod_call : diagnosed.

Lemma diagnosed_body (D : list string) : diagnosed D _body.
Proof. unfold _body. dg. Qed.
#[local] Hint Resolve diagnosed_body : diagnosed.

Lemma diagnosed_mod_def : diagnosed source_file_messages _mod_def.
Proof. unfold _mod_def. dg. Qed.
#[local] Hint Resolve diagnosed_mod_def : diagnosed.

Lemma diagnosed_fnc_def : diagnosed source_file_messages _fnc_def.
Proof. unfold _fnc_def. dg. Qed.
#[local] Hint Resolve diagnosed_fnc_def : diagnosed.

Lemma diagnosed_dat_def (D : list string) : diagnosed D _dat_def.
Proof. unfold _dat_def. dg. Qed.
#[local] Hint Resolve diagnosed_dat_def : diagnosed.

Lemma diagnosed_any_current_token (D : list string)
    (kinds : list TokenType) :
  diagnosed D (any_current_token kinds).
Proof. induction kinds as [|k ks IH]; simpl; dg. Qed.
#[local] Hint Resolve diagnosed_any_current_token : diagnosed.

Lemma diagnosed_source_file (name : string) :
  diagnosed source_file_messages (_source_file name).
Proof. unfold _source_file, _source_file_statements. dg. Qed.

Lemma diagnosed_data_file (name : string) :
  diagnosed data_file_messages (_data_file name).
Proof. unfold _data_file, _data_file_statements. dg. Qed.

Lemma diagnosed_from_initialize {A} (a b : nat) (D : list string) (m : M A)
    (tokens : list Token) (p0 p' : Parser) (l c : Z) (message : string) :
  bounded a b m -> diagnosed D m ->
  result (_initialize tokens ;; m) p0
  = Raise (ParsingError l c message) p' ->
  exists t, nth_error tokens (_position p') = Some t /\
            l = line_number t /\ c = column t /\
            diagnosis D t message.
Proof.
  intros B Hd H. rewrite result_bind in H. destruct tokens as [|t0 ts].
  - rewrite result_initialize_nil in H. discriminate.
  - rewrite result_initialize_cons in H.
    pose proof (inv_initialized (_ast p0) [] t0 ts) as Hi.
    specialize (Hd (mkParser (_ast p0) [] (t0 :: ts) 0 (Some t0))).
    rewrite H in Hd. destruct Hd as (t & Ht & Hl & Hc & Hm).
    destruct (bounded_Raise B Hi H) as ((Hcur & _) & _ & _ & Htok & _).
    exists t. rewrite Hcur, Htok in Ht. auto.
Qed.

(** X4. Every [ParsingError] of a file parse points at the offending
    token: its line and column are those of the token at the position the
    cursor is left on, and its message is either the generic one, naming
    an expected kind and, as found, the kind of that very token (which
    differs from the expected one), or one of the file's own messages
    (for a source file the missing [IN]/[OUT] and the missing definition,
    for a data file the missing and the surplus data definition). *)
Theorem parsing_errors_point_at_the_offending_token :
  forall (name : string) (tokens : list Token) (p0 p' : Parser)
         (l c : Z) (message : string),
    (result (_initialize tokens ;; _source_file name) p0
     = Raise (ParsingError l c message) p' ->
     exists t, nth_error tokens (_position p') = Some t /\
               l = line_number t /\ c = column t /\
               diagnosis source_file_messages t message) /\
    (result (_initialize tokens ;; _data_file name) p0
     = Raise (ParsingError l c message) p' ->
     exists t, nth_error tokens (_position p') = Some t /\
               l = line_number t /\ c = column t /\
               diagnosis data_file_messages t message).
Proof.
  intros name tokens p0 p' l c message. split; intros H.
  - exact (diagnosed_from_initialize _ _ _ _ tokens p0 p' l c message
             (bounded_source_file name) (diagnosed_source_file name) H).
  - exact (diagnosed_from_initialize _ _ _ _ tokens p0 p' l c message
             (bounded_data_file name) (diagnosed_data_file name) H).
Qed.

(* ================================================================== *)
(** ** What a returned file node always satisfies *)

(** Opens every [bind] of a run that returned. *)
Ltac open_binds H :=
  repeat (rewrite result_bind in H;
          match type of H with
          | match ?x with _ => _ end = _ =>
              let E := fresh "E" in destruct x eqn:E; try discriminate
          end).

(** X5. The invariants of the file nodes hold for whatever the parser
    returns: a [SourceFile] carries the name it was parsed under and at
    least one statement; a [DataFile] carries the name it was parsed under
    and exactly one statement. *)
Theorem returned_files_are_well_formed :
  forall (name : string) (p p' : Parser),
    (forall s, result (_source_file name) p = Ret s p' ->
               sf_name s = name /\ sf_statements s <> []) /\
    (forall d, result (_data_file name) p = Ret d p' ->
               df_name d = name /\ List.length (df_statements d) = 1).
Proof.
  intros name p p'. split.
  - intros s H. unfold _source_file in H.
    rewrite result_bind in H.
    destruct (result _header p) as [attributes p1| |]; try discriminate.
    rewrite result_bind in H.
    destruct (result _source_file_statements p1) as [statements p2| |];
      try discriminate.
    destruct statements as [|d ds].
    + rewrite result_bind in H.
      destruct (result (_error no_definition_found) p2) as [[] q| |] eqn:E;
        try discriminate.
      unfold result in E. destruct (_current_token p2) as [t|] eqn:Ht.
      * rewrite (_error_Some _ _ Ht) in E. discriminate.
      * rewrite (_error_None _ _ Ht) in E. discriminate.
    + open_binds H. rewrite result_ret in H. injection H as <- _.
      split; [reflexivity | discriminate].
  - intros d H. unfold _data_file in H.
    rewrite result_bind in H.
    destruct (result _header p) as [attributes p1| |]; try discriminate.
    rewrite result_bind in H.
    destruct (result _data_file_statements p1) as [statements p2| |];
      try discriminate.
    destruct statements as [|d1 [|d2 ds]].
    + rewrite result_bind in H.
      destruct (result (_error no_data_definition_found) p2)
        as [[] q| |] eqn:E; try discriminate.
      unfold result in E. destruct (_current_token p2) as [t|] eqn:Ht.
      * rewrite (_error_Some _ _ Ht) in E. discriminate.
      * rewrite (_error_None _ _ Ht) in E. discriminate.
    + open_binds H. rewrite result_ret in H. injection H as <- _.
      split; reflexivity.
    + rewrite result_bind, result_ret, result_bind in H.
      cbn [List.length Nat.ltb Nat.leb] in H.
      destruct (result (_error more_than_one_data_definition_found) p2)
        as [[] q| |] eqn:E; try discriminate.
      unfold result in E. destruct (_current_token p2) as [t|] eqn:Ht.
      * rewrite (_error_Some _ _ Ht) in E. discriminate.
      * rewrite (_error_None _ _ Ht) in E. discriminate.
Qed.

(* ================================================================== *)
(** ** The end-of-stream token *)

Lemma eat_Ret (kind : TokenType) (p p' : Parser) (t : Token) :
  result (_eat kind) p = Ret t p' ->
  _current_token p = Some t /\ token_type t = kind /\ p' = advance p.
Proof.
  intros H. destruct (_current_token p) as [t0|] eqn:Ht.
  - destruct (TokenType_eq_dec (token_type t0) kind) as [K|K].
    + rewrite (result_eat_match _ Ht K) in H. injection H as <- <-. auto.
    + rewrite (result_eat_mismatch _ Ht K) in H. discriminate.
  - rewrite (result_eat_None _ _ Ht) in H. discriminate.
Qed.

Lemma returns_behind_end_of_file (p q p' : Parser) (t : Token) :
  inv q -> frame p q ->
  result (_eat END_OF_FILE) q = Ret t p' ->
  exists i t, _position p' = S i /\ _position p <= i /\
              nth_error (_tokens p) i = Some t /\
              token_type t = END_OF_FILE.
Proof.
  intros (Hc & _) (_ & _ & Ht & Hle) Ee.
  destruct (eat_Ret _ _ _ _ Ee) as (Hq & K & ->).
  exists (_position q), t. rewrite advance_position.
  rewrite Hc, Ht in Hq. auto.
Qed.

Lemma source_file_returns_behind_end_of_file (name : string)
    (p p' : Parser) (s : SourceFile) :
  inv p -> result (_source_file name) p = Ret s p' ->
  exists i t, _position p' = S i /\ _position p <= i /\
              nth_error (_tokens p) i = Some t /\
              token_type t = END_OF_FILE.
Proof.
  intros Hp H. unfold _source_file in H.
  pose proof (frame_refl p) as Hf.
  rewrite result_bind in H.
  destruct (result _header p) as [attributes p1| |] eqn:E1;
    try discriminate.
  destruct (bounded_Ret bounded_header Hp E1) as (I1 & F1).
  rewrite result_bind in H.
  destruct (result _source_file_statements p1) as [statements p2| |] eqn:E2;
    try discriminate.
  destruct (bounded_Ret bounded_source_file_statements I1 E2) as (I2 & F2).
  rewrite result_bind in H.
  match type of H with
  | match result ?m p2 with _ => _ end = _ =>
      destruct (result m p2) as [[] p3| |] eqn:E3; try discriminate;
      assert (B3 : bounded 0 0 m) by (by_bound bnd)
  end.
  destruct (bounded_Ret B3 I2 E3) as (I3 & F3).
  rewrite result_bind in H.
  destruct (result (_eat END_OF_FILE) p3) as [t p4| |] eqn:E4;
    try discriminate.
  rewrite result_ret in H. injection H as _ <-.
  apply (returns_behind_end_of_file p p3 p4 t I3); auto.
  eauto using frame_trans.
Qed.

Lemma data_file_returns_behind_end_of_file (name : string)
    (p p' : Parser) (d : DataFile) :
  inv p -> result (_data_file name) p = Ret d p' ->
  exists i t, _position p' = S i /\ _position p <= i /\
              nth_error (_tokens p) i = Some t /\
              token_type t = END_OF_FILE.
Proof.
  intros Hp H. unfold _data_file in H.
  rewrite result_bind in H.
  destruct (result _header p) as [attributes p1| |] eqn:E1;
    try discriminate.
  destruct (bounded_Ret bounded_header Hp E1) as (I1 & F1).
  rewrite result_bind in H.
  destruct (result _data_file_statements p1) as [statements p2| |] eqn:E2;
    try discriminate.
  destruct (bounded_Ret bounded_data_file_statements I1 E2) as (I2 & F2).
  rewrite result_bind in H.
  match type of H with
  | match result ?m p2 with _ => _ end = _ =>
      destruct (result m p2) as [[] p3| |] eqn:E3; try discriminate;
      assert (B3 : bounded 0 0 m) by (by_bound bnd)
  end.
  destruct (bounded_Ret B3 I2 E3) as (I3 & F3).
  rewrite result_bind in H.
  match type of H with
  | match result ?m p3 with _ => _ end = _ =>
      destruct (result m p3) as [[] p3'| |] eqn:E3'; try discriminate;
      assert (B3' : bounded 0 0 m) by (by_bound bnd)
  end.
  destruct (bounded_Ret B3' I3 E3') as (I3' & F3').
  rewrite result_bind in H.
  destruct (result (_eat END_OF_FILE) p3') as [t p4| |] eqn:E4;
    try discriminate.
  rewrite result_ret in H. injection H as _ <-.
  apply (returns_behind_end_of_file p p3' p4 t I3'); auto.
  eauto using frame_trans.
Qed.

(** X7. A file parse succeeds only by consuming an end-of-stream token as
    its last token: when [_source_file] or [_data_file], started by
    [_initialize], returns, the token just before the final cursor
    position is an [END_OF_FILE] token.  In particular a token sequence
    with no end-of-stream token never parses. *)
Theorem success_consumes_an_end_of_file_token :
  forall (name : string) (tokens : list Token) (p0 p' : Parser),
    (forall s,
        result (_initialize tokens ;; _source_file name) p0 = Ret s p' ->
        exists i t, _position p' = S i /\ nth_error tokens i = Some t /\
                    token_type t = END_OF_FILE) /\
    (forall d,
        result (_initialize tokens ;; _data_file name) p0 = Ret d p' ->
        exists i t, _position p' = S i /\ nth_error tokens i = Some t /\
                    token_type t = END_OF_FILE).
Proof.
  intros name tokens p0 p'. split; intros x H; rewrite result_bind in H;
    (destruct tokens as [|t0 ts];
     [rewrite result_initialize_nil in H; discriminate|]);
    rewrite result_initialize_cons in H;
    pose proof (inv_initialized (_ast p0) [] t0 ts) as Hi.
  - destruct (source_file_returns_behind_end_of_file name _ _ _ Hi H)
      as (i & t & Hpos & _ & Ht & K).
    exists i, t. auto.
  - destruct (data_file_returns_behind_end_of_file name _ _ _ Hi H)
      as (i & t & Hpos & _ & Ht & K).
    exists i, t. auto.
Qed.

(* ================================================================== *)
(** ** The first token of a file *)

Lemma header_without_attributes (p : Parser) (t : Token) :
  _current_token p = Some t -> token_type t <> FILE_ATTRIBUTE ->
  result _header p = Ret [] p.
Proof.
  intros Ht K. unfold _header. rewrite result_while_do. unfold fuel_of.
  rewrite result_while_fuel_S, (result_is_current_token_Some _ _ Ht).
  apply eqb_neq_TokenType in K. rewrite K. reflexivity.
Qed.

(** X8. The first token decides whether there is anything to parse.  A
    source file whose first token is neither a file attribute nor
    [GLOBAL], [DEF] or [DEFFCT] (an empty file, a file that starts with a
    blank line) fails at once with "No module or function definition
    found", located at that token; a data file whose first token is
    neither a file attribute nor [DEFDAT] fails at once with "No data
    definition found".  Nothing is consumed. *)
Theorem first_token_must_open_a_definition :
  forall (name : string) (p : Parser) (t : Token),
    _current_token p = Some t ->
    token_type t <> FILE_ATTRIBUTE ->
    (token_type t <> GLOBAL -> token_type t <> DEF ->
     token_type t <> DEFFCT ->
     result (_source_file name) p
     = Raise (ParsingError (line_number t) (column t)
                "No module or function definition found") p) /\
    (token_type t <> DEFDAT ->
     result (_data_file name) p
     = Raise (ParsingError (line_number t) (column t)
                "No data definition found") p).
Proof.
  intros name p t Ht Kf. split.
  - intros K1 K2 K3. unfold _source_file.
    rewrite result_bind, (header_without_attributes _ _ Ht Kf).
    rewrite result_bind. unfold _source_file_statements.
    rewrite result_while_do. unfold fuel_of.
    rewrite result_while_fuel_S, (result_any_current_token_Some _ _ Ht).
    apply eqb_neq_TokenType in K1, K2, K3. simpl. rewrite K1, K2, K3. simpl.
    rewrite result_bind, (result_error_Some _ _ Ht). reflexivity.
  - intros K. unfold _data_file.
    rewrite result_bind, (header_without_attributes _ _ Ht Kf).
    rewrite result_bind. unfold _data_file_statements.
    rewrite result_while_do. unfold fuel_of.
    rewrite result_while_fuel_S, (result_is_current_token_Some _ _ Ht).
    apply eqb_neq_TokenType in K. rewrite K.
    rewrite result_bind, (result_error_Some _ _ Ht). reflexivity.
Qed.

(* ================================================================== *)
(** ** One pass over the tokens *)

(** X9. A file parse is one forward pass: from a cursor in step with the
    token array, [_source_file] and [_data_file] end, on return or on any
    raise, in a state with the same token array and the same accumulated
    list, the cursor not before where it started and not beyond the end
    of the array, and the current token again the token at the cursor
    ([None] exactly when the cursor is at the end). *)
Theorem file_parse_is_one_forward_pass :
  forall (name : string) (p : Parser),
    inv p ->
    (exists p', final_state (result (_source_file name) p) = Some p' /\
                _tokens p' = _tokens p /\ _ast p' = _ast p /\
                _position p <= _position p' <= List.length (_tokens p) /\
                _current_token p' = nth_error (_tokens p) (_position p')) /\
    (exists p', final_state (result (_data_file name) p) = Some p' /\
                _tokens p' = _tokens p /\ _ast p' = _ast p /\
                _position p <= _position p' <= List.length (_tokens p) /\
                _current_token p' = nth_error (_tokens p) (_position p')).
Proof.
  intros name p Hp. split.
  - pose proof (bounded_source_file name Hp) as B. unfold result.
    destruct (_source_file name p) as [[x p'|e p'|] n]; try contradiction;
      destruct B as ((Hc & Hl) & (Ha & _ & Ht & Hle) & _);
      exists p'; rewrite <- Ht; simpl; repeat split; auto.
  - pose proof (bounded_data_file name Hp) as B. unfold result.
    destruct (_data_file name p) as [[x p'|e p'|] n]; try contradiction;
      destruct B as ((Hc & Hl) & (Ha & _ & Ht & Hle) & _);
      exists p'; rewrite <- Ht; simpl; repeat split; auto.
Qed.

(* ================================================================== *)
(** ** A parameter and its direction *)

(** X10. [_param_def] on a name and a colon: followed by [IN] or [OUT] it
    returns the parameter with that direction and has consumed the three
    tokens; followed by any other token it raises "Expected IN or OUT" at
    that token, with the name and the colon consumed. *)
Theorem parameter_needs_a_direction :
  forall (p : Parser) (name colon t : Token),
    _current_token p = Some name -> token_type name = NAME ->
    nth_error (_tokens p) (S (_position p)) = Some colon ->
    token_type colon = COLON ->
    nth_error (_tokens p) (S (S (_position p))) = Some t ->
    (token_type t = IN ->
     result _param_def p
     = Ret (mkParameter (value name) TYPE_IN)
         (advance (advance (advance p)))) /\
    (token_type t = OUT ->
     result _param_def p
     = Ret (mkParameter (value name) TYPE_OUT)
         (advance (advance (advance p)))) /\
    (token_type t <> IN -> token_type t <> OUT ->
     result _param_def p
     = Raise (ParsingError (line_number t) (column t) expected_in_or_out)
         (advance (advance p))).
Proof.
  intros p name colon t Hn Kn Hc Kc Ht.
  assert (Hc' : _current_token (advance p) = Some colon)
    by (rewrite advance_current; exact Hc).
  assert (Ht' : _current_token (advance (advance p)) = Some t)
    by (rewrite advance_current, advance_position, advance_tokens; exact Ht).
  unfold _param_def.
  rewrite result_bind, (result_eat_match _ Hn Kn).
  rewrite result_bind, (result_eat_match _ Hc' Kc).
  split; [|split].
  - intros K. rewrite result_bind, (result_try_eat_match _ Ht' K).
    rewrite result_bind, result_ret, result_ret. reflexivity.
  - intros K.
    rewrite result_bind, (result_try_eat_mismatch _ Ht')
      by (rewrite K; discriminate).
    rewrite result_bind, result_bind, (result_try_eat_match _ Ht' K).
    rewrite result_ret, result_ret. reflexivity.
  - intros K1 K2.
    rewrite result_bind, (result_try_eat_mismatch _ Ht' K1).
    rewrite result_bind, result_bind, (result_try_eat_mismatch _ Ht' K2).
    rewrite result_ret, (result_error_Some _ _ Ht'). reflexivity.
Qed.

(* ================================================================== *)
(** ** Lexing failures *)

(** X11. The entry points lex before they touch the parser object: when
    the lexer fails on the text (for [add_module]: on the source text, or
    on the data text after the source text was lexed), the lexer's
    exception is raised and the parser object is left exactly as it was,
    tokens and cursor included. *)
Theorem lexing_failure_leaves_the_parser_untouched :
  forall (generate_tokens : string -> LexResult) (name : string)
         (e : exn) (p : Parser),
    (forall text,
        generate_tokens text = LexFailure e ->
        result (add_source_file generate_tokens name text) p = Raise e p /\
        result (add_data_file generate_tokens name text) p = Raise e p) /\
    (forall source_text data_text,
        generate_tokens source_text = LexFailure e ->
        result (add_module generate_tokens name source_text data_text) p
        = Raise e p) /\
    (forall source_text data_text tokens,
        generate_tokens source_text = Tokens tokens ->
        generate_tokens data_text = LexFailure e ->
        result (add_module generate_tokens name source_text data_text) p
        = Raise e p).
Proof.
  intros generate_tokens name e p. split; [|split].
  - intros text H. unfold add_source_file, add_data_file,
      Lexer_generate_tokens.
    rewrite !result_bind, H. split; reflexivity.
  - intros source_text data_text H.
    unfold add_module, Lexer_generate_tokens.
    rewrite result_bind, H. reflexivity.
  - intros source_text data_text tokens Hs Hd.
    unfold add_module, Lexer_generate_tokens.
    rewrite result_bind, Hs, result_ret, result_bind, Hd. reflexivity.
Qed.

(* ================================================================== *)
(** ** The parser object between files *)

Lemma ast_blind_ret {A} (x : A) : ast_blind (ret x).
Proof. intros p a. reflexivity. Qed.

Lemma ast_blind_error {A} (message : string) :
  ast_blind (@_error A message).
Proof.
  intros p a. destruct (_current_token p) as [t|] eqn:Ht.
  - assert (Ht' : _current_token (with_ast a p) = Some t) by exact Ht.
    rewrite (_error_Some _ _ Ht), (_error_Some _ _ Ht'). reflexivity.
  - assert (Ht' : _current_token (with_ast a p) = None) by exact Ht.
    rewrite (_error_None _ _ Ht), (_error_None _ _ Ht'). reflexivity.
Qed.

Lemma ast_blind_eat (kind : TokenType) : ast_blind (_eat kind).
Proof.
  intros p a. destruct (_current_token p) as [t|] eqn:Ht.
  - assert (Ht' : _current_token (with_ast a p) = Some t) by exact Ht.
    destruct (TokenType_eq_dec (token_type t) kind) as [K|K].
    + rewrite (_eat_match _ Ht K), (_eat_match _ Ht' K). reflexivity.
    + rewrite (_eat_mismatch _ Ht K), (_eat_mismatch _ Ht' K). reflexivity.
  - assert (Ht' : _current_token (with_ast a p) = None) by exact Ht.
    rewrite (_eat_None _ _ Ht), (_eat_None _ _ Ht'). reflexivity.
Qed.

Lemma ast_blind_is_current_token (kind : TokenType) :
  ast_blind (_is_current_token kind).
Proof.
  intros p a. destruct (_current_token p) as [t|] eqn:Ht.
  - assert (Ht' : _current_token (with_ast a p) = Some t) by exact Ht.
    rewrite (_is_current_token_Some _ _ Ht), (_is_current_token_Some _ _ Ht').
    reflexivity.
  - assert (Ht' : _current_token (with_ast a p) = None) by exact Ht.
    rewrite (_is_current_token_None _ _ Ht), (_is_current_token_None _ _ Ht').
    reflexivity.
Qed.

Lemma ast_blind_bind {A B} (m : M A) (f : A -> M B) :
  ast_blind m -> (forall x, ast_blind (f x)) -> ast_blind (bind m f).
Proof.
  intros Hm Hf p a. unfold bind. rewrite Hm.
  destruct (m p) as [[x q|e q|] n]; simpl; auto.
  rewrite Hf. destruct (f x q) as [[y r|e r|] k]; reflexivity.
Qed.

Lemma ast_blind_try_eat (kind : TokenType) : ast_blind (_try_eat kind).
Proof.
  intros p a. unfold _try_eat, try_except_ParsingError.
  rewrite (ast_blind_bind (_eat kind) (fun _ => ret true)
             (ast_blind_eat kind) (fun _ => ast_blind_ret true)).
  destruct (bind (_eat kind) (fun _ => ret true) p) as [[x q|e q|] n];
    simpl; try reflexivity.
  destruct e; reflexivity.
Qed.

Lemma ast_blind_if {A} (c : bool) (m1 m2 : M A) :
  ast_blind m1 -> ast_blind m2 -> ast_blind (if c then m1 else m2).
Proof. destruct c; auto. Qed.

Lemma ast_blind_match_option {A B} (o : option B) (m1 : B -> M A)
    (m2 : M A) :
  (forall x, ast_blind (m1 x)) -> ast_blind m2 ->
  ast_blind (match o with Some x => m1 x | None => m2 end).
Proof. destruct o; auto. Qed.

Lemma ast_blind_match_list {A B} (l : list B) (m1 : M A)
    (m2 : B -> list B -> M A) :
  ast_blind m1 -> (forall x xs, ast_blind (m2 x xs)) ->
  ast_blind (match l with [] => m1 | x :: xs => m2 x xs end).
Proof. destruct l; auto. Qed.

Lemma ast_blind_while_fuel {A} (cond : M bool) (body : A -> M A) :
  ast_blind cond -> (forall acc, ast_blind (body acc)) ->
  forall fuel acc, ast_blind (while_fuel fuel cond body acc).
Proof.
  intros Hc Hb. induction fuel as [|fuel IH]; intros acc.
  - intros p a. reflexivity.
  - simpl. apply ast_blind_bind; [exact Hc|]. intros [|].
    + apply ast_blind_bind; [apply Hb | apply IH].
    + apply ast_blind_ret.
Qed.

Lemma ast_blind_while_do {A} (cond : M bool) (body : A -> M A) (acc : A) :
  ast_blind cond -> (forall acc, ast_blind (body acc)) ->
  ast_blind (while_do cond body acc).
Proof.
  intros Hc Hb p a. unfold while_do.
  change (fuel_of (with_ast a p)) with (fuel_of p).
  apply ast_blind_while_fuel; assumption.
Qed.

Create HintDb ast_blind.
#[local] Hint Resolve ast_blind_ret ast_blind_error ast_blind_eat
  ast_blind_try_eat ast_blind_is_current_token : ast_blind.

(** Builds an [ast_blind] judgement along the structure of a method. *)
Ltac ab :=
  idtac;
  lazymatch goal with
  | |- ast_blind (bind _ _) => eapply ast_blind_bind; [ab | intro; ab]
  | |- ast_blind (match _ with true => _ | false => _ end) =>
      eapply ast_blind_if; [ab | ab]
  | |- ast_blind (match _ with Some _ => _ | None => _ end) =>
      eapply ast_blind_match_option; [intro; ab | ab]
  | |- ast_blind (match _ with [] => _ | _ :: _ => _ end) =>
      eapply ast_blind_match_list; [ab | intros; ab]
  | |- ast_blind (while_do _ _ _) =>
      apply ast_blind_while_do; [ab | intro; ab]
  | |- _ => solve [eauto with ast_blind]
  end.

Lemma ast_blind_skip_newlines : ast_blind _skip_newlines.
Proof. unfold _skip_newlines. ab. Qed.
#[local] Hint Resolve ast_blind_skip_newlines : ast_blind.

Lemma ast_blind_header : ast_blind _header.
Proof. unfold _header. ab. Qed.
#[local] Hint Resolve ast_blind_header : ast_blind.

Lemma ast_blind_params_def : ast_blind _params_def.
Proof. unfold _params_def, _param_def. ab. Qed.
#[local] Hint Resolve ast_blind_params_def : ast_blind.

Lemma ast_blind_body : ast_blind _body.
Proof. unfold _body, _mod_call, _params, _param. ab. Qed.
#[local] Hint Resolve ast_blind_body : ast_blind.

Lemma ast_blind_mod_def : ast_blind _mod_def.
Proof. unfold _mod_def. ab. Qed.
#[local] Hint Resolve ast_blind_mod_def : ast_blind.

Lemma ast_blind_fnc_def : ast_blind _fnc_def.
Proof. unfold _fnc_def. ab. Qed.
#[local] Hint Resolve ast_blind_fnc_def : ast_blind.

Lemma ast_blind_dat_def : ast_blind _dat_def.
Proof. unfold _dat_def. ab. Qed.
#[local] Hint Resolve ast_blind_dat_def : ast_blind.

Lemma ast_blind_any_current_token (kinds : list TokenType) :
  ast_blind (any_current_token kinds).
Proof. induction kinds as [|k ks IH]; simpl; ab. Qed.
#[local] Hint Resolve ast_blind_any_current_token : ast_blind.

Lemma ast_blind_source_file (name : string) : ast_blind (_source_file name).
Proof. unfold _source_file, _source_file_statements. ab. Qed.

Lemma ast_blind_data_file (name : string) : ast_blind (_data_file name).
Proof. unfold _data_file, _data_file_statements. ab. Qed.

Lemma seen_from_initialize {A} (m : M A) (tokens : list Token)
    (p0 p0' : Parser) :
  ast_blind m ->
  seen (result (_initialize tokens ;; m) p0)
  = seen (result (_initialize tokens ;; m) p0').
Proof.
  intros Hm. rewrite !result_bind. destruct tokens as [|t ts].
  - reflexivity.
  - rewrite !result_initialize_cons. unfold result.
    change (mkParser (_ast p0) [] (t :: ts) 0 (Some t))
      with (with_ast (_ast p0) (mkParser (_ast p0') [] (t :: ts) 0 (Some t))).
    rewrite Hm.
    destruct (m (mkParser (_ast p0') [] (t :: ts) 0 (Some t)))
      as [[x q|e q|] n]; reflexivity.
Qed.

(** X12. What a file parse returns or raises does not depend on the
    parser object it runs in: [_initialize] forgets the previous file and
    no production looks at the accumulated list, so the same tokens give
    the same node, or the same exception, in a fresh parser and in one
    that has parsed any number of files before. *)
Theorem file_parse_forgets_the_previous_files :
  forall (name : string) (tokens : list Token) (p0 p0' : Parser),
    seen (result (_initialize tokens ;; _source_file name) p0)
    = seen (result (_initialize tokens ;; _source_file name) p0') /\
    seen (result (_initialize tokens ;; _data_file name) p0)
    = seen (result (_initialize tokens ;; _data_file name) p0').
Proof.
  intros name tokens p0 p0'. split.
  - apply seen_from_initialize, ast_blind_source_file.
  - apply seen_from_initialize, ast_blind_data_file.
Qed.

(* ================================================================== *)
(** ** Blank lines *)

Lemma skip_newlines_equation (p : Parser) :
  inv p ->
  result _skip_newlines p
  = match result (_try_eat NEWLINE) p with
    | Ret true p1 => result _skip_newlines p1
    | Ret false p1 => Ret tt p1
    | Raise e p1 => Raise e p1
    | Timeout => Timeout
    end.
Proof.
  intros Hp. unfold _skip_newlines at 1. loop_equation.
  destruct (result (_try_eat NEWLINE) p) as [[|] p1| |]; reflexivity.
Qed.

(** X13. [_skip_newlines] skips exactly the run of line ends at the
    cursor.  From a cursor in step with the array it either returns on
    the first token that is not a line end, having passed only line ends,
    or, when nothing but line ends is left, runs off the end of the array
    and ends in an [AttributeError]; it never raises a [ParsingError]. *)
Theorem skip_newlines_skips_the_run :
  forall (p : Parser),
    inv p ->
    match result _skip_newlines p with
    | Ret _ p' =>
        frame p p' /\
        newlines_between p (_position p) (_position p') /\
        exists t, _current_token p' = Some t /\ token_type t <> NEWLINE
    | Raise e p' =>
        e = AttributeError /\ frame p p' /\
        _position p' = List.length (_tokens p) /\
        newlines_between p (_position p) (_position p')
    | Timeout => False
    end.
Proof.
  intros p.
  remember (List.length (_tokens p) - _position p) as n eqn:En.
  revert p En. induction n as [n IH] using lt_wf_ind. intros p En Hp.
  rewrite (skip_newlines_equation p Hp).
  destruct (_current_token p) as [t|] eqn:Ht.
  - destruct (TokenType_eq_dec (token_type t) NEWLINE) as [K|K].
    + rewrite (result_try_eat_match _ Ht K).
      pose proof (inv_Some_lt Hp Ht) as Hlt.
      pose proof (inv_advance Hp Ht) as Hp'.
      assert (Hm : List.length (_tokens (advance p)) - _position (advance p)
                   < n)
        by (rewrite advance_position, advance_tokens; lia).
      specialize (IH _ Hm (advance p) eq_refl Hp').
      assert (Hfirst : forall i t', _position p <= i < S (_position p) ->
                nth_error (_tokens p) i = Some t' ->
                token_type t' = NEWLINE).
      { intros i t' Hi Hn. assert (i = _position p) by lia. subst i.
        destruct Hp as [Hc _]. rewrite Hc in Ht. congruence. }
      destruct (result _skip_newlines (advance p)) as [[] p'|e p'|];
        try contradiction.
      * destruct IH as (F & N & T). rewrite advance_position in N.
        split; [exact (frame_trans (frame_advance p) F)|].
        split; [|exact T].
        intros i t' Hi Hn.
        destruct (Nat.eq_dec i (_position p)) as [->|Hne].
        -- apply (Hfirst (_position p) t'); [lia | exact Hn].
        -- apply (N i t'); [lia | exact Hn].
      * destruct IH as (-> & F & L & N). rewrite advance_position in N.
        split; [reflexivity|].
        split; [exact (frame_trans (frame_advance p) F)|].
        split; [exact L|].
        intros i t' Hi Hn.
        destruct (Nat.eq_dec i (_position p)) as [->|Hne].
        -- apply (Hfirst (_position p) t'); [lia | exact Hn].
        -- apply (N i t'); [lia | exact Hn].
    + rewrite (result_try_eat_mismatch _ Ht K).
      split; [apply frame_refl|]. split; [|eauto].
      intros i t' Hi. lia.
  - rewrite (result_try_eat_None _ _ Ht).
    split; [reflexivity|]. split; [apply frame_refl|].
    destruct Hp as [Hc Hl]. rewrite Hc in Ht. apply nth_error_None in Ht.
    split; [lia|]. intros i t' Hi. lia.
Qed.

(* ================================================================== *)
(** ** Definitions left open *)

Lemma reads_eat_mismatch (p : Parser) (kind k : TokenType) (s : string)
    (ws : list Word) :
  reads p ((k, s) :: ws) -> k <> kind ->
  exists t, _current_token p = Some t /\ token_type t = k /\
            result (_eat kind) p
            = Raise (ParsingError (line_number t) (column t)
                       (expected_found kind k)) p.
Proof.
  intros H K. destruct (reads_current _ _ _ _ H) as (t & Ht & Kt).
  exists t. split; [exact Ht|]. split; [exact Kt|].
  rewrite (result_eat_mismatch _ Ht) by congruence. rewrite Kt. reflexivity.
Qed.

(** A procedure whose body is not followed by [END]. *)
Lemma mod_def_left_open (d : DefinitionText) (p : Parser) (k : TokenType)
    (s : string) (ws : list Word) :
  reads p (kw DEF :: text_up_to_closing d ++ (k, s) :: ws) ->
  k <> NEWLINE -> k <> NAME -> k <> END ->
  exists q t, _current_token q = Some t /\ token_type t = k /\
    result _mod_def p
    = Raise (ParsingError (line_number t) (column t)
               (expected_found END k)) q.
Proof.
  destruct d as [g r n ps body b1 b2 b3].
  intros H K1 K2 K3. unfold text_up_to_closing in H. simpl in H.
  repeat (rewrite <- app_assoc in H; simpl in H).
  unfold _mod_def.
  rewrite result_bind, (reads_skip_none _ _ _ _ H) by discriminate.
  rewrite result_bind, (reads_try_eat_mismatch _ GLOBAL _ _ _ H)
    by discriminate.
  rewrite result_bind, (reads_is_current_token _ DEF _ _ _ H). simpl.
  rewrite result_bind. destruct (reads_eat _ _ _ _ H) as (t0 & -> & _ & H0).
  rewrite result_bind. destruct (reads_eat _ _ _ _ H0) as (t1 & -> & _ & H1).
  rewrite result_bind. destruct (reads_eat _ _ _ _ H1) as (t2 & -> & _ & H2).
  destruct (reads_params_def _ _ _ _ _ H2) as (p3 & E3 & H3);
    try discriminate.
  rewrite result_bind, E3.
  rewrite result_bind. destruct (reads_eat _ _ _ _ H3) as (t4 & -> & _ & H4).
  rewrite result_bind. destruct (reads_eat _ _ _ _ H4) as (t5 & -> & _ & H5).
  destruct (reads_skip_blank _ _ _ H5) as (p6 & E6 & H6).
  { apply starts_with_other_body. exact K1. }
  rewrite result_bind, E6.
  destruct (reads_body _ _ _ _ _ _ H6 K1 K2) as (p7 & E7 & H7).
  rewrite result_bind, E7.
  destruct (reads_eat_mismatch _ END _ _ _ H7 K3) as (t & Ht & Kt & E8).
  rewrite result_bind, E8. eauto.
Qed.

(** A function whose body is not followed by [ENDFCT]. *)
Lemma fnc_def_left_open (d : DefinitionText) (type_name : string)
    (p : Parser) (k : TokenType) (s : string) (ws : list Word) :
  reads p (kw DEFFCT :: name_word type_name
             :: text_up_to_closing d ++ (k, s) :: ws) ->
  k <> NEWLINE -> k <> NAME -> k <> ENDFCT ->
  exists q t, _current_token q = Some t /\ token_type t = k /\
    result _fnc_def p
    = Raise (ParsingError (line_number t) (column t)
               (expected_found ENDFCT k)) q.
Proof.
  destruct d as [g r n ps body b1 b2 b3].
  intros H K1 K2 K3. unfold text_up_to_closing in H. simpl in H.
  repeat (rewrite <- app_assoc in H; simpl in H).
  unfold _fnc_def.
  rewrite result_bind, (reads_skip_none _ _ _ _ H) by discriminate.
  rewrite result_bind, (reads_try_eat_mismatch _ GLOBAL _ _ _ H)
    by discriminate.
  rewrite result_bind, (reads_is_current_token _ DEFFCT _ _ _ H). simpl.
  rewrite result_bind. destruct (reads_eat _ _ _ _ H) as (t0 & -> & _ & H0).
  rewrite result_bind. destruct (reads_eat _ _ _ _ H0) as (tr & -> & _ & Hr).
  rewrite result_bind. destruct (reads_eat _ _ _ _ Hr) as (t1 & -> & _ & H1).
  rewrite result_bind. destruct (reads_eat _ _ _ _ H1) as (t2 & -> & _ & H2).
  destruct (reads_params_def _ _ _ _ _ H2) as (p3 & E3 & H3);
    try discriminate.
  rewrite result_bind, E3.
  rewrite result_bind. destruct (reads_eat _ _ _ _ H3) as (t4 & -> & _ & H4).
  rewrite result_bind. destruct (reads_eat _ _ _ _ H4) as (t5 & -> & _ & H5).
  destruct (reads_skip_blank _ _ _ H5) as (p6 & E6 & H6).
  { apply starts_with_other_body. exact K1. }
  rewrite result_bind, E6.
  destruct (reads_body _ _ _ _ _ _ H6 K1 K2) as (p7 & E7 & H7).
  rewrite result_bind, E7.
  destruct (reads_eat_mismatch _ ENDFCT _ _ _ H7 K3) as (t & Ht & Kt & E8).
  rewrite result_bind, E8. eauto.
Qed.

(** X14. A definition must be closed by its own keyword.  When the body
    of a procedure is followed by anything but a call, a line end or
    [END] (the end of the file, the next definition, [ENDFCT]),
    [_mod_def] raises "expected END, found" that token's kind, at that
    token; likewise [_fnc_def] for a function and [ENDFCT]. *)
Theorem definition_must_be_closed :
  forall (d : DefinitionText) (p : Parser) (k : TokenType) (s : string)
         (ws : list Word),
    reads p (text_head (dt_returns d) ++ text_up_to_closing d
               ++ (k, s) :: ws) ->
    k <> NEWLINE -> k <> NAME -> k <> closing_keyword (dt_returns d) ->
    exists q t, _current_token q = Some t /\ token_type t = k /\
      result (match dt_returns d with
              | None => _mod_def
              | Some _ => _fnc_def
              end) p
      = Raise (ParsingError (line_number t) (column t)
                 (expected_found (closing_keyword (dt_returns d)) k)) q.
Proof.
  intros d p k s ws H K1 K2 K3. destruct (dt_returns d) as [ty|].
  - exact (fnc_def_left_open d ty p k s ws H K1 K2 K3).
  - exact (mod_def_left_open d p k s ws H K1 K2 K3).
Qed.

(* ================================================================== *)
(** ** The further theorems at work on the sample inputs *)

Lemma reads_start (tokens : list Token) :
  reads (start tokens) (map word_of tokens).
Proof.
  split; [split; [reflexivity | apply Nat.le_0_l] | reflexivity].
Defined.


Lemma data_file_round_trip_witness :
  exists p',
    result (_initialize (public_data_tokens ++ minimal_tokens) ;;
            _data_file "f") Parser_init
    = Ret (mkDataFile "f" (attribute_nodes [])
             [DataDefinition_ (xt_name public_data_text)]) p' /\
    _position p' = List.length public_data_tokens /\
    _tokens p' = public_data_tokens ++ minimal_tokens /\
    _ast p' = _ast Parser_init.
Proof.
  apply (data_file_round_trip "f" public_data_tokens minimal_tokens []
           public_data_text Parser_init).
  reflexivity.
Defined.

Lemma tokens_after_end_of_file_are_ignored_witness :
  exists p',
    result (_initialize (three_definitions_tokens ++ minimal_tokens) ;;
            _source_file "f") Parser_init
    = Ret (mkSourceFile "f" (attribute_nodes [("&ACCESS RVP", 0)])
             (map node_of three_definitions)) p' /\
    _position p' = List.length three_definitions_tokens /\
    _tokens p' = three_definitions_tokens ++ minimal_tokens /\
    _ast p' = _ast Parser_init.
Proof.
  apply (tokens_after_end_of_file_are_ignored "f" three_definitions_tokens
           minimal_tokens [("&ACCESS RVP", 0)] three_definitions Parser_init).
  - discriminate.
  - reflexivity.
Defined.

Lemma add_module_appends_the_pair_witness :
  exists p',
    result (add_module sample_lexer "m" "source" "data") Parser_init
    = Ret tt p' /\
    _ast p'
    = _ast Parser_init
        ++ [NModule
              (mkModule "m"
                 (mkSourceFile "m" (attribute_nodes [("&ACCESS RVP", 0)])
                    (map node_of three_definitions))
                 (mkDataFile "m" (attribute_nodes [])
                    [DataDefinition_ (xt_name public_data_text)]))].
Proof.
  apply (add_module_appends_the_pair sample_lexer "m" "source" "data"
           three_definitions_tokens public_data_tokens
           [("&ACCESS RVP", 0)] [] three_definitions public_data_text
           Parser_init).
  - reflexivity.
  - reflexivity.
  - discriminate.
  - reflexivity.
  - reflexivity.
Defined.

Lemma parsing_errors_point_at_the_offending_token_witness :
  (exists t, nth_error missing_direction_tokens 5 = Some t /\
             1%Z = line_number t /\ 11%Z = column t /\
             diagnosis source_file_messages t expected_in_or_out) /\
  (exists t, nth_error two_data_tokens 10 = Some t /\
             5%Z = line_number t /\ 1%Z = column t /\
             diagnosis data_file_messages t
               more_than_one_data_definition_found).
Proof.
  split.
  - apply (proj1 (parsing_errors_point_at_the_offending_token "f"
                    missing_direction_tokens Parser_init
                    (mkParser [] [] missing_direction_tokens 5
                       (Some (mkToken RIGHT_BRACE ")" 1 11)))
                    1 11 expected_in_or_out)).
    reflexivity.
  - apply (proj2 (parsing_errors_point_at_the_offending_token "f"
                    two_data_tokens Parser_init
                    (mkParser [] [] two_data_tokens 10
                       (Some (mkToken END_OF_FILE EmptyString 5 1)))
                    5 1 more_than_one_data_definition_found)).
    reflexivity.
Defined.

Lemma returned_files_are_well_formed_witness :
  (sf_name (mkSourceFile "f" []
              [mkFunctionDefinition "foo" [] [] None false]) = "f" /\
   sf_statements (mkSourceFile "f" []
                    [mkFunctionDefinition "foo" [] [] None false]) <> []) /\
  (df_name (mkDataFile "f" [] [mkDataDefinition "foo" false]) = "f" /\
   List.length (df_statements
                  (mkDataFile "f" [] [mkDataDefinition "foo" false])) = 1).
Proof.
  split.
  - apply (proj1 (returned_files_are_well_formed "f" (start minimal_tokens)
                    (mkParser [] [] minimal_tokens 8 None))).
    reflexivity.
  - apply (proj2 (returned_files_are_well_formed "f"
                    (start public_data_tokens)
                    (mkParser [] [] public_data_tokens 7 None))).
    reflexivity.
Defined.

Lemma success_consumes_an_end_of_file_token_witness :
  exists i t, 8 = S i /\ nth_error minimal_tokens i = Some t /\
              token_type t = END_OF_FILE.
Proof.
  apply (proj1 (success_consumes_an_end_of_file_token "f" minimal_tokens
                  Parser_init (mkParser [] [] minimal_tokens 8 None))
           (mkSourceFile "f" []
              [mkFunctionDefinition "foo" [] [] None false])).
  reflexivity.
Defined.

Lemma first_token_must_open_a_definition_witness :
  result (_source_file "f") (start blank_lines_tokens)
  = Raise (ParsingError 1 1 "No module or function definition found")
      (start blank_lines_tokens) /\
  result (_data_file "f") (start blank_lines_tokens)
  = Raise (ParsingError 1 1 "No data definition found")
      (start blank_lines_tokens).
Proof.
  split.
  - apply (proj1 (first_token_must_open_a_definition "f"
                    (start blank_lines_tokens)
                    (mkToken NEWLINE newline 1 1) eq_refl
                    ltac:(discriminate))); discriminate.
  - apply (proj2 (first_token_must_open_a_definition "f"
                    (start blank_lines_tokens)
                    (mkToken NEWLINE newline 1 1) eq_refl
                    ltac:(discriminate))); discriminate.
Defined.

Lemma file_parse_is_one_forward_pass_witness :
  (exists p',
      final_state (result (_source_file "f") (start minimal_tokens))
      = Some p' /\
      _tokens p' = _tokens (start minimal_tokens) /\
      _ast p' = _ast (start minimal_tokens) /\
      _position (start minimal_tokens) <= _position p'
        <= List.length (_tokens (start minimal_tokens)) /\
      _current_token p'
      = nth_error (_tokens (start minimal_tokens)) (_position p')) /\
  (exists p',
      final_state (result (_data_file "f") (start minimal_tokens))
      = Some p' /\
      _tokens p' = _tokens (start minimal_tokens) /\
      _ast p' = _ast (start minimal_tokens) /\
      _position (start minimal_tokens) <= _position p'
        <= List.length (_tokens (start minimal_tokens)) /\
      _current_token p'
      = nth_error (_tokens (start minimal_tokens)) (_position p')).
Proof.
  apply (file_parse_is_one_forward_pass "f" (start minimal_tokens)).
  exact (reads_inv _ _ (reads_start minimal_tokens)).
Defined.

Lemma parameter_needs_a_direction_witness :
  result _param_def at_the_parameter
  = Raise (ParsingError 1 11 expected_in_or_out)
      (advance (advance at_the_parameter)).
Proof.
  apply (proj2 (proj2 (parameter_needs_a_direction at_the_parameter
                         (mkToken NAME "a" 1 9) (mkToken COLON ":" 1 10)
                         (mkToken RIGHT_BRACE ")" 1 11)
                         eq_refl eq_refl eq_refl eq_refl eq_refl)));
    discriminate.
Defined.

Lemma lexing_failure_leaves_the_parser_untouched_witness :
  (result (add_source_file sample_lexer "f" "other") (start minimal_tokens)
   = Raise (LexError 1 1 "unexpected character") (start minimal_tokens) /\
   result (add_data_file sample_lexer "f" "other") (start minimal_tokens)
   = Raise (LexError 1 1 "unexpected character") (start minimal_tokens)) /\
  result (add_module sample_lexer "f" "other" "data") (start minimal_tokens)
  = Raise (LexError 1 1 "unexpected character") (start minimal_tokens) /\
  result (add_module sample_lexer "f" "source" "other")
    (start minimal_tokens)
  = Raise (LexError 1 1 "unexpected character") (start minimal_tokens).
Proof.
  pose proof (lexing_failure_leaves_the_parser_untouched sample_lexer "f"
                (LexError 1 1 "unexpected character")
                (start minimal_tokens)) as (H1 & H2 & H3).
  split; [|split].
  - apply H1. reflexivity.
  - apply H2. reflexivity.
  - apply (H3 "source" "other" three_definitions_tokens); reflexivity.
Defined.

Lemma skip_newlines_skips_the_run_witness :
  match result _skip_newlines (start blank_lines_tokens) with
  | Ret _ p' =>
      frame (start blank_lines_tokens) p' /\
      newlines_between (start blank_lines_tokens)
        (_position (start blank_lines_tokens)) (_position p') /\
      exists t, _current_token p' = Some t /\ token_type t <> NEWLINE
  | Raise e p' =>
      e = AttributeError /\ frame (start blank_lines_tokens) p' /\
      _position p' = List.length (_tokens (start blank_lines_tokens)) /\
      newlines_between (start blank_lines_tokens)
        (_position (start blank_lines_tokens)) (_position p')
  | Timeout => False
  end.
Proof.
  apply (skip_newlines_skips_the_run (start blank_lines_tokens)).
  exact (reads_inv _ _ (reads_start blank_lines_tokens)).
Defined.

Lemma definition_must_be_closed_witness :
  exists q t, _current_token q = Some t /\ token_type t = END_OF_FILE /\
    result _mod_def (start left_open_tokens)
    = Raise (ParsingError (line_number t) (column t)
               (expected_found END END_OF_FILE)) q.
Proof.
  apply (definition_must_be_closed
           (mkDefinitionText false None "foo" [] [] 0 0 0)
           (start left_open_tokens) END_OF_FILE EmptyString []).
  - exact (reads_start left_open_tokens).
  - discriminate.
  - discriminate.
  - discriminate.
Defined.
